(** * XOOK Merkle tree: node model, serialization, caches and adapters

    A shallow embedding of the header-only C++ sources
    ([sparse_bitmap.hpp], [node_type.hpp], [node_serde.hpp],
    [nibble_path.hpp], [tree_cache.hpp], [xook_adapter.hpp],
    [xmt_legacy_adapter.hpp]) together with the properties the
    specification states about them.

    Conventions.
    - [uint8_t] buffers ([glofica::Bytes], [glofica::Hash]) are [list byte];
      a hash is a [std::array<uint8_t, 64>], so a well-formed hash has
      length [HASH_SIZE].
    - [uint16_t], [uint64_t] and [size_t] values are [Z], with the
      truncation of the C++ conversions written out.
    - [std::vector] is [list]; [std::unordered_map] is [gmap].
    - [std::optional] is [option]. *)

From Stdlib Require Import ZArith List Lia.
From coqutil Require Import Byte Word.LittleEndianList.
From stdpp Require Import base option list strings gmap fin_maps.

Local Open Scope Z_scope.

(** ** Bytes *)

Abbreviation Bytes := (list byte).
Abbreviation Hash := (list byte).

(** Width of [glofica::Hash] (the declaration lives in [common/hash.hpp];
    [node_serde.hpp] hard-codes the same 64, 72 = 64 + 8 and
    129 = 1 + 64 + 64). *)
Definition HASH_SIZE : nat := 64.

(** [static_cast<uint8_t>(z)]. *)
Definition u8 (z : Z) : byte := byte.of_Z z.

(** [bytes[i]] read as an unsigned value.  An index past the end is
    undefined behaviour in C++; every read below is guarded by a length
    test, and the model answers 0 there. *)
Definition byte_at (bytes : Bytes) (i : nat) : Z :=
  match bytes !! i with
  | Some b => byte.unsigned b
  | None => 0
  end.

Global Instance byte_eq_dec : EqDecision byte.
Proof.
  intros a b. destruct (decide (Byte.to_N a = Byte.to_N b)) as [H|H].
  - left. apply byte.to_N_inj. exact H.
  - right. intros ->. apply H. reflexivity.
Defined.

Global Instance byte_countable : Countable byte :=
  inj_countable Byte.to_N Byte.of_N Byte.of_to_N.

(** ** sparse_bitmap.hpp *)

(** A nibble argument is a [uint8_t] documented as a position 0..15; the
    functions below keep the 16-bit truncations of the code, and the
    properties are stated for nibbles in that range (a shift by 32 or
    more is undefined in C++). *)
Record SparseBitmap := mkSparseBitmap { mask_ : Z }.

(** Number of set bits of [x] among the bit positions [0 .. n-1]. *)
Fixpoint count_bits (x : Z) (n : nat) : nat :=
  match n with
  | O => O
  | S k => (count_bits x k + if Z.testbit x (Z.of_nat k) then 1 else 0)%nat
  end.

(** [std::popcount] on a [uint16_t]: the number of set bits among
    positions 0..15. *)
Definition popcount (x : Z) : nat := count_bits x 16.

Definition u16 (z : Z) : Z := z mod 2 ^ 16.

(** [(mask_ >> nibble) & 1] *)
Definition bitmap_exists (b : SparseBitmap) (nibble : nat) : bool :=
  Z.land (Z.shiftr (mask_ b) (Z.of_nat nibble)) 1 =? 1.

(** [uint16_t mask_before = (1 << nibble) - 1;
     popcount(uint16_t(mask_ & mask_before))] *)
Definition get_index (b : SparseBitmap) (nibble : nat) : nat :=
  let mask_before := u16 (Z.shiftl 1 (Z.of_nat nibble) - 1) in
  popcount (u16 (Z.land (mask_ b) mask_before)).

(** [mask_ |= (1 << nibble)] *)
Definition bitmap_set (b : SparseBitmap) (nibble : nat) : SparseBitmap :=
  mkSparseBitmap (u16 (Z.lor (mask_ b) (Z.shiftl 1 (Z.of_nat nibble)))).

Definition raw_mask (b : SparseBitmap) : Z := mask_ b.

Definition total_children (b : SparseBitmap) : nat := popcount (mask_ b).

Definition bitmap_empty (b : SparseBitmap) : bool := mask_ b =? 0.

(** ** node_type.hpp *)

Definition XOOK_INTERNAL_NODE_DOMAIN : Bytes :=
  String.list_byte_of_string "GLOFICA_InternalNode_V2_PQ"%string.
Definition XOOK_LEAF_NODE_DOMAIN : Bytes :=
  String.list_byte_of_string "GLOFICA_LeafNode_V2_PQ"%string.

Record ChildInfo := mkChildInfo { hash : Hash; version : Z }.

Record InternalNode := mkInternalNode {
  bitmap : SparseBitmap;
  children : list ChildInfo
}.

Definition empty_internal : InternalNode := mkInternalNode (mkSparseBitmap 0) [].

(** [children[idx]] past the end is undefined behaviour in C++; the model
    reads it as [None], and [get_child_in_range] below shows the read is
    in range whenever the list has [popcount mask] entries. *)
Definition get_child (n : InternalNode) (nibble : nat) : option ChildInfo :=
  if negb (bitmap_exists (bitmap n) nibble) then None
  else children n !! get_index (bitmap n) nibble.

Definition set_child (n : InternalNode) (nibble : nat) (h : Hash) (v : Z)
  : InternalNode :=
  let info := mkChildInfo h v in
  if negb (bitmap_exists (bitmap n) nibble) then
    let bm := bitmap_set (bitmap n) nibble in
    let idx := get_index bm nibble in
    mkInternalNode bm (take idx (children n) ++ info :: drop idx (children n))
  else
    let idx := get_index (bitmap n) nibble in
    mkInternalNode (bitmap n) (<[idx := info]> (children n)).

(** [for (i = 0; i < 8; ++i) push_back(uint8_t((v >> (i * 8)) & 0xFF))] *)
Definition push_u64_le (v : Z) : Bytes :=
  map (fun i : nat => u8 (Z.land (Z.shiftr v (Z.of_nat i * 8)) 255)) (seq 0 8).

Definition serialize_child (child : ChildInfo) : Bytes :=
  hash child ++ push_u64_le (version child).

Definition internal_serialize_canonical (n : InternalNode) : Bytes :=
  let mask := raw_mask (bitmap n) in
  u8 (Z.land mask 255) :: u8 (Z.land (Z.shiftr mask 8) 255)
    :: flat_map serialize_child (children n).

Record LeafNode := mkLeafNode { account_key : Hash; value_hash : Hash }.

Definition leaf_serialize_canonical (l : LeafNode) : Bytes :=
  account_key l ++ value_hash l.

Inductive Node :=
| Internal (i : InternalNode)
| Leaf (l : LeafNode).

Definition serialize_node (n : Node) : Bytes :=
  match n with
  | Internal i => internal_serialize_canonical i
  | Leaf l => leaf_serialize_canonical l
  end.

(** The hash function [hash::blake3] is declared in [common/hash.hpp],
    outside the sources; node hashing is parametric in it. *)
Section Hashing.
Variable blake3 : Bytes -> Hash.

Definition internal_hash (n : InternalNode) : Hash :=
  blake3 (XOOK_INTERNAL_NODE_DOMAIN ++ internal_serialize_canonical n).

Definition leaf_hash (l : LeafNode) : Hash :=
  blake3 (XOOK_LEAF_NODE_DOMAIN ++ leaf_serialize_canonical l).

Definition hash_node (n : Node) : Hash :=
  match n with
  | Internal i => internal_hash i
  | Leaf l => leaf_hash l
  end.
End Hashing.

(** ** node_serde.hpp *)

Definition serialize_node_with_prefix (node : Node) : Bytes :=
  match node with
  | Internal i => u8 1 :: internal_serialize_canonical i
  | Leaf l => u8 2 :: leaf_serialize_canonical l
  end.

(** [info.version |= uint64_t(bytes[pos + bit]) << (bit * 8)] for
    [bit = 0 .. 7]. *)
Definition read_u64_le (bytes : Bytes) (pos : nat) : Z :=
  fold_left
    (fun acc (bit : nat) =>
       Z.lor acc (Z.shiftl (byte_at bytes (pos + bit)) (Z.of_nat bit * 8)) mod 2 ^ 64)
    (seq 0 8) 0.

(** The child loop of [deserialize_node_from_bytes]: [n] iterations left,
    cursor [pos], children read so far [acc]. *)
Fixpoint read_children (bytes : Bytes) (n : nat) (pos : nat) (acc : list ChildInfo)
  : option (nat * list ChildInfo) :=
  match n with
  | O => Some (pos, acc)
  | S n' =>
      if (length bytes <? pos + 72)%nat then None
      else
        let h := take 64 (drop pos bytes) in
        let v := read_u64_le bytes (pos + 64) in
        read_children bytes n' (pos + 72) (acc ++ [mkChildInfo h v])
  end.

Definition deserialize_node_from_bytes (bytes : Bytes) : option Node :=
  match bytes with
  | [] => None
  | _ =>
      let type := byte_at bytes 0 in
      if type =? 1 then
        if (length bytes <? 3)%nat then None
        else
          let bitmap_mask := u16 (Z.lor (byte_at bytes 1) (Z.shiftl (byte_at bytes 2) 8)) in
          let bm := mkSparseBitmap bitmap_mask in
          match read_children bytes (total_children bm) 3 [] with
          | None => None
          | Some (pos, cs) =>
              if negb (pos =? length bytes)%nat then None
              else Some (Internal (mkInternalNode bm cs))
          end
      else if type =? 2 then
        if negb (length bytes =? 129)%nat then None
        else Some (Leaf (mkLeafNode (take 64 (drop 1 bytes)) (take 64 (drop 65 bytes))))
      else None
  end.

(** ** nibble_path.hpp *)

Record NibblePath := mkNibblePath {
  bytes_ : Bytes;      (* packed nibbles, two per byte *)
  num_nibbles_ : Z     (* size_t *)
}.

(** [size_t] arithmetic wraps at 2^64. *)
Definition size_t (z : Z) : Z := z mod 2 ^ 64.

(** [path.bytes_.back() &= 0xF0] *)
Definition clear_low_nibble (bs : Bytes) : Bytes :=
  alter (fun b => u8 (Z.land (byte.unsigned b) 240)) (length bs - 1)%nat bs.

Definition from_bytes (bytes : Bytes) (num_nibbles : Z) : NibblePath :=
  let expected_size := Z.to_nat (size_t (num_nibbles + 1) / 2) in
  let bs :=
    if (expected_size <? length bytes)%nat then take expected_size bytes
    else bytes in
  let bs :=
    if negb (num_nibbles mod 2 =? 0) && negb (bool_decide (bs = []))
    then clear_low_nibble bs else bs in
  mkNibblePath bs num_nibbles.

Definition from_binary (key : Bytes) : NibblePath :=
  mkNibblePath key (size_t (Z.of_nat (length key) * 2)).

Definition nibble_size (p : NibblePath) : Z := num_nibbles_ p.

(** Outcome of an indexed read: a value, the [std::out_of_range]
    exception, or a read past the end of the vector (undefined behaviour
    in C++, kept apart here). *)
Inductive Access (A : Type) :=
| Value (a : A)
| ThrowsOutOfRange
| ReadsOutOfBounds.
Arguments Value {A} a.
Arguments ThrowsOutOfRange {A}.
Arguments ReadsOutOfBounds {A}.

Definition get_nibble (p : NibblePath) (index : Z) : Access Z :=
  if num_nibbles_ p <=? index then ThrowsOutOfRange
  else
    match bytes_ p !! Z.to_nat (index / 2) with
    | None => ReadsOutOfBounds
    | Some byte =>
        Value (if index mod 2 =? 0 then Z.shiftr (byte.unsigned byte) 4
               else Z.land (byte.unsigned byte) 15)
    end.

(** [NodeKey]; its [version] field is [nk_version] here, the name
    [version] being taken by [ChildInfo]. *)
Record NodeKey := mkNodeKey { nk_version : Z; nibble_path : NibblePath }.

Global Instance NibblePath_eq_dec : EqDecision NibblePath.
Proof. solve_decision. Defined.

Global Instance NodeKey_eq_dec : EqDecision NodeKey.
Proof. solve_decision. Defined.

Global Instance NibblePath_countable : Countable NibblePath :=
  inj_countable' (fun p => (bytes_ p, num_nibbles_ p))
                 (fun t => mkNibblePath t.1 t.2)
                 (fun p => match p with mkNibblePath _ _ => eq_refl end).

Global Instance NodeKey_countable : Countable NodeKey :=
  inj_countable' (fun k => (nk_version k, nibble_path k))
                 (fun t => mkNodeKey t.1 t.2)
                 (fun k => match k with mkNodeKey _ _ => eq_refl end).

(** ** tree_cache.hpp *)

(** The map entry of a key also holds an iterator to the key's element of
    the recency list; the list holds every cached key once, so the
    element is identified by the key itself. *)
Record TreeCache := mkTreeCache {
  capacity_ : nat;
  lru_list_ : list NodeKey;             (* most recent at front *)
  cache_map_ : gmap NodeKey Node
}.

Definition TreeCache_new (capacity : nat) : TreeCache :=
  mkTreeCache capacity [] ∅.

(** Unlink the list element of [key]. *)
Fixpoint unlink (key : NodeKey) (l : list NodeKey) : list NodeKey :=
  match l with
  | [] => []
  | k :: l' => if decide (k = key) then l' else k :: unlink key l'
  end.

(** [lru_list_.splice(lru_list_.begin(), lru_list_, it)] *)
Definition splice_front (key : NodeKey) (l : list NodeKey) : list NodeKey :=
  key :: unlink key l.

Definition TreeCache_get (c : TreeCache) (key : NodeKey)
  : option Node * TreeCache :=
  match cache_map_ c !! key with
  | None => (None, c)
  | Some node =>
      (Some node,
       mkTreeCache (capacity_ c) (splice_front key (lru_list_ c)) (cache_map_ c))
  end.

(** The eviction step of [put].  [lru_list_.back()] on an empty list is
    undefined behaviour in C++ (it needs capacity 0); the model leaves the
    cache as it is there. *)
Definition evict_if_full (c : TreeCache) : TreeCache :=
  if (capacity_ c <=? size (cache_map_ c))%nat then
    match last (lru_list_ c) with
    | Some last_key =>
        mkTreeCache (capacity_ c) (removelast (lru_list_ c))
                    (delete last_key (cache_map_ c))
    | None => c
    end
  else c.

Definition TreeCache_put (c : TreeCache) (key : NodeKey) (node : Node) : TreeCache :=
  match cache_map_ c !! key with
  | Some _ =>
      mkTreeCache (capacity_ c) (splice_front key (lru_list_ c))
                  (<[key := node]> (cache_map_ c))
  | None =>
      let c := evict_if_full c in
      mkTreeCache (capacity_ c) (key :: lru_list_ c) (<[key := node]> (cache_map_ c))
  end.

Definition TreeCache_clear (c : TreeCache) : TreeCache :=
  mkTreeCache (capacity_ c) [] ∅.

Definition TreeCache_size (c : TreeCache) : nat := size (cache_map_ c).

(** ** xook_adapter.hpp: SpeculativeTreeCache *)

(** [base_cache_] is a pointer to a cache owned elsewhere ([None] is the
    null pointer); the record carries the pointee so that every effect on
    the base is visible.  The inherited [TreeCache(0)] part is never
    reached: all four virtual functions are overridden. *)
Record SpeculativeTreeCache := mkSpeculativeTreeCache {
  base_cache_ : option TreeCache;
  overlay_ : gmap NodeKey Node;
  injected_ : gmap NodeKey Node
}.

Definition Speculative_new (base : option TreeCache) : SpeculativeTreeCache :=
  mkSpeculativeTreeCache base ∅ ∅.

Definition inject_node (s : SpeculativeTreeCache) (key : NodeKey) (node : Node)
  : SpeculativeTreeCache :=
  mkSpeculativeTreeCache (base_cache_ s) (overlay_ s) (<[key := node]> (injected_ s)).

Definition Speculative_get (s : SpeculativeTreeCache) (key : NodeKey)
  : option Node * SpeculativeTreeCache :=
  match overlay_ s !! key with
  | Some node => (Some node, s)
  | None =>
      match injected_ s !! key with
      | Some node => (Some node, s)
      | None =>
          match base_cache_ s with
          | Some base =>
              let '(r, base') := TreeCache_get base key in
              (r, mkSpeculativeTreeCache (Some base') (overlay_ s) (injected_ s))
          | None => (None, s)
          end
      end
  end.

Definition Speculative_put (s : SpeculativeTreeCache) (key : NodeKey) (node : Node)
  : SpeculativeTreeCache :=
  mkSpeculativeTreeCache (base_cache_ s) (<[key := node]> (overlay_ s)) (injected_ s).

Definition Speculative_clear (s : SpeculativeTreeCache) : SpeculativeTreeCache :=
  mkSpeculativeTreeCache (base_cache_ s) ∅ ∅.

Definition Speculative_size (s : SpeculativeTreeCache) : nat :=
  (size (overlay_ s) + size (injected_ s))%nat.

(** The mutating operations of the overlay, as data. *)
Inductive SpecOp :=
| OpPut (key : NodeKey) (node : Node)
| OpInject (key : NodeKey) (node : Node)
| OpClear.

Definition spec_step (s : SpeculativeTreeCache) (op : SpecOp) : SpeculativeTreeCache :=
  match op with
  | OpPut k n => Speculative_put s k n
  | OpInject k n => inject_node s k n
  | OpClear => Speculative_clear s
  end.

Definition spec_run (ops : list SpecOp) (s : SpeculativeTreeCache)
  : SpeculativeTreeCache :=
  fold_left spec_step ops s.

(** A run of [put]s on a [TreeCache]. *)
Definition TreeCache_puts (kvs : list (NodeKey * Node)) (c : TreeCache) : TreeCache :=
  fold_left (fun c kv => TreeCache_put c kv.1 kv.2) kvs c.

(** ** xook_adapter.hpp: XookAdapter *)

(** Modelled from the spec: [TreeUpdateBatch] is declared in
    [xook_merkle_tree.hpp], which is not among the sources; section 4.5
    of the specification gives its two fields. *)
Record TreeUpdateBatch := mkTreeUpdateBatch {
  new_root_hash : Hash;
  node_batch : list (NodeKey * Bytes)
}.

(** The adapter is parametric in the collaborators declared outside the
    sources: the hash function [hash::blake3], and the tree engine
    [XookTree] with its state [Tree], its batch update [put_value_set]
    ([None] when it throws) and its [get_root_hash]. *)
Section Adapter.
Variable blake3 : Bytes -> Hash.
Variable Tree : Type.
Variable put_value_set :
  Tree -> list (Hash * option Bytes) -> Z -> Hash -> option Z ->
  option (TreeUpdateBatch * Tree).
Variable tree_get_root_hash : Tree -> Z -> Hash.

Record XookAdapter := mkXookAdapter {
  tree_ : Tree;
  pending_updates_ : gmap Hash Bytes;
  current_version_ : Z;
  last_root_ : Hash
}.

Definition XookAdapter_put (a : XookAdapter) (key : Bytes) (value_hash : Hash)
    (version : Z) : XookAdapter :=
  let key_hash := blake3 key in
  let value_bytes : Bytes := value_hash in
  mkXookAdapter (tree_ a) (<[key_hash := value_bytes]> (pending_updates_ a))
                version (last_root_ a).

(** The merged batch of [calculate_root]: the explicit updates under
    their key hashes, then the pending map in the iteration order of the
    map (unspecified for [std::unordered_map]). *)
Definition merged_batch (a : XookAdapter) (updates : list (Bytes * Hash))
  : list (Hash * Bytes) :=
  map (fun kv : Bytes * Hash => (blake3 kv.1, kv.2)) updates
  ++ map_to_list (pending_updates_ a).

Definition XookAdapter_calculate_root (a : XookAdapter)
    (updates : list (Bytes * Hash)) (base_root : Hash) (version : Z)
    (base_version : option Z) : option (TreeUpdateBatch * XookAdapter) :=
  let batch := merged_batch a updates in
  match batch with
  | [] => Some (mkTreeUpdateBatch base_root [], a)
  | _ =>
      let jmt_updates := map (fun kv : Hash * Bytes => (kv.1, Some kv.2)) batch in
      match put_value_set (tree_ a) jmt_updates version base_root base_version with
      | None => None
      | Some (result, tree') =>
          Some (result,
                mkXookAdapter tree' ∅ version (new_root_hash result))
      end
  end.

Definition XookAdapter_get_root_hash (a : XookAdapter) (version : Z) : Hash :=
  if version =? current_version_ a then last_root_ a
  else tree_get_root_hash (tree_ a) version.

End Adapter.

Arguments mkXookAdapter {Tree}.
Arguments tree_ {Tree}.
Arguments pending_updates_ {Tree}.
Arguments current_version_ {Tree}.
Arguments last_root_ {Tree}.
Arguments XookAdapter_put blake3 {Tree}.
Arguments merged_batch blake3 {Tree}.
Arguments XookAdapter_calculate_root blake3 {Tree}.
Arguments XookAdapter_get_root_hash {Tree}.

(** ** xmt_legacy_adapter.hpp *)

Module XMTLegacy.

(** The accumulator fields of [XMTLegacyAdapter]; keys are [Hash256]
    values, 32 bytes. *)
Record XMTLegacyAdapter := mkXMTLegacyAdapter {
  pending_updates_ : gmap Bytes Bytes;
  current_version_ : Z;
  last_root_ : Bytes
}.

(** The key conversion of [put]: the first 32 bytes of the key, or the
    key followed by zeros when it is shorter. *)
Definition key_to_hash256 (key : Bytes) : Bytes :=
  if (32 <=? length key)%nat then take 32 key
  else key ++ replicate (32 - length key) Byte.x00.

Definition put (a : XMTLegacyAdapter) (key : Bytes) (value_hash : Bytes)
    (version : Z) : XMTLegacyAdapter :=
  let key_hash := key_to_hash256 key in
  mkXMTLegacyAdapter (<[key_hash := value_hash]> (pending_updates_ a))
                     version (last_root_ a).

Definition new : XMTLegacyAdapter :=
  mkXMTLegacyAdapter ∅ 0 (replicate 32 Byte.x00).

End XMTLegacy.

(** * Notions used in the statements *)

(** ** Well-formed values

    What the C++ types guarantee by construction: a hash has 64 bytes, a
    mask fits 16 bits, a version fits 64 bits. *)

Definition wf_hash (h : Hash) : Prop := length h = HASH_SIZE.

Definition wf_child (c : ChildInfo) : Prop :=
  wf_hash (hash c) /\ 0 <= version c < 2 ^ 64.

Definition wf_mask (m : Z) : Prop := 0 <= m < 2 ^ 16.

(** An internal node whose dense list has one descriptor per set bit. *)
Definition wf_internal (n : InternalNode) : Prop :=
  wf_mask (mask_ (bitmap n))
  /\ length (children n) = popcount (mask_ (bitmap n))
  /\ Forall wf_child (children n).

Definition wf_leaf (l : LeafNode) : Prop :=
  wf_hash (account_key l) /\ wf_hash (value_hash l).

Definition wf_node (n : Node) : Prop :=
  match n with
  | Internal i => wf_internal i
  | Leaf l => wf_leaf l
  end.

(** The 16-bit mask read from the two bytes after the kind tag. *)
Definition mask_of (lo hi : byte) : Z :=
  u16 (Z.lor (byte.unsigned lo) (Z.shiftl (byte.unsigned hi) 8)).

(** A sequence of [set_child] calls, and the descriptor most recently set
    for a nibble by that sequence. *)
Definition apply_set (n : InternalNode) (op : nat * Hash * Z) : InternalNode :=
  let '(nibble, h, v) := op in set_child n nibble h v.

Definition set_children (ops : list (nat * Hash * Z)) (n : InternalNode)
  : InternalNode :=
  fold_left apply_set ops n.

Definition last_set (ops : list (nat * Hash * Z)) (nibble : nat)
  : option ChildInfo :=
  fold_left
    (fun r (op : nat * Hash * Z) =>
       let '(n, h, v) := op in
       if (n =? nibble)%nat then Some (mkChildInfo h v) else r)
    ops None.

(** [node] stores the partial map [f] from nibbles to descriptors: the
    mask bit of a nibble is set exactly when [f] is defined there, and the
    dense list is [f] read off in ascending nibble order. *)
Definition represents (node : InternalNode) (f : nat -> option ChildInfo) : Prop :=
  wf_mask (mask_ (bitmap node))
  /\ (forall i, (i < 16)%nat ->
        Z.testbit (mask_ (bitmap node)) (Z.of_nat i) = true <-> is_Some (f i))
  /\ children node = omap f (seq 0 16).

(** The hash function does not collide on the two inputs [x] and [y]. *)
Definition collision_free_on (hashfn : Bytes -> Hash) (x y : Bytes) : Prop :=
  hashfn x = hashfn y -> x = y.

(** ** Sample values *)

Definition tleaf := mkLeafNode (replicate 64 Byte.xaa) (replicate 64 Byte.xbb).
Definition tint := set_child (set_child (set_child empty_internal 15 (replicate 64 Byte.x22) 7) 0 (replicate 64 Byte.x11) (2^63+5)) 15 (replicate 64 Byte.x33) 9.

Definition key_a : NodeKey := mkNodeKey 1 (mkNibblePath [] 0).
Definition key_b : NodeKey := mkNodeKey 1 (mkNibblePath [Byte.x10] 1).
Definition key_c : NodeKey := mkNodeKey 1 (mkNibblePath [Byte.x20] 1).

(** A tree engine that only records the batches it is given. *)
Definition recording_put_value_set (t : list (list (Hash * option Bytes)))
    (updates : list (Hash * option Bytes)) (version : Z) (base_root : Hash)
    (base_version : option Z)
  : option (TreeUpdateBatch * list (list (Hash * option Bytes))) :=
  Some (mkTreeUpdateBatch (replicate 64 Byte.x01) [], updates :: t).

Definition adapter0 : XookAdapter (list (list (Hash * option Bytes))) :=
  mkXookAdapter [] ∅ 0 (replicate 64 Byte.x00).

(** ** nibble_path.hpp: incremental construction and ordering *)

(** [push]; [None] is the [std::invalid_argument] exception.  On an odd
    count the low nibble goes into [bytes_.back()] (undefined on an empty
    vector, which the class invariant excludes; the model changes nothing
    there). *)
Definition push (p : NibblePath) (nibble : Z) : option NibblePath :=
  if 15 <? nibble then None
  else
    let bs :=
      if num_nibbles_ p mod 2 =? 0
      then bytes_ p ++ [u8 (Z.shiftl nibble 4)]
      else alter (fun b => u8 (Z.lor (byte.unsigned b) (Z.land nibble 15)))
                 (length (bytes_ p) - 1)%nat (bytes_ p) in
    Some (mkNibblePath bs (size_t (num_nibbles_ p + 1))).

(** [pop]; a no-op on the empty path. *)
Definition pop (p : NibblePath) : NibblePath :=
  if num_nibbles_ p =? 0 then p
  else
    let bs :=
      if num_nibbles_ p mod 2 =? 0 then clear_low_nibble (bytes_ p)
      else removelast (bytes_ p) in
    mkNibblePath bs (size_t (num_nibbles_ p - 1)).

Definition nibble_empty (p : NibblePath) : bool := num_nibbles_ p =? 0.

(** [bytes_ <=> other.bytes_]: lexicographic three-way comparison of two
    [std::vector<uint8_t>]. *)
Fixpoint bytes_compare (a b : Bytes) : comparison :=
  match a, b with
  | [], [] => Eq
  | [], _ :: _ => Lt
  | _ :: _, [] => Gt
  | x :: a', y :: b' =>
      match byte.unsigned x ?= byte.unsigned y with
      | Eq => bytes_compare a' b'
      | c => c
      end
  end.

(** [NibblePath::operator<=>]: length first, then the packed bytes. *)
Definition NibblePath_compare (p q : NibblePath) : comparison :=
  match num_nibbles_ p ?= num_nibbles_ q with
  | Eq => bytes_compare (bytes_ p) (bytes_ q)
  | c => c
  end.

(** [NodeKey::operator<=>]: version first, then the path. *)
Definition NodeKey_compare (k1 k2 : NodeKey) : comparison :=
  match nk_version k1 ?= nk_version k2 with
  | Eq => NibblePath_compare (nibble_path k1) (nibble_path k2)
  | c => c
  end.

(** A run of [push] calls starting from a path; stops at the first
    exception. *)
Fixpoint push_all (p : NibblePath) (nibbles : list Z) : option NibblePath :=
  match nibbles with
  | [] => Some p
  | n :: rest =>
      match push p n with
      | None => None
      | Some p' => push_all p' rest
      end
  end.

Definition empty_path : NibblePath := mkNibblePath [] 0.

(** The class invariant of [NibblePath]: the count fits [size_t], the
    vector holds one byte per started pair of nibbles, and the unused low
    nibble of an odd-length path is zero. *)
Definition wf_path (p : NibblePath) : Prop :=
  0 <= num_nibbles_ p < 2 ^ 64
  /\ Z.of_nat (length (bytes_ p)) = (num_nibbles_ p + 1) / 2
  /\ (num_nibbles_ p mod 2 = 1 ->
      forall b, last (bytes_ p) = Some b -> Z.land (byte.unsigned b) 15 = 0).

(** Byte-level facts about nibbles, checked over all byte values. *)
Definition high_nibble_ok (n : Z) : bool :=
  ((Z.shiftl n 4) mod 256 =? Z.shiftl n 4)
  && (Z.shiftr (Z.shiftl n 4) 4 =? n)
  && (Z.land (Z.shiftl n 4) 15 =? 0).

Definition low_nibble_ok (x n : Z) : bool :=
  negb (Z.land x 15 =? 0)
  || (((Z.lor x (Z.land n 15)) mod 256 =? Z.lor x (Z.land n 15))
      && (Z.land (Z.lor x (Z.land n 15)) 15 =? n)
      && (Z.shiftr (Z.lor x (Z.land n 15)) 4 =? Z.shiftr x 4)
      && (Z.land (Z.lor x (Z.land n 15)) 240 =? x)).

Definition clear_nibble_ok (x : Z) : bool :=
  ((Z.land x 240) mod 256 =? Z.land x 240)
  && (Z.land (Z.land x 240) 15 =? 0)
  && (Z.shiftr (Z.land x 240) 4 =? Z.shiftr x 4)
  && (Z.shiftr x 4 <? 16) && (Z.land x 15 <? 16)
  && (0 <=? Z.shiftr x 4) && (0 <=? Z.land x 15)
  && (negb (Z.land x 15 =? 0) || (Z.land x 240 =? x)).

(** ** node_type.hpp: NodeKey serialization *)

(** [for (i = 0; i < 4; i++) res.push_back((len >> (i * 8)) & 0xFF)] *)
Definition push_u32_le (v : Z) : Bytes :=
  map (fun i : nat => u8 (Z.land (Z.shiftr v (Z.of_nat i * 8)) 255)) (seq 0 4).

(** [len |= size_t(bytes[pos + m]) << (m * 8)] for [m = 0 .. 3]. *)
Definition read_u32_le (bytes : Bytes) (pos : nat) : Z :=
  fold_left
    (fun acc (m : nat) =>
       Z.lor acc (Z.shiftl (byte_at bytes (pos + m)) (Z.of_nat m * 8)) mod 2 ^ 64)
    (seq 0 4) 0.

Definition NodeKey_serialize (k : NodeKey) : Bytes :=
  push_u64_le (nk_version k)
  ++ push_u32_le (nibble_size (nibble_path k))
  ++ bytes_ (nibble_path k).

Definition NodeKey_deserialize (bytes : Bytes) : option NodeKey :=
  if (length bytes <? 12)%nat then None
  else
    let version := read_u64_le bytes 0 in
    let len := read_u32_le bytes 8 in
    if Z.of_nat (length bytes) <? size_t (12 + size_t (len + 1) / 2) then None
    else Some (mkNodeKey version (from_bytes (drop 12 bytes) len)).

(** A key as the C++ types and the 4-byte length field allow it. *)
Definition wf_key (k : NodeKey) : Prop :=
  0 <= nk_version k < 2 ^ 64
  /\ wf_path (nibble_path k)
  /\ num_nibbles_ (nibble_path k) < 2 ^ 32.

(** ** sparse_bitmap.hpp and node_type.hpp: remaining members *)

Definition bitmap_clear (b : SparseBitmap) : SparseBitmap := mkSparseBitmap 0.

Definition is_empty (n : InternalNode) : bool := bitmap_empty (bitmap n).

Definition child_count (n : InternalNode) : nat := total_children (bitmap n).

(** The byte string a node's hash is computed from. *)
Definition hash_input (n : Node) : Bytes :=
  match n with
  | Internal i => XOOK_INTERNAL_NODE_DOMAIN ++ internal_serialize_canonical i
  | Leaf l => XOOK_LEAF_NODE_DOMAIN ++ leaf_serialize_canonical l
  end.

(** ** Runs of cache operations *)

Inductive CacheOp :=
| DoGet (key : NodeKey)
| DoPut (key : NodeKey) (node : Node)
| DoClear.

Definition cache_step (c : TreeCache) (op : CacheOp) : TreeCache :=
  match op with
  | DoGet k => (TreeCache_get c k).2
  | DoPut k n => TreeCache_put c k n
  | DoClear => TreeCache_clear c
  end.

Definition cache_run (ops : list CacheOp) (c : TreeCache) : TreeCache :=
  fold_left cache_step ops c.

(** The representation invariant of [TreeCache]: the recency list holds
    exactly the keys of the map, each once, and the map is within
    capacity. *)
Definition cache_inv (c : TreeCache) : Prop :=
  NoDup (lru_list_ c)
  /\ (forall k, k ∈ lru_list_ c <-> is_Some (cache_map_ c !! k))
  /\ length (lru_list_ c) = size (cache_map_ c)
  /\ (size (cache_map_ c) <= capacity_ c)%nat.

(** ** xook_adapter.hpp: calculate_root_speculative *)

(** The tree engine ([XookTree], not among the sources) as its cache sees
    it: a program that calls the member functions of the [TreeCache] it
    was given a pointer to, any number of times and in any order, and
    finishes with a result.  [get], [put], [clear] and [size] are
    virtual; [capacity] is not. *)
Inductive CacheClient (R : Type) : Type :=
| Finish (r : R)
| CallGet (key : NodeKey) (k : option Node -> CacheClient R)
| CallPut (key : NodeKey) (node : Node) (k : CacheClient R)
| CallClear (k : CacheClient R)
| CallSize (k : nat -> CacheClient R)
| CallCapacity (k : nat -> CacheClient R).
Arguments Finish {R} r.
Arguments CallGet {R} key k.
Arguments CallPut {R} key node k.
Arguments CallClear {R} k.
Arguments CallSize {R} k.
Arguments CallCapacity {R} k.

(** The client running against a [SpeculativeTreeCache]: the virtual
    calls reach the overrides, [capacity] reads the inherited
    [TreeCache(0)] part. *)
Fixpoint run_on_speculative {R} (prog : CacheClient R) (s : SpeculativeTreeCache)
  : R * SpeculativeTreeCache :=
  match prog with
  | Finish r => (r, s)
  | CallGet key k =>
      let '(r, s') := Speculative_get s key in run_on_speculative (k r) s'
  | CallPut key node k => run_on_speculative k (Speculative_put s key node)
  | CallClear k => run_on_speculative k (Speculative_clear s)
  | CallSize k => run_on_speculative (k (Speculative_size s)) s
  | CallCapacity k => run_on_speculative (k 0%nat) s
  end.

(** The warm-up loop: a pair is injected only when both its key bytes and
    its node bytes decode. *)
Definition inject_parent (s : SpeculativeTreeCache) (kv : Bytes * Bytes)
  : SpeculativeTreeCache :=
  match NodeKey_deserialize kv.1, deserialize_node_from_bytes kv.2 with
  | Some node_key, Some node_val => inject_node s node_key node_val
  | _, _ => s
  end.

Definition inject_parents (s : SpeculativeTreeCache) (parent_nodes : list (Bytes * Bytes))
  : SpeculativeTreeCache :=
  fold_left inject_parent parent_nodes s.

(** [calculate_root_speculative] on the adapter's cache [cache_]: the
    result of the engine's [put_value_set] ([None] when it throws) and
    the adapter's cache after the call.  [parent_nodes] is a nullable
    pointer. *)
Definition calculate_root_speculative (blake3 : Bytes -> Hash)
    (put_value_set : list (Hash * option Bytes) -> Z -> Hash -> option Z ->
                     CacheClient (option TreeUpdateBatch))
    (cache_ : TreeCache) (updates : list (Bytes * Hash)) (base_root : Hash)
    (version : Z) (base_version : option Z)
    (parent_nodes : option (list (Bytes * Bytes)))
  : option TreeUpdateBatch * TreeCache :=
  let spec_cache := Speculative_new (Some cache_) in
  let spec_cache :=
    match parent_nodes with
    | Some ps => inject_parents spec_cache ps
    | None => spec_cache
    end in
  let jmt_updates :=
    map (fun kv : Bytes * Hash => (blake3 kv.1, Some kv.2)) updates in
  let '(result, s') :=
    run_on_speculative (put_value_set jmt_updates version base_root base_version)
                       spec_cache in
  (result, match base_cache_ s' with Some c => c | None => cache_ end).

(** ** xook_adapter.hpp: accumulated puts and point reads *)

Definition XookAdapter_puts (blake3 : Bytes -> Hash) {Tree : Type}
    (ps : list (Bytes * Hash * Z)) (a : XookAdapter Tree) : XookAdapter Tree :=
  fold_left (fun a (p : Bytes * Hash * Z) => XookAdapter_put blake3 a p.1.1 p.1.2 p.2)
            ps a.

(** The value most recently put under key hash [h] by a run of puts. *)
Definition last_put (blake3 : Bytes -> Hash) (ps : list (Bytes * Hash * Z)) (h : Hash)
  : option Hash :=
  fold_left
    (fun r (p : Bytes * Hash * Z) => if decide (blake3 p.1.1 = h) then Some p.1.2 else r)
    ps None.

(** The conversion at the end of [XookAdapter::get]: the first 64 bytes
    of the stored value, or the value followed by zeros. *)
Definition bytes_to_hash (result : Bytes) : Hash :=
  if (64 <=? length result)%nat then take 64 result
  else result ++ replicate (64 - length result) Byte.x00.

(** [XookAdapter::get]; [tree_get] is [XookTree::get]. *)
Definition XookAdapter_get (blake3 : Bytes -> Hash) {Tree : Type}
    (tree_get : Tree -> Hash -> Z -> option Bytes)
    (a : XookAdapter Tree) (key : Bytes) (version : Z) : option Hash :=
  match tree_get (tree_ a) (blake3 key) version with
  | None => None
  | Some result => Some (bytes_to_hash result)
  end.

(** [XookAdapter::update_batch_with_precomputed_hashes]; here
    [put_value_set] takes the base root as the [std::optional] the tree
    engine declares. *)
Definition XookAdapter_update_batch (blake3 : Bytes -> Hash) {Tree : Type}
    (put_value_set : Tree -> list (Hash * option Bytes) -> Z -> option Hash ->
                     option Z -> option (TreeUpdateBatch * Tree))
    (a : XookAdapter Tree) (updates : list (Bytes * Hash)) (version : Z)
    (base_root : option Hash) (base_version : option Z)
  : option (TreeUpdateBatch * XookAdapter Tree) :=
  let jmt_updates :=
    map (fun kv : Bytes * Hash => (blake3 kv.1, Some kv.2)) updates in
  match put_value_set (tree_ a) jmt_updates version base_root base_version with
  | None => None
  | Some (result, tree') =>
      Some (result,
            mkXookAdapter tree' (pending_updates_ a) version (new_root_hash result))
  end.

(** Further sample values. *)
Definition path3 : NibblePath := mkNibblePath [Byte.x12; Byte.x30] 3.
Definition key3 : NodeKey := mkNodeKey 7 path3.
Definition ops_a : list (nat * Hash * Z) :=
  [(15%nat, replicate 64 Byte.x22, 7); (0%nat, replicate 64 Byte.x11, 5)].
Definition ops_b : list (nat * Hash * Z) :=
  [(0%nat, replicate 64 Byte.x11, 5); (15%nat, replicate 64 Byte.x22, 7)].

(** * Properties *)

(** ** Little-endian integers *)

Lemma u8_land_255 (z : Z) : u8 (Z.land z 255) = u8 z.
Proof.
  unfold u8. apply byte.unsigned_inj. rewrite !byte.unsigned_of_Z.
  unfold byte.wrap. change 255 with (Z.ones 8).
  rewrite Z.land_ones by lia. apply Z.mod_mod. lia.
Qed.

Lemma push_le_split (n k : nat) (v : Z) :
  map (fun i : nat => u8 (Z.land (Z.shiftr v (Z.of_nat i * 8)) 255)) (seq k n)
  = le_split n (Z.shiftr v (Z.of_nat k * 8)).
Proof.
  revert k. induction n as [|n IH]; intros k; [reflexivity|].
  cbn [seq map]. rewrite u8_land_255, IH.
  change (le_split (S n) ?x) with (byte.of_Z x :: le_split n (Z.shiftr x 8)).
  unfold u8. f_equal. rewrite Z.shiftr_shiftr by lia. f_equal. f_equal. lia.
Qed.

Lemma push_u64_le_split (v : Z) : push_u64_le v = le_split 8 v.
Proof. unfold push_u64_le. rewrite push_le_split. reflexivity. Qed.

Lemma length_push_u64_le (v : Z) : length (push_u64_le v) = 8%nat.
Proof. rewrite push_u64_le_split. apply length_le_split. Qed.

Lemma byte_at_lookup (bytes : Bytes) (i : nat) (b : byte) :
  bytes !! i = Some b -> byte_at bytes i = byte.unsigned b.
Proof. unfold byte_at. intros ->. reflexivity. Qed.

Lemma byte_at_range (bytes : Bytes) (i : nat) : 0 <= byte_at bytes i < 256.
Proof.
  unfold byte_at. destruct (bytes !! i); [apply byte.unsigned_range | lia].
Qed.

(** The decoding loop, stopped after [k] rounds, has combined the first
    [k] bytes at the cursor. *)
Lemma read_le_prefix (bytes : Bytes) (pos k : nat) :
  (k <= 8)%nat -> (pos + k <= length bytes)%nat ->
  fold_left
    (fun acc (bit : nat) =>
       Z.lor acc (Z.shiftl (byte_at bytes (pos + bit)) (Z.of_nat bit * 8)) mod 2 ^ 64)
    (seq 0 k) 0
  = le_combine (take k (drop pos bytes)).
Proof.
  induction k as [|k IH]; intros Hk Hlen; [reflexivity|].
  rewrite seq_S, fold_left_app, IH by lia. cbn [fold_left Nat.add].
  destruct (lookup_lt_is_Some_2 bytes (pos + k)) as [b Hb]; [lia|].
  rewrite (byte_at_lookup _ _ _ Hb).
  assert (Htk : take (S k) (drop pos bytes) = take k (drop pos bytes) ++ [b]).
  { apply take_S_r. rewrite lookup_drop. exact Hb. }
  pose proof (le_combine_bound (take (S k) (drop pos bytes))) as Hbound.
  assert (Hlk : length (take k (drop pos bytes)) = k)
    by (rewrite length_take, length_drop; lia).
  rewrite Htk in Hbound |- *. rewrite le_combine_app, le_combine_1 in Hbound |- *.
  rewrite length_app, Hlk in Hbound. rewrite Hlk.
  apply Z.mod_small.
  assert (2 ^ (8 * Z.of_nat (k + length [b])) <= 2 ^ 64)
    by (apply Z.pow_le_mono_r; simpl length; lia).
  lia.
Qed.

Lemma read_u64_le_combine (bytes : Bytes) (pos : nat) :
  (pos + 8 <= length bytes)%nat ->
  read_u64_le bytes pos = le_combine (take 8 (drop pos bytes)).
Proof. intros H. unfold read_u64_le. apply read_le_prefix; lia. Qed.

Lemma push_read_u64 (bytes : Bytes) (pos : nat) :
  (pos + 8 <= length bytes)%nat ->
  push_u64_le (read_u64_le bytes pos) = take 8 (drop pos bytes).
Proof.
  intros H. rewrite read_u64_le_combine, push_u64_le_split by exact H.
  set (l := take 8 (drop pos bytes)).
  assert (Hl : length l = 8%nat)
    by (unfold l; rewrite length_take, length_drop; lia).
  rewrite <- Hl at 1. apply split_le_combine.
Qed.

Lemma read_push_u64 (pre suf : Bytes) (v : Z) :
  0 <= v < 2 ^ 64 ->
  read_u64_le (pre ++ push_u64_le v ++ suf) (length pre) = v.
Proof.
  intros Hv. rewrite read_u64_le_combine.
  - rewrite drop_app_length.
    rewrite (take_app_length' (push_u64_le v) suf 8 (length_push_u64_le v)).
    rewrite push_u64_le_split, le_combine_split. apply Z.mod_small. exact Hv.
  - rewrite !length_app, length_push_u64_le. lia.
Qed.

(** ** The child loop of the decoder *)

Lemma length_serialize_child (c : ChildInfo) :
  wf_hash (hash c) -> length (serialize_child c) = 72%nat.
Proof.
  unfold serialize_child, wf_hash, HASH_SIZE. intros H.
  rewrite length_app, length_push_u64_le, H. reflexivity.
Qed.

Lemma length_flat_serialize (cs : list ChildInfo) :
  Forall (fun c => wf_hash (hash c)) cs ->
  length (flat_map serialize_child cs) = (72 * length cs)%nat.
Proof.
  induction 1 as [|c cs Hc _ IH]; [reflexivity|].
  cbn [flat_map]. rewrite length_app, IH, length_serialize_child by exact Hc.
  cbn [length]. lia.
Qed.

(** One record read at the cursor re-encodes to the 72 bytes it was read
    from. *)
Lemma serialize_read_child (bytes : Bytes) (pos : nat) :
  (pos + 72 <= length bytes)%nat ->
  serialize_child
    (mkChildInfo (take 64 (drop pos bytes)) (read_u64_le bytes (pos + 64)))
  = take 72 (drop pos bytes).
Proof.
  intros H. unfold serialize_child. cbn [hash version].
  rewrite push_read_u64 by lia.
  rewrite <- (drop_drop bytes 64 pos).
  exact (take_take_drop (drop pos bytes) 64 8).
Qed.

Lemma read_children_sound (bytes : Bytes) (n : nat) :
  forall pos acc pos' cs,
    read_children bytes n pos acc = Some (pos', cs) ->
    pos' = (pos + 72 * n)%nat
    /\ (n = 0%nat \/ pos' <= length bytes)%nat
    /\ exists cs', cs = acc ++ cs' /\ length cs' = n
         /\ Forall wf_child cs'
         /\ flat_map serialize_child cs' = take (72 * n) (drop pos bytes).
Proof.
  induction n as [|n IH]; intros pos acc pos' cs; cbn [read_children].
  - intros [= <- <-]. split; [lia|]. split; [auto|].
    exists []. rewrite app_nil_r. repeat split; auto.
  - destruct (Nat.ltb_spec (length bytes) (pos + 72)) as [|Hlen]; [discriminate|].
    intros Hrec. destruct (IH _ _ _ _ Hrec) as (-> & Hle & cs' & -> & Hl & Hwf & Hflat).
    split; [lia|]. split; [right; destruct Hle; subst; lia|].
    eexists (_ :: cs'). rewrite <- app_assoc. split; [reflexivity|].
    split; [cbn [length]; lia|]. split.
    + constructor; [|exact Hwf]. split; cbn [hash version].
      * unfold wf_hash, HASH_SIZE. rewrite length_take, length_drop. lia.
      * unfold read_u64_le.
        set (f := fun (acc : Z) (bit : nat) => _).
        assert (Hf : forall l a, 0 <= a < 2 ^ 64 -> 0 <= fold_left f l a < 2 ^ 64).
        { induction l as [|x l IHl]; intros a Ha; [exact Ha|].
          cbn [fold_left]. apply IHl. unfold f. apply Z.mod_pos_bound. lia. }
        apply Hf. lia.
    + cbn [flat_map]. rewrite Hflat, serialize_read_child by lia.
      rewrite <- (drop_drop bytes 72 pos).
      replace (72 * S n)%nat with (72 + 72 * n)%nat by lia.
      apply take_take_drop.
Qed.

Lemma read_children_short (bytes : Bytes) (n : nat) :
  forall pos acc,
    n <> 0%nat -> (length bytes < pos + 72 * n)%nat ->
    read_children bytes n pos acc = None.
Proof.
  induction n as [|n IH]; intros pos acc Hn Hlen; [congruence|].
  cbn [read_children].
  destruct (Nat.ltb_spec (length bytes) (pos + 72)) as [|Hge]; [reflexivity|].
  apply IH; lia.
Qed.

Lemma read_children_enough (bytes : Bytes) (n : nat) :
  forall pos acc,
    (pos + 72 * n <= length bytes)%nat ->
    is_Some (read_children bytes n pos acc).
Proof.
  induction n as [|n IH]; intros pos acc Hlen; cbn [read_children]; [eauto|].
  destruct (Nat.ltb_spec (length bytes) (pos + 72)) as [|Hge]; [lia|].
  apply IH. lia.
Qed.

(** Reading back what [serialize_canonical] wrote for the children. *)
Lemma read_children_serialized (cs : list ChildInfo) :
  forall pre suf acc,
    Forall wf_child cs ->
    read_children (pre ++ flat_map serialize_child cs ++ suf)
      (length cs) (length pre) acc
    = Some ((length pre + 72 * length cs)%nat, acc ++ cs).
Proof.
  induction cs as [|c cs IH]; intros pre suf acc Hwf.
  - cbn [length read_children]. rewrite app_nil_r. f_equal. f_equal. lia.
  - apply Forall_cons_1 in Hwf as [[Hh Hv] Hwf].
    cbn [length read_children flat_map].
    assert (Hc : length (serialize_child c) = 72%nat)
      by (apply length_serialize_child; exact Hh).
    destruct (Nat.ltb_spec
      (length (pre ++ (serialize_child c ++ flat_map serialize_child cs) ++ suf))
      (length pre + 72)) as [Hlt|_].
    { rewrite !length_app, Hc in Hlt. lia. }
    assert (Hhash : take 64 (drop (length pre)
        (pre ++ (serialize_child c ++ flat_map serialize_child cs) ++ suf)) = hash c).
    { rewrite drop_app_length. unfold serialize_child. rewrite <- !app_assoc.
      apply take_app_length'. symmetry. exact Hh. }
    assert (Hver : read_u64_le
        (pre ++ (serialize_child c ++ flat_map serialize_child cs) ++ suf)
        (length pre + 64) = version c).
    { unfold serialize_child. rewrite <- !app_assoc.
      rewrite (app_assoc pre (hash c)).
      replace (length pre + 64)%nat with (length (pre ++ hash c))
        by (rewrite length_app, Hh; reflexivity).
      apply read_push_u64. exact Hv. }
    rewrite Hhash, Hver.
    replace (mkChildInfo (hash c) (version c)) with c by (destruct c; reflexivity).
    replace (pre ++ (serialize_child c ++ flat_map serialize_child cs) ++ suf)
      with ((pre ++ serialize_child c) ++ flat_map serialize_child cs ++ suf)
      by (rewrite <- !app_assoc; reflexivity).
    replace (length pre + 72)%nat with (length (pre ++ serialize_child c))
      by (rewrite length_app, Hc; reflexivity).
    rewrite IH by exact Hwf. rewrite length_app, Hc, <- app_assoc.
    f_equal. f_equal. lia.
Qed.

(** ** The two mask bytes *)

Lemma unsigned_u8 (z : Z) : byte.unsigned (u8 z) = z mod 256.
Proof. unfold u8. rewrite byte.unsigned_of_Z. reflexivity. Qed.

Lemma le_combine_pair (lo hi : byte) :
  le_combine [lo; hi] = Z.lor (byte.unsigned lo) (Z.shiftl (byte.unsigned hi) 8).
Proof.
  change [lo; hi] with ([lo] ++ [hi]).
  rewrite le_combine_app, !le_combine_1. reflexivity.
Qed.

Lemma le_split_pair (m : Z) :
  le_split 2 m = [u8 (Z.land m 255); u8 (Z.land (Z.shiftr m 8) 255)].
Proof. rewrite !u8_land_255. reflexivity. Qed.

Lemma mask_of_bytes_range (lo hi : byte) :
  wf_mask (Z.lor (byte.unsigned lo) (Z.shiftl (byte.unsigned hi) 8)).
Proof.
  rewrite <- le_combine_pair. exact (le_combine_bound [lo; hi]).
Qed.

Lemma u16_small (m : Z) : wf_mask m -> u16 m = m.
Proof. intros H. apply Z.mod_small. exact H. Qed.

Lemma wf_mask_of (lo hi : byte) : wf_mask (mask_of lo hi).
Proof.
  unfold mask_of. rewrite u16_small; apply mask_of_bytes_range.
Qed.

Lemma mask_bytes_decode (m : Z) :
  wf_mask m ->
  u16 (Z.lor (byte.unsigned (u8 (Z.land m 255)))
             (Z.shiftl (byte.unsigned (u8 (Z.land (Z.shiftr m 8) 255))) 8)) = m.
Proof.
  intros Hm. rewrite <- le_combine_pair, <- le_split_pair, le_combine_split.
  unfold u16. rewrite Z.mod_mod by lia. apply Z.mod_small. exact Hm.
Qed.

Lemma mask_bytes_encode (lo hi : byte) :
  u8 (Z.land (mask_of lo hi) 255) = lo
  /\ u8 (Z.land (Z.shiftr (mask_of lo hi) 8) 255) = hi.
Proof.
  unfold mask_of. rewrite u16_small by apply mask_of_bytes_range.
  rewrite <- le_combine_pair.
  pose proof (split_le_combine [lo; hi]) as H. cbn [length] in H.
  rewrite le_split_pair in H. injection H as H1 H2. split; assumption.
Qed.

(** ** The decoder, case by case *)

Lemma deserialize_internal_eq (t lo hi : byte) (rest : Bytes) :
  byte.unsigned t = 1 ->
  deserialize_node_from_bytes (t :: lo :: hi :: rest)
  = match read_children (t :: lo :: hi :: rest) (popcount (mask_of lo hi)) 3 [] with
    | None => None
    | Some (pos, cs) =>
        if negb (pos =? length (t :: lo :: hi :: rest))%nat then None
        else Some (Internal (mkInternalNode (mkSparseBitmap (mask_of lo hi)) cs))
    end.
Proof.
  intros Ht. unfold deserialize_node_from_bytes, byte_at.
  cbn [lookup list_lookup]. rewrite Ht. reflexivity.
Qed.

Lemma deserialize_leaf_eq (t : byte) (rest : Bytes) :
  byte.unsigned t = 2 ->
  deserialize_node_from_bytes (t :: rest)
  = if negb (length (t :: rest) =? 129)%nat then None
    else Some (Leaf (mkLeafNode (take 64 rest) (take 64 (drop 64 rest)))).
Proof.
  intros Ht. unfold deserialize_node_from_bytes, byte_at.
  cbn [lookup list_lookup]. rewrite Ht. reflexivity.
Qed.

Lemma deserialize_unknown_tag (t : byte) (rest : Bytes) :
  byte.unsigned t <> 1 -> byte.unsigned t <> 2 ->
  deserialize_node_from_bytes (t :: rest) = None.
Proof.
  intros H1 H2. unfold deserialize_node_from_bytes, byte_at.
  cbn [lookup list_lookup].
  destruct (Z.eqb_spec (byte.unsigned t) 1); [contradiction|].
  destruct (Z.eqb_spec (byte.unsigned t) 2); [contradiction|]. reflexivity.
Qed.

Lemma tag_cases (t : byte) :
  {byte.unsigned t = 1 /\ t = u8 1} + {byte.unsigned t = 2 /\ t = u8 2}
  + {byte.unsigned t <> 1 /\ byte.unsigned t <> 2}.
Proof.
  destruct (Z.eq_dec (byte.unsigned t) 1) as [H1|H1].
  { left; left. split; [exact H1|]. apply byte.unsigned_inj. rewrite H1. reflexivity. }
  destruct (Z.eq_dec (byte.unsigned t) 2) as [H2|H2].
  { left; right. split; [exact H2|]. apply byte.unsigned_inj. rewrite H2. reflexivity. }
  right. split; assumption.
Qed.

(** A successful decode of an internal node pins the length down. *)
Lemma deserialize_internal_length (t lo hi : byte) (rest : Bytes) :
  byte.unsigned t = 1 ->
  (is_Some (deserialize_node_from_bytes (t :: lo :: hi :: rest))
   <-> length (t :: lo :: hi :: rest) = (1 + 2 + popcount (mask_of lo hi) * (64 + 8))%nat).
Proof.
  intros Ht. rewrite deserialize_internal_eq by exact Ht.
  set (b := t :: lo :: hi :: rest). set (k := popcount (mask_of lo hi)).
  split.
  - destruct (read_children b k 3 []) as [[pos cs]|] eqn:Hrd; [|intros [? [=]]].
    destruct (Nat.eqb_spec pos (length b)) as [Heq|]; cbn [negb]; [|intros [? [=]]].
    intros _. apply read_children_sound in Hrd as (-> & _). lia.
  - intros Hlen.
    destruct (read_children_enough b k 3 []) as [[pos cs] Hrd]; [lia|].
    rewrite Hrd. apply read_children_sound in Hrd as (-> & _).
    destruct (Nat.eqb_spec (3 + 72 * k) (length b)) as [|Hne]; [cbn; eauto|lia].
Qed.

Lemma deserialize_short_internal (t : byte) (rest : Bytes) :
  byte.unsigned t = 1 -> (length rest < 2)%nat ->
  deserialize_node_from_bytes (t :: rest) = None.
Proof.
  intros Ht Hlen. unfold deserialize_node_from_bytes, byte_at.
  cbn [lookup list_lookup]. rewrite Ht. cbn [Z.eqb Pos.eqb].
  destruct (Nat.ltb_spec (length (t :: rest)) 3) as [|Hge]; [reflexivity|].
  cbn [length] in Hge. lia.
Qed.

(** Every accepted buffer has one of the canonical lengths. *)
Lemma deserialize_length (b : Bytes) :
  is_Some (deserialize_node_from_bytes b) ->
  length b = 129%nat \/ exists k, length b = (3 + 72 * k)%nat.
Proof.
  destruct b as [|t rest]; [intros [? [=]]|].
  destruct (tag_cases t) as [[[Ht _]|[Ht _]]|[H1 H2]].
  - destruct rest as [|lo [|hi rest]];
      try (rewrite deserialize_short_internal by (cbn [length]; first [exact Ht|lia]);
           intros [? [=]]).
    intros H. apply deserialize_internal_length in H; [|exact Ht].
    right. exists (popcount (mask_of lo hi)). rewrite H. lia.
  - rewrite deserialize_leaf_eq by exact Ht.
    destruct (Nat.eqb_spec (length (t :: rest)) 129) as [->|]; [auto|].
    intros [? [=]].
  - rewrite deserialize_unknown_tag by assumption. intros [? [=]].
Qed.

(** What is accepted is the framed encoding of the node returned. *)
Lemma deserialize_serialize (b : Bytes) (n : Node) :
  deserialize_node_from_bytes b = Some n ->
  serialize_node_with_prefix n = b /\ wf_node n.
Proof.
  destruct b as [|t rest]; [discriminate|].
  destruct (tag_cases t) as [[[Ht Hu]|[Ht Hu]]|[H1 H2]].
  - destruct rest as [|lo [|hi rest]];
      try (rewrite deserialize_short_internal by (cbn [length]; first [exact Ht|lia]);
           discriminate).
    rewrite deserialize_internal_eq by exact Ht.
    destruct (read_children _ _ 3 []) as [[pos cs]|] eqn:Hrd; [|discriminate].
    destruct (Nat.eqb_spec pos (length (t :: lo :: hi :: rest))) as [Heq|];
      cbn [negb]; [|discriminate].
    intros [= <-].
    apply read_children_sound in Hrd
      as (Hpos & _ & cs' & Hcs & Hlen & Hwf & Hflat).
    cbn [app] in Hcs. subst cs' pos.
    cbn [serialize_node_with_prefix wf_node]. split.
    + unfold internal_serialize_canonical, raw_mask. cbn [bitmap children mask_].
      destruct (mask_bytes_encode lo hi) as [-> ->].
      rewrite Hflat, <- Hu. f_equal. f_equal. f_equal.
      cbn [drop]. apply take_ge. cbn [length] in Heq. lia.
    + unfold wf_internal. cbn [bitmap children mask_].
      split; [apply wf_mask_of|]. split; assumption.
  - rewrite deserialize_leaf_eq by exact Ht.
    destruct (Nat.eqb_spec (length (t :: rest)) 129) as [Hlen|];
      cbn [negb]; [|discriminate].
    intros [= <-]. cbn [length] in Hlen.
    cbn [serialize_node_with_prefix wf_node]. split.
    + unfold leaf_serialize_canonical. cbn [account_key value_hash].
      rewrite <- Hu. f_equal.
      rewrite (take_take_drop rest 64 64). apply take_ge. lia.
    + unfold wf_leaf, wf_hash, HASH_SIZE. cbn [account_key value_hash].
      rewrite !length_take, length_drop. lia.
  - rewrite deserialize_unknown_tag by assumption. discriminate.
Qed.

(** C1. Strict framing.  [deserialize_node_from_bytes] returns a node only
    for the exact framed encoding of that node: a framed Leaf has exactly
    1 + 2*64 bytes, a framed Internal exactly 1 + 2 + popcount(mask)*(64+8)
    bytes; the empty input, an unknown kind tag, and any buffer one byte
    longer or one byte shorter than an accepted one (so one appended byte,
    one dropped trailing byte, or one byte removed anywhere) give no node. *)
Theorem deserialize_strict_framing (b : Bytes) :
  (forall n, deserialize_node_from_bytes b = Some n ->
             serialize_node_with_prefix n = b /\ wf_node n)
  /\ (b = [] -> deserialize_node_from_bytes b = None)
  /\ (forall t rest, b = t :: rest ->
        byte.unsigned t <> 1 -> byte.unsigned t <> 2 ->
        deserialize_node_from_bytes b = None)
  /\ (forall rest, b = u8 2 :: rest ->
        (is_Some (deserialize_node_from_bytes b)
         <-> length b = (1 + 2 * HASH_SIZE)%nat))
  /\ (forall rest, b = u8 1 :: rest -> (length rest < 2)%nat ->
        deserialize_node_from_bytes b = None)
  /\ (forall lo hi rest, b = u8 1 :: lo :: hi :: rest ->
        (is_Some (deserialize_node_from_bytes b)
         <-> length b = (1 + 2 + popcount (mask_of lo hi) * (HASH_SIZE + 8))%nat))
  /\ (is_Some (deserialize_node_from_bytes b) ->
        (forall x, deserialize_node_from_bytes (b ++ [x]) = None)
        /\ deserialize_node_from_bytes (removelast b) = None
        /\ (forall i, (i < length b)%nat ->
              deserialize_node_from_bytes (delete i b) = None)
        /\ (forall b', (length b' = S (length b) \/ S (length b') = length b) ->
              deserialize_node_from_bytes b' = None)).
Proof.
  assert (Hoff : forall b1 b2 : Bytes,
             is_Some (deserialize_node_from_bytes b1) ->
             (length b2 = S (length b1) \/ S (length b2) = length b1) ->
             deserialize_node_from_bytes b2 = None).
  { intros b1 b2 H1 Hlen.
    destruct (deserialize_node_from_bytes b2) as [n|] eqn:H2; [exfalso|reflexivity].
    apply deserialize_length in H1.
    assert (H2' : is_Some (deserialize_node_from_bytes b2)) by eauto.
    apply deserialize_length in H2'.
    destruct H1 as [H1|[k1 H1]], H2' as [H2'|[k2 H2']]; lia. }
  repeat split.
  - apply deserialize_serialize in H. apply H.
  - apply deserialize_serialize in H. apply H.
  - intros ->. reflexivity.
  - intros t rest -> H1 H2. apply deserialize_unknown_tag; assumption.
  - subst b. rewrite deserialize_leaf_eq by reflexivity.
    destruct (Nat.eqb_spec (length (u8 2 :: rest)) 129) as [->|];
      [reflexivity|intros [? [=]]].
  - subst b. rewrite deserialize_leaf_eq by reflexivity. intros Hlen.
    destruct (Nat.eqb_spec (length (u8 2 :: rest)) 129) as [|Hne];
      [cbn; eauto|]. unfold HASH_SIZE in Hlen. lia.
  - intros rest -> Hlen. apply deserialize_short_internal; [reflexivity|exact Hlen].
  - subst b. apply deserialize_internal_length. reflexivity.
  - subst b. apply deserialize_internal_length. reflexivity.
  - intros x. apply (Hoff b); [assumption|]. rewrite length_app. cbn [length]. lia.
  - apply (Hoff b); [assumption|]. right.
    destruct b as [|t rest] using rev_ind; [destruct H as [? [=]]|].
    rewrite removelast_last, length_app. cbn [length]. lia.
  - intros i Hi. apply (Hoff b); [assumption|]. right.
    rewrite length_delete by (apply lookup_lt_is_Some_2; exact Hi). lia.
  - intros b' Hlen. apply (Hoff b); assumption.
Qed.

Lemma deserialize_strict_framing_witness :
  let b := serialize_node_with_prefix (Leaf tleaf) in
  is_Some (deserialize_node_from_bytes b)
  /\ deserialize_node_from_bytes (b ++ [Byte.xcc]) = None
  /\ deserialize_node_from_bytes (removelast b) = None.
Proof.
  intros b.
  assert (H : is_Some (deserialize_node_from_bytes b)) by (vm_compute; eauto).
  split; [exact H|].
  destruct (proj2 (proj2 (proj2 (proj2 (proj2 (proj2
              (deserialize_strict_framing b)))))) H) as (Ha & Hr & _).
  split; [apply Ha|exact Hr].
Defined.

(** C2. Round trip.  Deserializing the framed encoding of a node gives the
    node back, for every leaf and every internal node whose children list
    holds one descriptor per set mask bit. *)
Theorem deserialize_serialize_roundtrip (N : Node) :
  wf_node N ->
  deserialize_node_from_bytes (serialize_node_with_prefix N) = Some N.
Proof.
  destruct N as [[[m] cs]|[k v]]; cbn [wf_node serialize_node_with_prefix].
  - intros (Hm & Hlen & Hwf). cbn [bitmap children mask_] in *.
    unfold internal_serialize_canonical, raw_mask. cbn [bitmap children mask_].
    rewrite deserialize_internal_eq by reflexivity.
    assert (Hmask : mask_of (u8 (Z.land m 255)) (u8 (Z.land (Z.shiftr m 8) 255)) = m)
      by (apply mask_bytes_decode; exact Hm).
    rewrite Hmask, <- Hlen.
    set (pre := [u8 1; u8 (Z.land m 255); u8 (Z.land (Z.shiftr m 8) 255)]).
    change (u8 1 :: _ :: _ :: flat_map serialize_child cs)
      with (pre ++ flat_map serialize_child cs).
    rewrite <- (app_nil_r (flat_map serialize_child cs)).
    change 3%nat with (length pre) at 1.
    rewrite read_children_serialized by exact Hwf.
    rewrite app_nil_r, length_app, length_flat_serialize
      by (eapply Forall_impl; [exact Hwf|intros ? []; assumption]).
    rewrite Nat.eqb_refl. reflexivity.
  - intros [Hk Hv]. unfold wf_hash, HASH_SIZE in *. cbn [account_key value_hash] in *.
    rewrite deserialize_leaf_eq by reflexivity.
    unfold leaf_serialize_canonical. cbn [account_key value_hash length].
    rewrite length_app, Hk, Hv. cbn [Nat.add Nat.eqb negb].
    rewrite (take_app_length' k v 64 (eq_sym Hk)).
    rewrite (drop_app_length' k v 64 (eq_sym Hk)).
    rewrite (take_ge v 64) by lia. reflexivity.
Qed.

(** ** The presence mask and dense indices *)

Lemma bitmap_exists_testbit (b : SparseBitmap) (n : nat) :
  bitmap_exists b n = Z.testbit (mask_ b) (Z.of_nat n).
Proof.
  unfold bitmap_exists. change 1 with (Z.ones 1) at 1.
  rewrite Z.land_ones by lia. change (2 ^ 1) with 2.
  rewrite <- Z.bit0_mod, Z.shiftr_spec by lia. rewrite Z.add_0_l.
  destruct (Z.testbit (mask_ b) (Z.of_nat n)); reflexivity.
Qed.

Lemma testbit_u16 (z : Z) (i : nat) :
  Z.testbit (u16 z) (Z.of_nat i) = Z.testbit z (Z.of_nat i) && (i <? 16)%nat.
Proof.
  unfold u16. rewrite <- Z.land_ones, Z.land_spec, Z.testbit_ones by lia.
  f_equal. destruct (Nat.ltb_spec i 16); lia.
Qed.

Lemma testbit_ones_nat (n i : nat) :
  Z.testbit (Z.shiftl 1 (Z.of_nat n) - 1) (Z.of_nat i) = (i <? n)%nat.
Proof.
  rewrite Z.shiftl_1_l, Z.sub_1_r, <- Z.ones_equiv, Z.testbit_ones by lia.
  destruct (Nat.ltb_spec i n); lia.
Qed.

Lemma testbit_pow2_nat (n i : nat) :
  Z.testbit (Z.shiftl 1 (Z.of_nat n)) (Z.of_nat i) = (i =? n)%nat.
Proof.
  rewrite Z.shiftl_1_l.
  destruct (Nat.eqb_spec i n) as [->|Hne].
  - apply Z.pow2_bits_true. lia.
  - apply Z.pow2_bits_false. lia.
Qed.

Lemma count_bits_ext (x y : Z) (n : nat) :
  (forall i, (i < n)%nat -> Z.testbit x (Z.of_nat i) = Z.testbit y (Z.of_nat i)) ->
  count_bits x n = count_bits y n.
Proof.
  induction n as [|n IH]; intros H; [reflexivity|].
  cbn [count_bits]. rewrite IH, H by (intros; auto with lia). reflexivity.
Qed.

Lemma count_bits_mono (x : Z) (j k : nat) :
  (j <= k)%nat -> (count_bits x j <= count_bits x k)%nat.
Proof.
  induction 1 as [|k _ IH]; [lia|]. cbn [count_bits]. lia.
Qed.

Lemma count_bits_le (x : Z) (n : nat) : (count_bits x n <= n)%nat.
Proof.
  induction n as [|n IH]; [cbn; lia|]. cbn [count_bits].
  destruct (Z.testbit x (Z.of_nat n)); lia.
Qed.

Lemma count_bits_present (x : Z) (j k : nat) :
  (j < k)%nat -> Z.testbit x (Z.of_nat j) = true ->
  (count_bits x j < count_bits x k)%nat.
Proof.
  intros Hjk Hbit.
  pose proof (count_bits_mono x (S j) k Hjk) as H.
  cbn [count_bits] in H. rewrite Hbit in H. lia.
Qed.

(** Bits of [x] below [n], counted up to [k]. *)
Lemma count_bits_below (x : Z) (n k : nat) :
  count_bits (u16 (Z.land x (u16 (Z.shiftl 1 (Z.of_nat n) - 1)))) k
  = count_bits x (Nat.min k (Nat.min n 16)).
Proof.
  induction k as [|k IH]; [reflexivity|].
  cbn [count_bits]. rewrite IH.
  rewrite testbit_u16, Z.land_spec, testbit_u16, testbit_ones_nat.
  destruct (Nat.ltb_spec k n), (Nat.ltb_spec k 16);
    rewrite ?andb_true_r, ?andb_false_r; cbn [andb].
  - replace (Nat.min (S k) (Nat.min n 16)) with (S k) by lia.
    replace (Nat.min k (Nat.min n 16)) with k by lia. reflexivity.
  - replace (Nat.min (S k) (Nat.min n 16)) with (Nat.min k (Nat.min n 16)) by lia. lia.
  - replace (Nat.min (S k) (Nat.min n 16)) with (Nat.min k (Nat.min n 16)) by lia. lia.
  - replace (Nat.min (S k) (Nat.min n 16)) with (Nat.min k (Nat.min n 16)) by lia. lia.
Qed.

(** [get_index] is the number of set bits strictly below the nibble. *)
Lemma get_index_count (b : SparseBitmap) (n : nat) :
  (n <= 16)%nat -> get_index b n = count_bits (mask_ b) n.
Proof.
  intros Hn. unfold get_index, popcount. rewrite count_bits_below.
  f_equal. lia.
Qed.

Lemma get_index_le (b : SparseBitmap) (n : nat) :
  (n <= 16)%nat -> (get_index b n <= total_children b)%nat.
Proof.
  intros Hn. rewrite get_index_count by exact Hn.
  apply count_bits_mono. exact Hn.
Qed.

Lemma get_index_lt (b : SparseBitmap) (n : nat) :
  (n < 16)%nat -> bitmap_exists b n = true ->
  (get_index b n < total_children b)%nat.
Proof.
  intros Hn Hbit. rewrite get_index_count by lia.
  rewrite bitmap_exists_testbit in Hbit.
  apply count_bits_present; assumption.
Qed.

Lemma bitmap_set_testbit (b : SparseBitmap) (n i : nat) :
  (i < 16)%nat ->
  Z.testbit (mask_ (bitmap_set b n)) (Z.of_nat i)
  = Z.testbit (mask_ b) (Z.of_nat i) || (i =? n)%nat.
Proof.
  intros Hi. unfold bitmap_set. cbn [mask_].
  rewrite testbit_u16, Z.lor_spec, testbit_pow2_nat.
  destruct (Nat.ltb_spec i 16); [|lia]. apply andb_true_r.
Qed.

Lemma bitmap_set_wf (b : SparseBitmap) (n : nat) : wf_mask (mask_ (bitmap_set b n)).
Proof. unfold bitmap_set, wf_mask, u16. cbn [mask_]. apply Z.mod_pos_bound. lia. Qed.

(** Setting a fresh bit shifts the dense index of every higher nibble by
    one and leaves the lower ones alone. *)
Lemma count_bits_set (b : SparseBitmap) (n k : nat) :
  (n < 16)%nat -> (k <= 16)%nat ->
  Z.testbit (mask_ b) (Z.of_nat n) = false ->
  count_bits (mask_ (bitmap_set b n)) k
  = (count_bits (mask_ b) k + if (n <? k)%nat then 1 else 0)%nat.
Proof.
  intros Hn Hk Hfree. induction k as [|k IH]; [reflexivity|].
  cbn [count_bits]. rewrite IH, bitmap_set_testbit by lia.
  destruct (Nat.eqb_spec k n) as [->|Hne].
  - rewrite Hfree. cbn [orb].
    destruct (Nat.ltb_spec n n), (Nat.ltb_spec n (S n)); lia.
  - rewrite orb_false_r.
    destruct (Nat.ltb_spec n k), (Nat.ltb_spec n (S k)); lia.
Qed.

(** With one descriptor per set bit, [get_child] on a present nibble
    reads inside the dense list. *)
Lemma get_child_in_range (node : InternalNode) (n : nat) :
  length (children node) = popcount (mask_ (bitmap node)) ->
  (n < 16)%nat -> bitmap_exists (bitmap node) n = true ->
  is_Some (get_child node n).
Proof.
  intros Hlen Hn Hbit. unfold get_child. rewrite Hbit. cbn [negb].
  apply lookup_lt_is_Some_2. rewrite Hlen.
  apply (get_index_lt (bitmap node) n Hn Hbit).
Qed.

(** ** The sparse child map *)

Lemma omap_ext_in {A B} (f g : A -> option B) (l : list A) :
  (forall x, x ∈ l -> f x = g x) -> omap f l = omap g l.
Proof.
  induction l as [|x l IH]; intros H; [reflexivity|].
  cbn [omap list_omap]. rewrite (H x) by left.
  rewrite IH by (intros; apply H; right; assumption). reflexivity.
Qed.

Lemma seq_split3 (n k : nat) :
  (n < k)%nat -> seq 0 k = seq 0 n ++ n :: seq (S n) (k - S n).
Proof.
  intros H. replace k with (n + S (k - S n))%nat at 1 by lia.
  rewrite seq_app. reflexivity.
Qed.

Lemma length_omap_count (m : Z) (f : nat -> option ChildInfo) (n : nat) :
  (forall i, (i < n)%nat -> Z.testbit m (Z.of_nat i) = true <-> is_Some (f i)) ->
  length (omap f (seq 0 n)) = count_bits m n.
Proof.
  induction n as [|n IH]; intros H; [reflexivity|].
  rewrite seq_S, omap_app, length_app, IH by (intros; apply H; lia).
  cbn [count_bits Nat.add omap list_omap]. f_equal.
  specialize (H n (Nat.lt_succ_diag_r n)).
  destruct (f n) as [c|], (Z.testbit m (Z.of_nat n)); try reflexivity.
  - destruct H as [_ H]. discriminate H. eauto.
  - destruct H as [H _]. destruct H as [? [=]]. reflexivity.
Qed.

Lemma represents_length (node : InternalNode) f :
  represents node f -> length (children node) = popcount (mask_ (bitmap node)).
Proof.
  intros (_ & Hbits & ->). apply length_omap_count. exact Hbits.
Qed.

Lemma represents_lookup (node : InternalNode) f (n : nat) :
  represents node f -> (n < 16)%nat ->
  children node !! count_bits (mask_ (bitmap node)) n
  = match f n with Some c => Some c | None => children node !! count_bits (mask_ (bitmap node)) n end.
Proof.
  intros (_ & Hbits & Hcs) Hn. destruct (f n) as [c|] eqn:Hf; [|reflexivity].
  rewrite Hcs, (seq_split3 n 16 Hn), omap_app.
  rewrite <- (length_omap_count (mask_ (bitmap node)) f n)
    by (intros; apply Hbits; lia).
  cbn [omap list_omap]. rewrite Hf. apply list_lookup_middle. reflexivity.
Qed.

Lemma represents_get_child (node : InternalNode) f (n : nat) :
  represents node f -> (n < 16)%nat -> get_child node n = f n.
Proof.
  intros Hrep Hn. unfold get_child.
  rewrite bitmap_exists_testbit, get_index_count by lia.
  pose proof (represents_lookup node f n Hrep Hn) as Hlook.
  destruct Hrep as (Hwf & Hbits & Hcs).
  destruct (Z.testbit (mask_ (bitmap node)) (Z.of_nat n)) eqn:Hbit; cbn [negb].
  - rewrite Hlook.
    destruct (proj1 (Hbits n Hn) Hbit) as [c ->]. reflexivity.
  - destruct (f n) as [c|] eqn:Hf; [|reflexivity].
    rewrite (proj2 (Hbits n Hn)) in Hbit by eauto. discriminate.
Qed.

Lemma represents_empty : represents empty_internal (fun _ => None).
Proof.
  split; [unfold wf_mask; cbn; lia|]. split; [|reflexivity].
  intros i _. cbn [empty_internal bitmap mask_]. rewrite Z.testbit_0_l.
  split; [discriminate|intros [? [=]]].
Qed.

(** [set_child] on a node that stores [f] gives a node that stores [f]
    updated at the nibble. *)
Lemma represents_set_child (node : InternalNode) f (n : nat) (h : Hash) (v : Z) :
  represents node f -> (n < 16)%nat ->
  represents (set_child node n h v)
    (fun i => if (i =? n)%nat then Some (mkChildInfo h v) else f i).
Proof.
  intros (Hwf & Hbits & Hcs) Hn.
  set (f' := fun i => if (i =? n)%nat then Some (mkChildInfo h v) else f i).
  assert (Hlow : omap f' (seq 0 n) = omap f (seq 0 n)).
  { apply omap_ext_in. intros x Hx%list_elem_of_In%in_seq. unfold f'.
    destruct (Nat.eqb_spec x n); [lia|reflexivity]. }
  assert (Hhigh : omap f' (seq (S n) (16 - S n)) = omap f (seq (S n) (16 - S n))).
  { apply omap_ext_in. intros x Hx%list_elem_of_In%in_seq. unfold f'.
    destruct (Nat.eqb_spec x n); [lia|reflexivity]. }
  assert (Hat : omap f' [n] = [mkChildInfo h v]).
  { cbn [omap list_omap]. unfold f'. rewrite Nat.eqb_refl. reflexivity. }
  assert (Hlen : length (omap f (seq 0 n)) = count_bits (mask_ (bitmap node)) n)
    by (apply length_omap_count; intros; apply Hbits; lia).
  assert (Hsplit : omap f' (seq 0 16)
                   = omap f (seq 0 n) ++ mkChildInfo h v :: omap f (seq (S n) (16 - S n))).
  { rewrite (seq_split3 n 16 Hn), omap_app, Hlow.
    change (n :: seq (S n) (16 - S n)) with ([n] ++ seq (S n) (16 - S n)).
    rewrite omap_app, Hat, Hhigh. reflexivity. }
  unfold set_child. rewrite bitmap_exists_testbit.
  destruct (Z.testbit (mask_ (bitmap node)) (Z.of_nat n)) eqn:Hbit; cbn [negb].
  - (* replace in place *)
    split; [exact Hwf|]. cbn [bitmap children]. split.
    + intros i Hi. unfold f'. destruct (Nat.eqb_spec i n) as [->|].
      * split; [eauto|intros _; exact Hbit].
      * apply Hbits. exact Hi.
    + rewrite Hsplit, get_index_count, <- Hlen, Hcs by lia.
      destruct (proj1 (Hbits n Hn) Hbit) as [c Hc].
      rewrite (seq_split3 n 16 Hn), omap_app. cbn [omap list_omap]. rewrite Hc.
      rewrite <- (Nat.add_0_r (length (omap f (seq 0 n)))) at 1.
      rewrite insert_app_r. reflexivity.
  - (* insert a fresh descriptor *)
    assert (Hnone : f n = None).
    { destruct (f n) eqn:Hf; [|reflexivity].
      rewrite (proj2 (Hbits n Hn)) in Hbit by eauto. discriminate. }
    split; [apply bitmap_set_wf|]. cbn [bitmap children]. split.
    + intros i Hi. rewrite bitmap_set_testbit by exact Hi. unfold f'.
      destruct (Nat.eqb_spec i n) as [->|].
      * rewrite orb_true_r. split; eauto.
      * rewrite orb_false_r. apply Hbits. exact Hi.
    + rewrite Hsplit, get_index_count, count_bits_set by (assumption || lia).
      rewrite Nat.ltb_irrefl, Nat.add_0_r, <- Hlen, Hcs.
      rewrite (seq_split3 n 16 Hn), omap_app. cbn [omap list_omap]. rewrite Hnone.
      rewrite take_app_length, drop_app_length. reflexivity.
Qed.

Lemma last_set_snoc ops n h v (i : nat) :
  last_set (ops ++ [(n, h, v)]) i
  = if (i =? n)%nat then Some (mkChildInfo h v) else last_set ops i.
Proof.
  unfold last_set. rewrite fold_left_app. cbn [fold_left].
  rewrite (Nat.eqb_sym n i). reflexivity.
Qed.

(** Every node built by [set_child] calls stores the map "last descriptor
    set for each nibble". *)
Lemma set_children_represents (ops : list (nat * Hash * Z)) :
  Forall (fun op => (op.1.1 < 16)%nat) ops ->
  represents (set_children ops empty_internal) (last_set ops).
Proof.
  induction ops as [|[[n h] v] ops IH] using rev_ind; intros Hops.
  - exact represents_empty.
  - apply Forall_app in Hops as [Hops Hop].
    apply Forall_cons_1 in Hop as [Hn _]. cbn [fst] in Hn.
    unfold set_children. rewrite fold_left_app. cbn [fold_left apply_set].
    destruct (IH Hops) as (Hwf & Hbits & Hcs).
    destruct (represents_set_child _ _ n h v (conj Hwf (conj Hbits Hcs)) Hn)
      as (Hwf' & Hbits' & Hcs').
    split; [exact Hwf'|]. split.
    + intros i Hi. rewrite last_set_snoc. apply Hbits'. exact Hi.
    + fold (set_children ops empty_internal). rewrite Hcs'.
      apply omap_ext_in. intros i _. rewrite last_set_snoc. reflexivity.
Qed.

(** The spec's index formula, without the 16-bit truncations of the code. *)
Lemma popcount_below (m : Z) (n : nat) :
  (n <= 16)%nat ->
  popcount (Z.land m (Z.shiftl 1 (Z.of_nat n) - 1)) = count_bits m n.
Proof.
  intros Hn.
  transitivity (get_index (mkSparseBitmap m) n); [|exact (get_index_count _ n Hn)].
  unfold get_index, popcount. cbn [mask_]. apply count_bits_ext. intros i Hi.
  rewrite testbit_u16, !Z.land_spec, testbit_u16.
  destruct (Nat.ltb_spec i 16); [|lia]. rewrite !andb_true_r. reflexivity.
Qed.

(** C5. Sparse child map invariant.  For every internal node reached from
    the empty node by [set_child] calls on nibbles 0..15: the children
    list has exactly popcount(mask) entries; a nibble's mask bit is set
    exactly when it has been set; the descriptor of every present nibble n
    sits at dense index popcount(mask & ((1 << n) - 1)); [get_child n]
    returns the descriptor most recently set for n; and [get_child n] is
    absent for every nibble whose mask bit is clear. *)
Theorem sparse_child_map_invariant (ops : list (nat * Hash * Z)) :
  Forall (fun op => (op.1.1 < 16)%nat) ops ->
  let node := set_children ops empty_internal in
  let mask := raw_mask (bitmap node) in
  length (children node) = popcount mask
  /\ forall n, (n < 16)%nat ->
       (bitmap_exists (bitmap node) n = true <-> is_Some (last_set ops n))
       /\ (bitmap_exists (bitmap node) n = true ->
             is_Some (last_set ops n)
             /\ children node !! popcount (Z.land mask (Z.shiftl 1 (Z.of_nat n) - 1))
                = last_set ops n)
       /\ get_child node n = last_set ops n
       /\ (bitmap_exists (bitmap node) n = false -> get_child node n = None).
Proof.
  intros Hops node mask.
  pose proof (set_children_represents ops Hops) as Hrep. fold node in Hrep.
  split; [exact (represents_length _ _ Hrep)|].
  intros n Hn.
  pose proof (represents_get_child _ _ n Hrep Hn) as Hget.
  pose proof (represents_lookup _ _ n Hrep Hn) as Hlook.
  destruct Hrep as (Hwf & Hbits & Hcs).
  rewrite bitmap_exists_testbit. repeat split.
  - apply Hbits. exact Hn.
  - apply Hbits. exact Hn.
  - apply Hbits; assumption.
  - unfold mask, raw_mask. rewrite popcount_below by lia.
    destruct (proj1 (Hbits n Hn) H) as [c Hc]. rewrite Hlook, Hc. reflexivity.
  - exact Hget.
  - intros Hbit. unfold get_child.
    rewrite bitmap_exists_testbit, Hbit. reflexivity.
Qed.

Lemma sparse_child_map_invariant_witness :
  let ops := [(15%nat, replicate 64 Byte.x22, 7); (0%nat, replicate 64 Byte.x11, 5);
              (15%nat, replicate 64 Byte.x33, 9)] in
  Forall (fun op => (op.1.1 < 16)%nat) ops
  /\ get_child (set_children ops empty_internal) 15 = last_set ops 15.
Proof.
  intros ops.
  assert (H : Forall (fun op => (op.1.1 < 16)%nat) ops)
    by (repeat constructor; cbn; lia).
  split; [exact H|].
  exact (proj1 (proj2 (proj2 (proj2 (sparse_child_map_invariant ops H) 15%nat
           ltac:(lia))))).
Defined.

(** ** Canonical serialization of an internal node *)

(** With one descriptor per set bit, the dense list is [get_child] read
    off in ascending nibble order. *)
Lemma children_prefix (node : InternalNode) (k : nat) :
  length (children node) = popcount (mask_ (bitmap node)) ->
  (k <= 16)%nat ->
  omap (get_child node) (seq 0 k)
  = take (count_bits (mask_ (bitmap node)) k) (children node).
Proof.
  intros Hlen. induction k as [|k IH]; intros Hk; [reflexivity|].
  rewrite seq_S, omap_app, IH by lia. cbn [Nat.add omap list_omap count_bits].
  unfold get_child. rewrite bitmap_exists_testbit, get_index_count by lia.
  destruct (Z.testbit (mask_ (bitmap node)) (Z.of_nat k)) eqn:Hbit; cbn [negb].
  - assert (Hlt : (count_bits (mask_ (bitmap node)) k < length (children node))%nat).
    { rewrite Hlen. apply count_bits_present; [lia|exact Hbit]. }
    destruct (lookup_lt_is_Some_2 _ _ Hlt) as [c Hc]. rewrite Hc.
    rewrite Nat.add_1_r. symmetry. apply take_S_r. exact Hc.
  - rewrite app_nil_r, Nat.add_0_r. reflexivity.
Qed.

Lemma children_ascending (node : InternalNode) :
  length (children node) = popcount (mask_ (bitmap node)) ->
  children node = omap (get_child node) (seq 0 16).
Proof.
  intros Hlen. rewrite children_prefix by (exact Hlen || lia).
  fold (popcount (mask_ (bitmap node))). rewrite <- Hlen, take_ge; [reflexivity|lia].
Qed.

Lemma flat_map_omap {A B C} (f : A -> option B) (g : B -> list C) (l : list A) :
  flat_map g (omap f l)
  = flat_map (fun x => match f x with Some y => g y | None => [] end) l.
Proof.
  induction l as [|x l IH]; [reflexivity|].
  cbn [omap list_omap flat_map]. destruct (f x); cbn [flat_map]; rewrite IH; reflexivity.
Qed.

(** C4. Canonical layout of an internal node.  For an internal node that
    satisfies the sparse-map invariant, [serialize_canonical] is the mask
    as two little-endian bytes followed, for each present nibble in
    ascending order, by the child's 64-byte hash and its origin version as
    eight little-endian bytes; the whole has 2 + popcount(mask)*(64+8)
    bytes. *)
Theorem internal_serialize_canonical_layout (node : InternalNode) :
  wf_internal node ->
  internal_serialize_canonical node
  = le_split 2 (raw_mask (bitmap node))
    ++ flat_map
         (fun nibble : nat =>
            match get_child node nibble with
            | Some child => hash child ++ le_split 8 (version child)
            | None => []
            end)
         (seq 0 16)
  /\ length (internal_serialize_canonical node)
     = (2 + popcount (raw_mask (bitmap node)) * (HASH_SIZE + 8))%nat.
Proof.
  intros (Hm & Hlen & Hwf). split.
  - unfold internal_serialize_canonical. rewrite le_split_pair. cbn [app].
    f_equal. f_equal. rewrite (children_ascending node Hlen) at 1.
    rewrite flat_map_omap. apply flat_map_ext. intros n.
    destruct (get_child node n) as [c|]; [|reflexivity].
    unfold serialize_child. rewrite push_u64_le_split. reflexivity.
  - unfold internal_serialize_canonical, raw_mask, HASH_SIZE. cbn [length].
    rewrite length_flat_serialize, Hlen
      by (eapply Forall_impl; [exact Hwf|intros ? []; assumption]).
    lia.
Qed.

(** ** Domain-separated hashing *)

Lemma domains_differ : XOOK_INTERNAL_NODE_DOMAIN <> XOOK_LEAF_NODE_DOMAIN.
Proof. intros H. vm_compute in H. discriminate H. Qed.

(** The two domain strings already disagree at their ninth byte, so no
    payload can make the hash inputs of an internal node and a leaf meet. *)
Lemma hash_inputs_differ (a b : Bytes) :
  XOOK_INTERNAL_NODE_DOMAIN ++ a <> XOOK_LEAF_NODE_DOMAIN ++ b.
Proof.
  intros H. apply (f_equal (fun l : Bytes => l !! 8%nat)) in H.
  vm_compute in H. discriminate H.
Qed.

(** C3. Domain separation.  The hash of a node is the hash function
    applied to a fixed per-kind domain string followed by the node's
    canonical bytes; the Internal and Leaf domain strings differ; hence
    for every internal node I and leaf L (in particular for those whose
    canonical encodings are byte-identical) the two hash inputs differ,
    and hash(I) <> hash(L) as soon as the hash function does not collide
    on these two inputs. *)
Theorem node_hash_domain_separation
    (blake3 : Bytes -> Hash) (I : InternalNode) (L : LeafNode) :
  let input_I := XOOK_INTERNAL_NODE_DOMAIN ++ serialize_node (Internal I) in
  let input_L := XOOK_LEAF_NODE_DOMAIN ++ serialize_node (Leaf L) in
  hash_node blake3 (Internal I) = blake3 input_I
  /\ hash_node blake3 (Leaf L) = blake3 input_L
  /\ XOOK_INTERNAL_NODE_DOMAIN <> XOOK_LEAF_NODE_DOMAIN
  /\ input_I <> input_L
  /\ (collision_free_on blake3 input_I input_L ->
      hash_node blake3 (Internal I) <> hash_node blake3 (Leaf L)).
Proof.
  intros input_I input_L.
  split; [reflexivity|]. split; [reflexivity|].
  split; [exact domains_differ|].
  split; [apply hash_inputs_differ|].
  intros Hfree Heq. apply (hash_inputs_differ _ _ (Hfree Heq)).
Qed.

(** ** The speculative overlay *)

Lemma spec_step_base (s : SpeculativeTreeCache) (op : SpecOp) :
  base_cache_ (spec_step s op) = base_cache_ s.
Proof. destruct op; reflexivity. Qed.

Lemma spec_run_base (ops : list SpecOp) :
  forall s, base_cache_ (spec_run ops s) = base_cache_ s.
Proof.
  induction ops as [|op ops IH]; intros s; [reflexivity|].
  cbn [spec_run fold_left]. fold (spec_run ops (spec_step s op)).
  rewrite IH. apply spec_step_base.
Qed.

Lemma TreeCache_get_result (c : TreeCache) (key : NodeKey) :
  (TreeCache_get c key).1 = cache_map_ c !! key.
Proof. unfold TreeCache_get. destruct (cache_map_ c !! key); reflexivity. Qed.

Lemma TreeCache_get_entries (c : TreeCache) (key : NodeKey) :
  cache_map_ (TreeCache_get c key).2 = cache_map_ c
  /\ TreeCache_size (TreeCache_get c key).2 = TreeCache_size c.
Proof. unfold TreeCache_get. destruct (cache_map_ c !! key); split; reflexivity. Qed.

(** C6. Speculative isolation.  Whatever sequence of [put], [inject_node]
    and [clear] runs on a speculative cache, its base cache is left as it
    was, so the base's stored entries and [size()] are unchanged: [put]
    writes the overlay map only, [clear] drops the overlay and injected
    maps only.  [get] answers from the overlay first, then from the
    injected set, then from the base cache (and even then leaves the
    base's entries and size alone). *)
Theorem speculative_cache_isolation (s : SpeculativeTreeCache) (ops : list SpecOp) :
  let s' := spec_run ops s in
  base_cache_ s' = base_cache_ s
  /\ cache_map_ <$> base_cache_ s' = cache_map_ <$> base_cache_ s
  /\ TreeCache_size <$> base_cache_ s' = TreeCache_size <$> base_cache_ s
  /\ (forall key node,
        Speculative_put s key node
        = mkSpeculativeTreeCache (base_cache_ s) (<[key := node]> (overlay_ s))
                                 (injected_ s))
  /\ Speculative_clear s = mkSpeculativeTreeCache (base_cache_ s) ∅ ∅
  /\ (forall key,
        (Speculative_get s' key).1
        = match overlay_ s' !! key with
          | Some node => Some node
          | None =>
              match injected_ s' !! key with
              | Some node => Some node
              | None =>
                  match base_cache_ s with
                  | Some base => (TreeCache_get base key).1
                  | None => None
                  end
              end
          end)
  /\ (forall key,
        cache_map_ <$> base_cache_ (Speculative_get s' key).2
        = cache_map_ <$> base_cache_ s
        /\ TreeCache_size <$> base_cache_ (Speculative_get s' key).2
           = TreeCache_size <$> base_cache_ s).
Proof.
  intros s'. pose proof (spec_run_base ops s) as Hbase. fold s' in Hbase.
  split; [exact Hbase|]. rewrite Hbase.
  split; [reflexivity|]. split; [reflexivity|].
  split; [reflexivity|]. split; [reflexivity|]. split.
  - intros key. unfold Speculative_get. rewrite Hbase.
    destruct (overlay_ s' !! key); [reflexivity|].
    destruct (injected_ s' !! key); [reflexivity|].
    destruct (base_cache_ s) as [base|]; [|reflexivity].
    destruct (TreeCache_get base key). reflexivity.
  - intros key. unfold Speculative_get. rewrite Hbase.
    destruct (overlay_ s' !! key);
      [cbn [snd]; rewrite Hbase; split; reflexivity|].
    destruct (injected_ s' !! key);
      [cbn [snd]; rewrite Hbase; split; reflexivity|].
    destruct (base_cache_ s) as [base|] eqn:Hb;
      [|cbn [snd]; rewrite Hbase; split; reflexivity].
    destruct (TreeCache_get_entries base key) as [He Hs].
    destruct (TreeCache_get base key) as [r base']. cbn [snd fst] in *.
    cbn [base_cache_ fmap option_fmap option_map]. rewrite He, Hs. split; reflexivity.
Qed.

(** ** LRU eviction *)

Lemma unlink_not_in (key : NodeKey) (l : list NodeKey) :
  key ∉ l -> unlink key l = l.
Proof.
  induction l as [|k l IH]; intros Hnot; [reflexivity|].
  cbn [unlink]. apply not_elem_of_cons in Hnot as [Hne Hnot].
  destruct (decide (k = key)); [congruence|]. rewrite IH by exact Hnot. reflexivity.
Qed.

Lemma unlink_snoc (key : NodeKey) (l : list NodeKey) :
  key ∉ l -> unlink key (l ++ [key]) = l.
Proof.
  induction l as [|k l IH]; intros Hnot; cbn [unlink app].
  - destruct (decide (key = key)); [reflexivity|congruence].
  - apply not_elem_of_cons in Hnot as [Hne Hnot].
    destruct (decide (k = key)); [congruence|]. rewrite IH by exact Hnot. reflexivity.
Qed.

(** Distinct keys put into an empty cache with room for all of them: the
    recency list is the keys, newest first, and every entry is stored. *)
Lemma puts_with_room (capacity : nat) (kvs : list (NodeKey * Node)) :
  NoDup kvs.*1 -> (length kvs <= capacity)%nat ->
  TreeCache_puts kvs (TreeCache_new capacity)
  = mkTreeCache capacity (reverse kvs).*1 (list_to_map (reverse kvs)).
Proof.
  induction kvs as [|[k n] kvs IH] using rev_ind; intros Hnd Hlen; [reflexivity|].
  rewrite fmap_app, length_app in *. cbn [length fmap list_fmap] in *.
  apply NoDup_app in Hnd as (Hnd & Hfresh & _).
  unfold TreeCache_puts. rewrite fold_left_app. cbn [fold_left fst snd].
  fold (TreeCache_puts kvs (TreeCache_new capacity)). rewrite IH by (assumption || lia).
  assert (Hk : k ∉ (reverse kvs).*1).
  { rewrite fmap_reverse, elem_of_reverse. intros Hin.
    apply (Hfresh k Hin). left. }
  unfold TreeCache_put. cbn [cache_map_].
  rewrite (not_elem_of_list_to_map_1 _ _ Hk).
  unfold evict_if_full. cbn [capacity_ cache_map_ lru_list_].
  rewrite map_size_list_to_map
    by (rewrite fmap_reverse, reverse_Permutation; exact Hnd).
  rewrite length_reverse.
  destruct (Nat.leb_spec capacity (length kvs)) as [|_]; [lia|].
  cbn [capacity_ cache_map_ lru_list_]. rewrite reverse_snoc. reflexivity.
Qed.

Lemma put_fresh_full (capacity : nat) (l : list NodeKey) (oldest : NodeKey)
    (m : gmap NodeKey Node) (key : NodeKey) (node : Node) :
  m !! key = None -> (capacity <= size m)%nat ->
  TreeCache_put (mkTreeCache capacity (l ++ [oldest]) m) key node
  = mkTreeCache capacity (key :: l) (<[key := node]> (delete oldest m)).
Proof.
  intros Hfresh Hfull. unfold TreeCache_put. cbn [cache_map_]. rewrite Hfresh.
  unfold evict_if_full. cbn [capacity_ cache_map_ lru_list_].
  destruct (Nat.leb_spec capacity (size m)) as [_|]; [|lia].
  rewrite last_snoc, removelast_last. reflexivity.
Qed.

Lemma stored_lookup (kvs : list (NodeKey * Node)) (k : NodeKey) (n : Node) :
  NoDup kvs.*1 -> (k, n) ∈ kvs ->
  (list_to_map (reverse kvs) : gmap NodeKey Node) !! k = Some n.
Proof.
  intros Hnd Hin. apply elem_of_list_to_map_1.
  - rewrite fmap_reverse, reverse_Permutation. exact Hnd.
  - apply elem_of_reverse. exact Hin.
Qed.

Lemma stored_lookup_fresh (kvs : list (NodeKey * Node)) (k : NodeKey) :
  k ∉ kvs.*1 -> (list_to_map (reverse kvs) : gmap NodeKey Node) !! k = None.
Proof.
  intros Hk. apply not_elem_of_list_to_map_1.
  rewrite fmap_reverse, elem_of_reverse. exact Hk.
Qed.

Lemma stored_size (kvs : list (NodeKey * Node)) :
  NoDup kvs.*1 -> size (list_to_map (reverse kvs) : gmap NodeKey Node) = length kvs.
Proof.
  intros Hnd. rewrite map_size_list_to_map, length_reverse; [reflexivity|].
  rewrite fmap_reverse, reverse_Permutation. exact Hnd.
Qed.

(** C7 (amended).  LRU eviction in a cache of capacity c >= 1 that starts
    empty.  After c + 1 puts with distinct keys and no gets in between,
    the first key is absent and the c others are present.  When c >= 2
    and the oldest key is read with [get] before the (c+1)-th put, that
    put evicts the second-oldest key and the oldest key stays present. *)
Theorem lru_eviction (c : nat) (k0 : NodeKey) (n0 : Node)
    (rest : list (NodeKey * Node)) (k : NodeKey) (n : Node) :
  (1 <= c)%nat ->
  length ((k0, n0) :: rest) = c ->
  NoDup (k0 :: rest.*1 ++ [k]) ->
  let full := TreeCache_puts ((k0, n0) :: rest) (TreeCache_new c) in
  (let s := TreeCache_put full k n in
   (TreeCache_get s k0).1 = None
   /\ forall k' n', (k', n') ∈ rest ++ [(k, n)] -> (TreeCache_get s k').1 = Some n')
  /\ ((2 <= c)%nat ->
      let s := TreeCache_put (TreeCache_get full k0).2 k n in
      (TreeCache_get s k0).1 = Some n0
      /\ exists k1 n1 rest',
           rest = (k1, n1) :: rest'
           /\ (TreeCache_get s k1).1 = None
           /\ forall k' n', (k', n') ∈ rest' ++ [(k, n)] ->
                (TreeCache_get s k').1 = Some n').
Proof.
  intros Hc Hlen Hnd full.
  assert (Hlenr : S (length rest) = c) by exact Hlen.
  set (kvs := (k0, n0) :: rest) in *.
  assert (Hkeys : NoDup kvs.*1 /\ k ∉ kvs.*1).
  { change (k0 :: rest.*1 ++ [k]) with ((k0 :: rest.*1) ++ [k]) in Hnd.
    apply NoDup_app in Hnd as (Hnd & Hfresh & _). split; [exact Hnd|].
    intros Hin. apply (Hfresh k Hin). left. }
  destruct Hkeys as [Hnd' Hk].
  assert (Hk0 : (k0 ∉ rest.*1) /\ NoDup (rest.*1))
    by (apply NoDup_cons; exact Hnd').
  destruct Hk0 as [Hk0 Hndr].
  assert (Hfull : full = mkTreeCache c ((reverse rest).*1 ++ [k0])
                           (list_to_map (reverse kvs))).
  { unfold full. rewrite puts_with_room by (assumption || lia).
    unfold kvs at 1. rewrite reverse_cons, fmap_app. reflexivity. }
  set (M := list_to_map (reverse kvs) : gmap NodeKey Node) in *.
  assert (HM0 : M !! k0 = Some n0) by (apply stored_lookup; [assumption|left]).
  assert (HMk : M !! k = None) by (apply stored_lookup_fresh; assumption).
  assert (Hsize : size M = c) by (unfold M; rewrite stored_size; assumption).
  assert (Hne : k <> k0) by (intros ->; apply Hk; left).
  assert (Hrest : forall k' n', (k', n') ∈ rest ->
            M !! k' = Some n' /\ k' <> k /\ k' <> k0).
  { intros k' n' Hin.
    assert (Hin1 : k' ∈ rest.*1)
      by (apply list_elem_of_fmap; exists (k', n'); split; [reflexivity|exact Hin]).
    split; [apply stored_lookup; [assumption|right; exact Hin]|].
    split; intros ->; [apply Hk; right; exact Hin1|apply Hk0; exact Hin1]. }
  split.
  - cbn zeta. rewrite Hfull, put_fresh_full by (assumption || lia).
    split.
    + rewrite TreeCache_get_result. cbn [cache_map_].
      rewrite lookup_insert_ne, lookup_delete_eq by exact Hne. reflexivity.
    + intros k' n' Hin. rewrite TreeCache_get_result. cbn [cache_map_].
      apply elem_of_app in Hin as [Hin|Hin].
      * destruct (Hrest k' n' Hin) as (Hl & Hnk & Hnk0).
        rewrite lookup_insert_ne, lookup_delete_ne by congruence. exact Hl.
      * apply list_elem_of_singleton in Hin as [= -> ->]. apply lookup_insert_eq.
  - intros Hc2. cbn zeta.
    destruct rest as [|[k1 n1] rest']; [cbn [length] in Hlenr; lia|].
    assert (Hget : (TreeCache_get full k0).2
                   = mkTreeCache c ((k0 :: (reverse rest').*1) ++ [k1]) M).
    { rewrite Hfull. unfold TreeCache_get. cbn [cache_map_]. rewrite HM0.
      cbn [snd capacity_ lru_list_]. unfold splice_front.
      rewrite unlink_snoc
        by (rewrite fmap_reverse, elem_of_reverse; exact Hk0).
      rewrite reverse_cons, fmap_app. reflexivity. }
    rewrite Hget, put_fresh_full by (assumption || lia).
    destruct (Hrest k1 n1 ltac:(left)) as (_ & Hk1k & Hk1k0).
    split.
    + rewrite TreeCache_get_result. cbn [cache_map_].
      rewrite lookup_insert_ne, lookup_delete_ne by congruence. exact HM0.
    + exists k1, n1, rest'. split; [reflexivity|]. split.
      * rewrite TreeCache_get_result. cbn [cache_map_].
        rewrite lookup_insert_ne, lookup_delete_eq by congruence. reflexivity.
      * intros k' n' Hin. rewrite TreeCache_get_result. cbn [cache_map_].
        apply elem_of_app in Hin as [Hin|Hin].
        -- destruct (Hrest k' n' ltac:(right; exact Hin)) as (Hl & Hnk & Hnk0).
           assert (k' <> k1).
           { intros ->. cbn [fmap list_fmap fst] in Hndr.
             apply NoDup_cons in Hndr as [Hndr _]. apply Hndr.
             apply list_elem_of_fmap. exists (k1, n'). split; [reflexivity|exact Hin]. }
           rewrite lookup_insert_ne, lookup_delete_ne by congruence. exact Hl.
        -- apply list_elem_of_singleton in Hin as [= -> ->]. apply lookup_insert_eq.
Qed.

(** ** The accumulating adapters *)

(** [XookAdapter::put] stores the value under the hash of the whole raw
    key, so two raw keys are kept apart whenever their hashes differ, no
    matter how long a prefix they share. *)
Lemma XookAdapter_put_hashes_key (blake3 : Bytes -> Hash) {Tree : Type}
    (a : XookAdapter Tree) (key : Bytes) (value_hash : Hash) (version : Z) :
  let a' := XookAdapter_put blake3 a key value_hash version in
  pending_updates_ a' = <[blake3 key := value_hash]> (pending_updates_ a)
  /\ pending_updates_ a' !! blake3 key = Some value_hash
  /\ current_version_ a' = version
  /\ tree_ a' = tree_ a /\ last_root_ a' = last_root_ a.
Proof.
  cbn zeta. unfold XookAdapter_put.
  cbn [pending_updates_ current_version_ tree_ last_root_].
  rewrite lookup_insert_eq. repeat split; reflexivity.
Qed.

Lemma XookAdapter_put_distinct (blake3 : Bytes -> Hash) {Tree : Type}
    (a : XookAdapter Tree) (key1 key2 : Bytes) (v1 v2 : Hash) (ver1 ver2 : Z) :
  blake3 key1 <> blake3 key2 ->
  let a' := XookAdapter_put blake3 (XookAdapter_put blake3 a key1 v1 ver1) key2 v2 ver2 in
  pending_updates_ a' !! blake3 key1 = Some v1
  /\ pending_updates_ a' !! blake3 key2 = Some v2.
Proof.
  intros Hne. cbn zeta. unfold XookAdapter_put. cbn [pending_updates_].
  rewrite lookup_insert_eq, lookup_insert_ne, lookup_insert_eq by congruence.
  split; reflexivity.
Qed.

(** [XMTLegacyAdapter::put] copies the first 32 bytes of the key: keys
    that agree there are stored under one and the same key hash. *)
Lemma legacy_key_prefix (key1 key2 : Bytes) :
  (32 <= length key1)%nat -> (32 <= length key2)%nat ->
  take 32 key1 = take 32 key2 ->
  XMTLegacy.key_to_hash256 key1 = XMTLegacy.key_to_hash256 key2.
Proof.
  intros H1 H2 Heq. unfold XMTLegacy.key_to_hash256.
  destruct (Nat.leb_spec 32 (length key1)); [|lia].
  destruct (Nat.leb_spec 32 (length key2)); [|lia]. exact Heq.
Qed.

Lemma legacy_put_overwrites (a : XMTLegacy.XMTLegacyAdapter)
    (key1 key2 v1 v2 : Bytes) (ver1 ver2 : Z) :
  XMTLegacy.key_to_hash256 key1 = XMTLegacy.key_to_hash256 key2 ->
  XMTLegacy.pending_updates_
    (XMTLegacy.put (XMTLegacy.put a key1 v1 ver1) key2 v2 ver2)
  = <[XMTLegacy.key_to_hash256 key2 := v2]> (XMTLegacy.pending_updates_ a).
Proof.
  intros Heq. unfold XMTLegacy.put. cbn [XMTLegacy.pending_updates_].
  rewrite Heq. apply insert_insert_eq.
Qed.

(** C8 (the code departs from the claim).  [XMTLegacyAdapter::put] does
    not hash the raw key: two distinct 33-byte keys with the same first 32
    bytes get the same key hash, and the second [put] overwrites the
    first in the pending map, which then holds a single entry. *)
Theorem legacy_put_key_collision :
  let key1 := replicate 32 Byte.x00 ++ [Byte.x01] in
  let key2 := replicate 32 Byte.x00 ++ [Byte.x02] in
  let v1 := replicate 32 Byte.xaa in
  let v2 := replicate 32 Byte.xbb in
  let a := XMTLegacy.put (XMTLegacy.put XMTLegacy.new key1 v1 1) key2 v2 1 in
  key1 <> key2
  /\ XMTLegacy.key_to_hash256 key1 = replicate 32 Byte.x00
  /\ XMTLegacy.key_to_hash256 key2 = replicate 32 Byte.x00
  /\ XMTLegacy.pending_updates_ a = {[ replicate 32 Byte.x00 := v2 ]}
  /\ XMTLegacy.pending_updates_ a !! XMTLegacy.key_to_hash256 key1 = Some v2
  /\ size (XMTLegacy.pending_updates_ a) = 1%nat.
Proof.
  cbn zeta.
  assert (H1 : XMTLegacy.key_to_hash256 (replicate 32 Byte.x00 ++ [Byte.x01])
               = replicate 32 Byte.x00) by reflexivity.
  assert (H2 : XMTLegacy.key_to_hash256 (replicate 32 Byte.x00 ++ [Byte.x02])
               = replicate 32 Byte.x00) by reflexivity.
  assert (Hp : XMTLegacy.pending_updates_
                 (XMTLegacy.put
                    (XMTLegacy.put XMTLegacy.new
                       (replicate 32 Byte.x00 ++ [Byte.x01]) (replicate 32 Byte.xaa) 1)
                    (replicate 32 Byte.x00 ++ [Byte.x02]) (replicate 32 Byte.xbb) 1)
               = {[ replicate 32 Byte.x00 := replicate 32 Byte.xbb ]}).
  { rewrite legacy_put_overwrites by (rewrite H1, H2; reflexivity).
    rewrite H2. reflexivity. }
  split; [intros H; apply (f_equal (fun l : Bytes => l !! 32%nat)) in H; discriminate H|].
  split; [exact H1|]. split; [exact H2|]. split; [exact Hp|].
  rewrite Hp, H1. split; [apply lookup_singleton_eq|apply map_size_singleton].
Qed.

(** ** calculate_root *)

Lemma merged_batch_empty (blake3 : Bytes -> Hash) {Tree : Type}
    (a : XookAdapter Tree) (updates : list (Bytes * Hash)) :
  merged_batch blake3 a updates = [] <-> updates = [] /\ pending_updates_ a = ∅.
Proof.
  unfold merged_batch. split.
  - intros H. apply app_eq_nil in H as [Hu Hp]. split.
    + destruct updates; [reflexivity|discriminate Hu].
    + apply map_to_list_empty_iff. exact Hp.
  - intros [-> ->]. rewrite map_to_list_empty. reflexivity.
Qed.

(** C9 (amended).  A call of [calculate_root] whose merged batch (the
    explicit updates followed by the pending map) is not empty invokes
    [put_value_set] on that batch and, when that returns, clears the
    pending map, sets the cached version to [version] and the cached root
    to the returned [new_root_hash], and returns the batch (so
    [get_root_hash version] then answers that root).  A call whose merged
    batch is empty returns an empty batch carrying [base_root] without
    invoking [put_value_set] and leaves the adapter as it was. *)
Theorem calculate_root_spec (blake3 : Bytes -> Hash) (Tree : Type)
    (put_value_set : Tree -> list (Hash * option Bytes) -> Z -> Hash -> option Z ->
                     option (TreeUpdateBatch * Tree))
    (tree_get_root_hash : Tree -> Z -> Hash)
    (a : XookAdapter Tree) (updates : list (Bytes * Hash)) (base_root : Hash)
    (version : Z) (base_version : option Z) :
  let batch := merged_batch blake3 a updates in
  let jmt_updates := map (fun kv : Hash * Bytes => (kv.1, Some kv.2)) batch in
  let run := XookAdapter_calculate_root blake3 put_value_set a updates
               base_root version base_version in
  (batch <> [] ->
     forall result tree',
       put_value_set (tree_ a) jmt_updates version base_root base_version
       = Some (result, tree') ->
       exists a',
         run = Some (result, a')
         /\ tree_ a' = tree'
         /\ pending_updates_ a' = ∅
         /\ current_version_ a' = version
         /\ last_root_ a' = new_root_hash result
         /\ XookAdapter_get_root_hash tree_get_root_hash a' version
            = new_root_hash result)
  /\ (batch <> [] ->
        put_value_set (tree_ a) jmt_updates version base_root base_version = None ->
        run = None)
  /\ (batch = [] -> run = Some (mkTreeUpdateBatch base_root [], a)).
Proof.
  cbn zeta. unfold XookAdapter_calculate_root.
  destruct (merged_batch blake3 a updates) as [|kv batch] eqn:Hb.
  - split; [congruence|]. split; [congruence|]. reflexivity.
  - split; [|split; [|discriminate]].
    + intros _ result tree' Hput. rewrite Hput. eexists. split; [reflexivity|].
      cbn [tree_ pending_updates_ current_version_ last_root_].
      repeat split. unfold XookAdapter_get_root_hash.
      cbn [current_version_ last_root_]. rewrite Z.eqb_refl. reflexivity.
    + intros _ Hput. rewrite Hput. reflexivity.
Qed.

(** ** NibblePath *)

Lemma from_bytes_size (b : Bytes) (n : Z) : nibble_size (from_bytes b n) = n.
Proof. reflexivity. Qed.

Lemma length_clear_low_nibble (bs : Bytes) :
  length (clear_low_nibble bs) = length bs.
Proof. unfold clear_low_nibble. apply length_alter. Qed.

Lemma from_bytes_length (b : Bytes) (n : Z) :
  length (bytes_ (from_bytes b n))
  = Nat.min (Z.to_nat (size_t (n + 1) / 2)) (length b).
Proof.
  unfold from_bytes. cbn [bytes_].
  set (e := Z.to_nat (size_t (n + 1) / 2)).
  assert (H : length (if (e <? length b)%nat then take e b else b)
              = Nat.min e (length b)).
  { destruct (Nat.ltb_spec e (length b)); [rewrite length_take|]; lia. }
  destruct (negb (n mod 2 =? 0) && negb (bool_decide (_ = [])));
    [rewrite length_clear_low_nibble|]; exact H.
Qed.

(** With enough packed bytes every nibble below the count is read from
    inside the vector. *)
Lemma from_bytes_reads_in_bounds (b : Bytes) (n i : Z) :
  0 <= n < 2 ^ 64 - 1 ->
  (n + 1) / 2 <= Z.of_nat (length b) ->
  0 <= i < n ->
  exists v, get_nibble (from_bytes b n) i = Value v.
Proof.
  intros Hn Hb Hi. unfold get_nibble.
  change (num_nibbles_ (from_bytes b n)) with n.
  destruct (Z.leb_spec n i); [lia|].
  destruct (lookup_lt_is_Some_2 (bytes_ (from_bytes b n)) (Z.to_nat (i / 2)))
    as [x Hx]; [|rewrite Hx; eauto].
  rewrite from_bytes_length. unfold size_t. rewrite Z.mod_small by lia.
  assert (i / 2 < (n + 1) / 2).
  { apply Z.div_lt_upper_bound; [lia|].
    pose proof (Z.mul_div_le (n + 1) 2 ltac:(lia)).
    pose proof (Z.mod_pos_bound (n + 1) 2 ltac:(lia)).
    pose proof (Z.div_mod (n + 1) 2 ltac:(lia)). lia. }
  assert (0 <= i / 2) by (apply Z.div_pos; lia). lia.
Qed.

(** C10 (the code departs from the claim).  [from_bytes] keeps a byte
    vector that is shorter than the nibble count needs as it is: on the
    empty vector with a count of 2 the path reports size 2, stores no
    byte, and [get_nibble 0] passes the index test and reads [bytes_[0]]
    past the end of the vector. *)
Theorem from_bytes_short_reads_out_of_bounds :
  let p := from_bytes [] 2 in
  nibble_size p = 2
  /\ bytes_ p = []
  /\ get_nibble p 0 = ReadsOutOfBounds
  /\ get_nibble p 1 = ReadsOutOfBounds.
Proof. cbn zeta. repeat split. Qed.

Lemma deserialize_serialize_roundtrip_witness :
  wf_node (Internal tint) /\
  deserialize_node_from_bytes (serialize_node_with_prefix (Internal tint)) = Some (Internal tint).
Proof.
  assert (H : wf_node (Internal tint)).
  { cbn. unfold wf_internal. split; [vm_compute; split; [discriminate | reflexivity]|].
    split; [vm_compute; reflexivity|].
    repeat constructor; vm_compute; congruence. }
  split; [exact H | apply (deserialize_serialize_roundtrip _ H)].
Defined.

Lemma internal_serialize_canonical_layout_witness :
  wf_internal tint
  /\ internal_serialize_canonical tint
     = le_split 2 32769
       ++ (replicate 64 Byte.x11 ++ le_split 8 (2 ^ 63 + 5))
       ++ (replicate 64 Byte.x33 ++ le_split 8 9)
  /\ length (internal_serialize_canonical tint)
     = (2 + popcount (raw_mask (bitmap tint)) * (HASH_SIZE + 8))%nat.
Proof.
  assert (H : wf_internal tint).
  { split; [vm_compute; split; [discriminate | reflexivity]|].
    split; [vm_compute; reflexivity|].
    repeat constructor; vm_compute; congruence. }
  split; [exact H|].
  destruct (internal_serialize_canonical_layout tint H) as [Hlayout Hlen].
  split; [rewrite Hlayout; vm_compute; reflexivity|exact Hlen].
Defined.

Lemma node_hash_domain_separation_witness :
  let blake3 := fun bs : Bytes => take 64 bs in
  collision_free_on blake3
    (XOOK_INTERNAL_NODE_DOMAIN ++ serialize_node (Internal empty_internal))
    (XOOK_LEAF_NODE_DOMAIN ++ serialize_node (Leaf tleaf))
  /\ hash_node blake3 (Internal empty_internal) <> hash_node blake3 (Leaf tleaf).
Proof.
  intros blake3.
  assert (H : collision_free_on blake3
    (XOOK_INTERNAL_NODE_DOMAIN ++ serialize_node (Internal empty_internal))
    (XOOK_LEAF_NODE_DOMAIN ++ serialize_node (Leaf tleaf))).
  { intros Heq. vm_compute in Heq. discriminate Heq. }
  split; [exact H|].
  exact (proj2 (proj2 (proj2 (proj2
    (node_hash_domain_separation blake3 empty_internal tleaf)))) H).
Defined.

Lemma lru_eviction_witness :
  let full := TreeCache_puts [(key_a, Leaf tleaf); (key_b, Internal tint)] (TreeCache_new 2) in
  (TreeCache_get (TreeCache_put full key_c (Leaf tleaf)) key_a).1 = None
  /\ (TreeCache_get (TreeCache_put (TreeCache_get full key_a).2 key_c (Leaf tleaf)) key_a).1
     = Some (Leaf tleaf).
Proof.
  assert (Hnd : NoDup (key_a :: [(key_b, Internal tint)].*1 ++ [key_c])).
  { cbn. repeat constructor; rewrite ?elem_of_cons, ?elem_of_nil;
      unfold key_a, key_b, key_c; intuition congruence. }
  pose proof (lru_eviction 2 key_a (Leaf tleaf) [(key_b, Internal tint)]
                key_c (Leaf tleaf) ltac:(lia) eq_refl Hnd) as [[H1 _] H2].
  split; [exact H1|]. exact (proj1 (H2 ltac:(lia))).
Defined.

(** The original wording of the second half of C7 fails at capacity 1:
    after [put a], [get a], [put b] the only slot holds [b], and the
    oldest key [a] is gone. *)
Lemma lru_capacity_one_counterexample :
  let full := TreeCache_puts [(key_a, Leaf tleaf)] (TreeCache_new 1) in
  let s := TreeCache_put (TreeCache_get full key_a).2 key_b (Leaf tleaf) in
  (1 <= 1)%nat /\ key_a <> key_b
  /\ (TreeCache_get s key_a).1 = None
  /\ (TreeCache_get s key_b).1 = Some (Leaf tleaf).
Proof.
  cbn zeta. split; [lia|]. split; [discriminate|].
  vm_compute. split; reflexivity.
Qed.

Lemma calculate_root_spec_witness :
  let blake3 := fun bs : Bytes => take 64 bs in
  let updates := [([Byte.x61], replicate 64 Byte.xaa)] in
  merged_batch blake3 adapter0 updates <> []
  /\ exists a',
       XookAdapter_calculate_root blake3 recording_put_value_set adapter0 updates
         (replicate 64 Byte.x00) 5 None
       = Some (mkTreeUpdateBatch (replicate 64 Byte.x01) [], a')
       /\ current_version_ a' = 5.
Proof.
  intros blake3 updates.
  assert (H : merged_batch blake3 adapter0 updates <> []) by discriminate.
  split; [exact H|].
  destruct (proj1 (calculate_root_spec blake3 _ recording_put_value_set
                     (fun _ _ => []) adapter0 updates (replicate 64 Byte.x00) 5 None)
              H _ _ eq_refl) as (a' & Hrun & _ & _ & Hv & _).
  exists a'. split; [exact Hrun|exact Hv].
Defined.

(** The original wording of C9 fails on an empty merged batch: the call
    returns [base_root] at once; [put_value_set] is not invoked (the
    recording tree stays empty), the cached version stays 0 instead of 5,
    and the cached root is not the returned [new_root_hash]. *)
Lemma calculate_root_empty_counterexample :
  let blake3 := fun bs : Bytes => take 64 bs in
  let base_root := replicate 64 Byte.x07 in
  exists result a',
    XookAdapter_calculate_root blake3 recording_put_value_set adapter0 []
      base_root 5 None = Some (result, a')
    /\ tree_ a' = []
    /\ current_version_ a' <> 5
    /\ last_root_ a' <> new_root_hash result.
Proof.
  cbn zeta. eexists. eexists. split; [reflexivity|].
  split; [reflexivity|]. split; [discriminate|].
  intros H. apply (f_equal (fun l : Bytes => l !! 0%nat)) in H. discriminate H.
Qed.

(** * Further properties of the sources *)

(** ** Nibble arithmetic on one byte *)

Lemma Z_range_forallb (N : nat) (P : Z -> bool) :
  forallb P (map Z.of_nat (seq 0 N)) = true ->
  forall z, 0 <= z < Z.of_nat N -> P z = true.
Proof.
  intros H z Hz. rewrite forallb_forall in H. apply H.
  apply in_map_iff. exists (Z.to_nat z). split; [lia|].
  apply in_seq. lia.
Qed.

Lemma high_nibble_facts (n : Z) :
  0 <= n <= 15 ->
  (Z.shiftl n 4) mod 256 = Z.shiftl n 4
  /\ Z.shiftr (Z.shiftl n 4) 4 = n
  /\ Z.land (Z.shiftl n 4) 15 = 0.
Proof.
  intros Hn.
  pose proof (Z_range_forallb 16 high_nibble_ok eq_refl n ltac:(lia)) as H.
  unfold high_nibble_ok in H.
  apply andb_prop in H as [H H3]. apply andb_prop in H as [H1 H2].
  apply Z.eqb_eq in H1, H2, H3. auto.
Qed.

Lemma low_nibble_facts (x n : Z) :
  0 <= x < 256 -> 0 <= n <= 15 -> Z.land x 15 = 0 ->
  (Z.lor x (Z.land n 15)) mod 256 = Z.lor x (Z.land n 15)
  /\ Z.land (Z.lor x (Z.land n 15)) 15 = n
  /\ Z.shiftr (Z.lor x (Z.land n 15)) 4 = Z.shiftr x 4
  /\ Z.land (Z.lor x (Z.land n 15)) 240 = x.
Proof.
  intros Hx Hn Hlow.
  assert (Hall : forall x', 0 <= x' < Z.of_nat 256 ->
            forallb (low_nibble_ok x') (map Z.of_nat (seq 0 16)) = true).
  { apply (Z_range_forallb 256
             (fun x' => forallb (low_nibble_ok x') (map Z.of_nat (seq 0 16)))).
    vm_compute. reflexivity. }
  pose proof (Z_range_forallb 16 (low_nibble_ok x) (Hall x ltac:(lia)) n ltac:(lia)) as H.
  unfold low_nibble_ok in H. rewrite Hlow in H. cbn [Z.eqb negb orb] in H.
  apply andb_prop in H as [H H4]. apply andb_prop in H as [H H3].
  apply andb_prop in H as [H1 H2].
  apply Z.eqb_eq in H1, H2, H3, H4. auto.
Qed.

Lemma clear_nibble_facts (x : Z) :
  0 <= x < 256 ->
  (Z.land x 240) mod 256 = Z.land x 240
  /\ Z.land (Z.land x 240) 15 = 0
  /\ Z.shiftr (Z.land x 240) 4 = Z.shiftr x 4
  /\ 0 <= Z.shiftr x 4 < 16 /\ 0 <= Z.land x 15 < 16
  /\ (Z.land x 15 = 0 -> Z.land x 240 = x).
Proof.
  intros Hx.
  pose proof (Z_range_forallb 256 clear_nibble_ok eq_refl x ltac:(lia)) as H.
  unfold clear_nibble_ok in H.
  repeat (let H' := fresh "H" in apply andb_prop in H as [H H']).
  apply Z.eqb_eq in H, H6, H5. apply Z.ltb_lt in H4, H3. apply Z.leb_le in H2, H1.
  repeat split; try assumption.
  intros Hlow. rewrite Hlow in H0. cbn in H0. apply Z.eqb_eq in H0. exact H0.
Qed.

Lemma u8_unsigned (b : byte) : u8 (byte.unsigned b) = b.
Proof. apply byte.of_Z_unsigned. Qed.

Lemma unsigned_range256 (b : byte) : 0 <= byte.unsigned b < 256.
Proof. exact (byte.unsigned_range b). Qed.

Lemma clear_low_nibble_snoc (l : Bytes) (b : byte) :
  clear_low_nibble (l ++ [b]) = l ++ [u8 (Z.land (byte.unsigned b) 240)].
Proof.
  unfold clear_low_nibble. rewrite length_app. cbn [length].
  replace (length l + 1 - 1)%nat with (length l + 0)%nat by lia.
  rewrite alter_app_r. reflexivity.
Qed.

Lemma clear_low_nibble_clean (l : Bytes) (b : byte) :
  Z.land (byte.unsigned b) 15 = 0 -> clear_low_nibble (l ++ [b]) = l ++ [b].
Proof.
  intros Hlow. rewrite clear_low_nibble_snoc.
  destruct (clear_nibble_facts _ (unsigned_range256 b)) as (_ & _ & _ & _ & _ & H).
  rewrite (H Hlow), u8_unsigned. reflexivity.
Qed.

(** ** NibblePath: push, pop and indexed reads *)

Lemma wf_path_odd (p : NibblePath) :
  wf_path p -> num_nibbles_ p mod 2 = 1 ->
  exists l b, bytes_ p = l ++ [b]
              /\ Z.land (byte.unsigned b) 15 = 0
              /\ 2 * Z.of_nat (length l) + 1 = num_nibbles_ p.
Proof.
  intros (Hn & Hlen & Hpad) Hodd.
  destruct (bytes_ p) as [|b l _] eqn:Hb using rev_ind.
  - cbn [length] in Hlen. exfalso. Z.div_mod_to_equations. lia.
  - exists l, b. split; [reflexivity|]. split.
    + apply Hpad; [exact Hodd|]. apply last_snoc.
    + rewrite length_app in Hlen. cbn [length] in Hlen.
      Z.div_mod_to_equations. lia.
Qed.

Lemma wf_path_even (p : NibblePath) :
  wf_path p -> num_nibbles_ p mod 2 = 0 ->
  2 * Z.of_nat (length (bytes_ p)) = num_nibbles_ p.
Proof.
  intros (Hn & Hlen & _) Heven. Z.div_mod_to_equations. lia.
Qed.

Lemma mod2_cases (z : Z) : z mod 2 = 0 \/ z mod 2 = 1.
Proof. Z.div_mod_to_equations. lia. Qed.

Lemma push_even (p : NibblePath) (n : Z) :
  0 <= n <= 15 -> num_nibbles_ p mod 2 = 0 ->
  push p n = Some (mkNibblePath (bytes_ p ++ [u8 (Z.shiftl n 4)])
                                (size_t (num_nibbles_ p + 1))).
Proof.
  intros Hn Heven. unfold push.
  destruct (Z.ltb_spec 15 n); [lia|]. rewrite Heven. reflexivity.
Qed.

Lemma push_odd (p : NibblePath) (n : Z) (l : Bytes) (b : byte) :
  0 <= n <= 15 -> num_nibbles_ p mod 2 = 1 -> bytes_ p = l ++ [b] ->
  push p n = Some (mkNibblePath
                     (l ++ [u8 (Z.lor (byte.unsigned b) (Z.land n 15))])
                     (size_t (num_nibbles_ p + 1))).
Proof.
  intros Hn Hodd Hb. unfold push.
  destruct (Z.ltb_spec 15 n); [lia|]. rewrite Hodd, Hb. cbn [Z.eqb].
  rewrite length_app. cbn [length].
  replace (length l + 1 - 1)%nat with (length l + 0)%nat by lia.
  rewrite alter_app_r. reflexivity.
Qed.

Lemma push_some (p : NibblePath) (n : Z) :
  0 <= n <= 15 -> exists p', push p n = Some p'.
Proof.
  intros Hn. unfold push. destruct (Z.ltb_spec 15 n); [lia|eauto].
Qed.

Lemma wf_path_empty : wf_path empty_path.
Proof.
  split; [cbn; lia|]. split; [reflexivity|]. intros H. discriminate H.
Qed.

Lemma push_wf (p p' : NibblePath) (n : Z) :
  wf_path p -> num_nibbles_ p + 1 < 2 ^ 64 -> 0 <= n <= 15 ->
  push p n = Some p' ->
  wf_path p' /\ num_nibbles_ p' = num_nibbles_ p + 1.
Proof.
  intros Hwf Hmax Hn Hpush.
  pose proof Hwf as (Hrange & Hlen & Hpad).
  assert (Hsz : size_t (num_nibbles_ p + 1) = num_nibbles_ p + 1)
    by (apply Z.mod_small; lia).
  destruct (mod2_cases (num_nibbles_ p)) as [Heven|Hodd].
  - rewrite (push_even p n Hn Heven), Hsz in Hpush. injection Hpush as <-.
    split; [|reflexivity]. unfold wf_path. cbn [num_nibbles_ bytes_].
    split; [lia|]. split.
    + rewrite length_app. cbn [length]. Z.div_mod_to_equations. lia.
    + intros _ b Hlast. rewrite last_snoc in Hlast. injection Hlast as <-.
      rewrite unsigned_u8. destruct (high_nibble_facts n Hn) as (-> & _ & H).
      exact H.
  - destruct (wf_path_odd p Hwf Hodd) as (l & b & Hb & Hlow & Hl).
    rewrite (push_odd p n l b Hn Hodd Hb), Hsz in Hpush. injection Hpush as <-.
    split; [|reflexivity]. unfold wf_path. cbn [num_nibbles_ bytes_].
    split; [lia|]. split.
    + rewrite length_app. cbn [length]. Z.div_mod_to_equations. lia.
    + intros Hodd'. exfalso. Z.div_mod_to_equations. lia.
Qed.

Lemma pop_wf (p : NibblePath) : wf_path p -> wf_path (pop p).
Proof.
  intros Hwf. pose proof Hwf as (Hrange & Hlen & Hpad). unfold pop.
  destruct (Z.eqb_spec (num_nibbles_ p) 0) as [|Hne]; [exact Hwf|].
  assert (Hsz : size_t (num_nibbles_ p - 1) = num_nibbles_ p - 1)
    by (apply Z.mod_small; lia).
  destruct (mod2_cases (num_nibbles_ p)) as [Heven|Hodd].
  - rewrite Heven. cbn [Z.eqb]. rewrite Hsz.
    split; cbn [num_nibbles_ bytes_]; [lia|]. split.
    + rewrite length_clear_low_nibble. Z.div_mod_to_equations. lia.
    + intros _ b.
      destruct (bytes_ p) as [|x l _] using rev_ind.
      * cbn. discriminate.
      * rewrite clear_low_nibble_snoc, last_snoc. intros [= <-].
        rewrite unsigned_u8.
        destruct (clear_nibble_facts _ (unsigned_range256 x)) as (-> & H & _).
        exact H.
  - rewrite Hodd. cbn [Z.eqb]. rewrite Hsz.
    destruct (wf_path_odd p Hwf Hodd) as (l & b & Hb & Hlow & Hl).
    rewrite Hb, removelast_last.
    split; cbn [num_nibbles_ bytes_]; [lia|]. split.
    + Z.div_mod_to_equations. lia.
    + intros Hodd'. exfalso. Z.div_mod_to_equations. lia.
Qed.

(** X1. [pop] undoes [push]: on a path that satisfies the class invariant
    and has room for one more nibble, pushing a nibble 0..15 succeeds and
    popping the result gives the original path back, byte for byte. *)
Theorem pop_push (p : NibblePath) (n : Z) :
  wf_path p -> num_nibbles_ p + 1 < 2 ^ 64 -> 0 <= n <= 15 ->
  exists p', push p n = Some p' /\ pop p' = p.
Proof.
  intros Hwf Hmax Hn. pose proof Hwf as (Hrange & Hlen & Hpad).
  assert (Hsz : size_t (num_nibbles_ p + 1) = num_nibbles_ p + 1)
    by (apply Z.mod_small; lia).
  assert (Hback : size_t (num_nibbles_ p + 1 - 1) = num_nibbles_ p)
    by (replace (num_nibbles_ p + 1 - 1) with (num_nibbles_ p) by lia;
        apply Z.mod_small; lia).
  destruct p as [bs num]. cbn [num_nibbles_ bytes_] in *.
  destruct (mod2_cases num) as [Heven|Hodd].
  - eexists. split; [apply push_even; assumption|].
    cbn [num_nibbles_ bytes_]. rewrite Hsz. unfold pop. cbn [num_nibbles_ bytes_].
    destruct (Z.eqb_spec (num + 1) 0); [lia|].
    replace ((num + 1) mod 2) with 1 by (Z.div_mod_to_equations; lia).
    cbn [Z.eqb]. rewrite removelast_last, Hback. reflexivity.
  - destruct (wf_path_odd _ Hwf Hodd) as (l & b & Hb & Hlow & Hl).
    cbn [bytes_] in Hb. subst bs.
    eexists. split; [apply (push_odd _ n l b); [assumption..|reflexivity]|].
    cbn [num_nibbles_ bytes_]. rewrite Hsz. unfold pop. cbn [num_nibbles_ bytes_].
    destruct (Z.eqb_spec (num + 1) 0); [lia|].
    replace ((num + 1) mod 2) with 0 by (Z.div_mod_to_equations; lia).
    cbn [Z.eqb]. rewrite clear_low_nibble_snoc, unsigned_u8, Hback.
    destruct (low_nibble_facts _ n (unsigned_range256 b) Hn Hlow) as (-> & _ & _ & ->).
    rewrite u8_unsigned. reflexivity.
Qed.

Lemma get_nibble_push_new (p p' : NibblePath) (n : Z) :
  wf_path p -> num_nibbles_ p + 1 < 2 ^ 64 -> 0 <= n <= 15 ->
  push p n = Some p' ->
  get_nibble p' (num_nibbles_ p) = Value n.
Proof.
  intros Hwf Hmax Hn Hpush. pose proof Hwf as (Hrange & Hlen & Hpad).
  assert (Hsz : size_t (num_nibbles_ p + 1) = num_nibbles_ p + 1)
    by (apply Z.mod_small; lia).
  unfold get_nibble.
  destruct (mod2_cases (num_nibbles_ p)) as [Heven|Hodd].
  - rewrite (push_even p n Hn Heven), Hsz in Hpush. injection Hpush as <-.
    cbn [num_nibbles_ bytes_].
    destruct (Z.leb_spec (num_nibbles_ p + 1) (num_nibbles_ p)); [lia|].
    replace (Z.to_nat (num_nibbles_ p / 2)) with (length (bytes_ p))
      by (Z.div_mod_to_equations; lia).
    rewrite list_lookup_middle by reflexivity. rewrite Heven. cbn [Z.eqb].
    rewrite unsigned_u8. destruct (high_nibble_facts n Hn) as (-> & -> & _).
    reflexivity.
  - destruct (wf_path_odd p Hwf Hodd) as (l & b & Hb & Hlow & Hl).
    rewrite (push_odd p n l b Hn Hodd Hb), Hsz in Hpush. injection Hpush as <-.
    cbn [num_nibbles_ bytes_].
    destruct (Z.leb_spec (num_nibbles_ p + 1) (num_nibbles_ p)); [lia|].
    replace (Z.to_nat (num_nibbles_ p / 2)) with (length l)
      by (Z.div_mod_to_equations; lia).
    rewrite list_lookup_middle by reflexivity. rewrite Hodd. cbn [Z.eqb].
    rewrite unsigned_u8.
    destruct (low_nibble_facts _ n (unsigned_range256 b) Hn Hlow) as (-> & -> & _).
    reflexivity.
Qed.

Lemma get_nibble_push_old (p p' : NibblePath) (n i : Z) :
  wf_path p -> num_nibbles_ p + 1 < 2 ^ 64 -> 0 <= n <= 15 ->
  push p n = Some p' -> 0 <= i < num_nibbles_ p ->
  get_nibble p' i = get_nibble p i.
Proof.
  intros Hwf Hmax Hn Hpush Hi. pose proof Hwf as (Hrange & Hlen & Hpad).
  assert (Hsz : size_t (num_nibbles_ p + 1) = num_nibbles_ p + 1)
    by (apply Z.mod_small; lia).
  unfold get_nibble.
  destruct (Z.leb_spec (num_nibbles_ p) i); [lia|].
  destruct (mod2_cases (num_nibbles_ p)) as [Heven|Hodd].
  - rewrite (push_even p n Hn Heven), Hsz in Hpush. injection Hpush as <-.
    cbn [num_nibbles_ bytes_].
    destruct (Z.leb_spec (num_nibbles_ p + 1) i); [lia|].
    rewrite lookup_app_l by (Z.div_mod_to_equations; lia). reflexivity.
  - destruct (wf_path_odd p Hwf Hodd) as (l & b & Hb & Hlow & Hl).
    rewrite (push_odd p n l b Hn Hodd Hb), Hsz in Hpush. injection Hpush as <-.
    cbn [num_nibbles_ bytes_]. rewrite Hb.
    destruct (Z.leb_spec (num_nibbles_ p + 1) i); [lia|].
    destruct (decide (Z.to_nat (i / 2) < length l)%nat) as [Hlt|Hge].
    + rewrite !lookup_app_l by exact Hlt. reflexivity.
    + assert (Hidx : Z.to_nat (i / 2) = length l)
        by (Z.div_mod_to_equations; lia).
      assert (Hieven : i mod 2 = 0) by (Z.div_mod_to_equations; lia).
      rewrite Hidx, !list_lookup_middle by reflexivity.
      rewrite Hieven. cbn [Z.eqb]. rewrite unsigned_u8.
      destruct (low_nibble_facts _ n (unsigned_range256 b) Hn Hlow)
        as (-> & _ & -> & _).
      reflexivity.
Qed.

Lemma from_binary_wf (key : Bytes) :
  2 * Z.of_nat (length key) < 2 ^ 64 -> wf_path (from_binary key).
Proof.
  intros Hlen. unfold from_binary, wf_path, size_t. cbn [num_nibbles_ bytes_].
  rewrite Z.mod_small by lia. split; [lia|]. split.
  - Z.div_mod_to_equations. lia.
  - intros Hodd. exfalso. Z.div_mod_to_equations. lia.
Qed.

Lemma from_bytes_wf (b : Bytes) (n : Z) :
  0 <= n < 2 ^ 64 - 1 -> (n + 1) / 2 <= Z.of_nat (length b) ->
  wf_path (from_bytes b n).
Proof.
  intros Hn Hb. unfold wf_path.
  split; [cbn [from_bytes num_nibbles_]; lia|]. split.
  - rewrite from_bytes_length. cbn [from_bytes num_nibbles_].
    unfold size_t. rewrite Z.mod_small by lia.
    assert (0 <= (n + 1) / 2) by (apply Z.div_pos; lia). lia.
  - cbn [from_bytes num_nibbles_]. intros Hodd x. unfold from_bytes. cbn [bytes_].
    replace (n mod 2 =? 0) with false by (symmetry; apply Z.eqb_neq; lia).
    cbn [negb andb].
    set (bs := if (_ <? _)%nat then _ else _).
    destruct (decide (bs = [])) as [->|Hne].
    + rewrite bool_decide_eq_true_2 by reflexivity. cbn. discriminate.
    + rewrite bool_decide_eq_false_2 by exact Hne. cbn [negb].
      destruct bs as [|y l _] using rev_ind; [congruence|].
      rewrite clear_low_nibble_snoc, last_snoc. intros [= <-].
      rewrite unsigned_u8.
      destruct (clear_nibble_facts _ (unsigned_range256 y)) as (-> & H & _).
      exact H.
Qed.

Lemma get_nibble_range (p : NibblePath) (i v : Z) :
  get_nibble p i = Value v -> 0 <= v < 16.
Proof.
  unfold get_nibble. destruct (num_nibbles_ p <=? i); [discriminate|].
  destruct (bytes_ p !! Z.to_nat (i / 2)) as [b|]; [|discriminate].
  destruct (clear_nibble_facts _ (unsigned_range256 b)) as (_ & _ & _ & Hhi & Hlo & _).
  intros [= <-]. destruct (i mod 2 =? 0); assumption.
Qed.

(** X2. The class invariant of [NibblePath] (one byte per started pair of
    nibbles, zero padding in an odd-length path) holds for the empty path
    and for [from_binary], is established by [from_bytes] whenever the
    vector has at least ceil(n/2) bytes, and is kept by [push] and
    [pop]. *)
Theorem nibble_path_invariant :
  wf_path empty_path
  /\ (forall key, 2 * Z.of_nat (length key) < 2 ^ 64 -> wf_path (from_binary key))
  /\ (forall b n, 0 <= n < 2 ^ 64 - 1 -> (n + 1) / 2 <= Z.of_nat (length b) ->
        wf_path (from_bytes b n))
  /\ (forall p n p', wf_path p -> num_nibbles_ p + 1 < 2 ^ 64 -> 0 <= n <= 15 ->
        push p n = Some p' -> wf_path p')
  /\ (forall p, wf_path p -> wf_path (pop p)).
Proof.
  split; [exact wf_path_empty|]. split; [exact from_binary_wf|].
  split; [exact from_bytes_wf|]. split; [|exact pop_wf].
  intros p n p' Hwf Hmax Hn Hpush. exact (proj1 (push_wf p p' n Hwf Hmax Hn Hpush)).
Qed.

(** X3. Reading after [push]: on a path that satisfies the invariant, the
    nibble just pushed is read back at the old size, every nibble below
    it reads as before, the size grows by one, and a nibble above 15 is
    rejected with [std::invalid_argument] without a result. *)
Theorem get_nibble_push (p : NibblePath) (n : Z) :
  wf_path p -> num_nibbles_ p + 1 < 2 ^ 64 ->
  (15 < n -> push p n = None)
  /\ (0 <= n <= 15 ->
      exists p', push p n = Some p'
        /\ nibble_size p' = nibble_size p + 1
        /\ get_nibble p' (nibble_size p) = Value n
        /\ forall i, 0 <= i < nibble_size p -> get_nibble p' i = get_nibble p i).
Proof.
  intros Hwf Hmax. split.
  - intros Hbig. unfold push. destruct (Z.ltb_spec 15 n); [reflexivity|lia].
  - intros Hn. destruct (push_some p n Hn) as (p' & Hpush).
    exists p'. split; [exact Hpush|]. unfold nibble_size.
    split; [exact (proj2 (push_wf p p' n Hwf Hmax Hn Hpush))|].
    split; [exact (get_nibble_push_new p p' n Hwf Hmax Hn Hpush)|].
    intros i Hi. exact (get_nibble_push_old p p' n i Hwf Hmax Hn Hpush Hi).
Qed.

Lemma push_all_spec (l : list Z) :
  forall p,
    wf_path p -> num_nibbles_ p + Z.of_nat (length l) < 2 ^ 64 ->
    Forall (fun n => 0 <= n <= 15) l ->
    exists p',
      push_all p l = Some p'
      /\ wf_path p'
      /\ num_nibbles_ p' = num_nibbles_ p + Z.of_nat (length l)
      /\ (forall i, 0 <= i < num_nibbles_ p -> get_nibble p' i = get_nibble p i)
      /\ (forall (j : nat) n, l !! j = Some n ->
            get_nibble p' (num_nibbles_ p + Z.of_nat j) = Value n).
Proof.
  induction l as [|n l IH]; intros p Hwf Hroom Hall.
  - exists p. cbn [push_all length] in *. split; [reflexivity|].
    split; [exact Hwf|]. split; [lia|]. split; [reflexivity|].
    intros j x Hx. discriminate Hx.
  - apply Forall_cons_1 in Hall as [Hn Hall]. cbn [length] in Hroom.
    destruct (push_some p n Hn) as (p1 & Hpush).
    assert (Hmax : num_nibbles_ p + 1 < 2 ^ 64) by lia.
    destruct (push_wf p p1 n Hwf Hmax Hn Hpush) as [Hwf1 Hnum1].
    destruct (IH p1 Hwf1 ltac:(lia) Hall) as (p' & Hrun & Hwf' & Hnum' & Hold & Hnew).
    exists p'. cbn [push_all]. rewrite Hpush.
    split; [exact Hrun|]. split; [exact Hwf'|].
    split; [cbn [length]; lia|]. split.
    + intros i Hi. rewrite Hold by lia.
      exact (get_nibble_push_old p p1 n i Hwf Hmax Hn Hpush Hi).
    + intros [|j] x Hx.
      * cbn in Hx. injection Hx as <-. rewrite Z.add_0_r.
        pose proof Hwf as (Hrange & _).
        rewrite Hold by lia.
        exact (get_nibble_push_new p p1 n Hwf Hmax Hn Hpush).
      * cbn in Hx. specialize (Hnew j x Hx).
        rewrite Hnum1 in Hnew.
        replace (num_nibbles_ p + Z.of_nat (S j))
          with (num_nibbles_ p + 1 + Z.of_nat j) by lia.
        exact Hnew.
Qed.

(** X4. A path built by pushing a list of nibbles (each 0..15) onto the
    empty path has the list's length as its size and reads back the list:
    [get_nibble i] is the i-th nibble pushed, and an index at or past the
    size throws [std::out_of_range]. *)
Theorem push_all_reads (l : list Z) :
  Z.of_nat (length l) < 2 ^ 64 ->
  Forall (fun n => 0 <= n <= 15) l ->
  exists p,
    push_all empty_path l = Some p
    /\ nibble_size p = Z.of_nat (length l)
    /\ (forall (i : nat) n, l !! i = Some n -> get_nibble p (Z.of_nat i) = Value n)
    /\ (forall i, Z.of_nat (length l) <= i -> get_nibble p i = ThrowsOutOfRange).
Proof.
  intros Hlen Hall.
  destruct (push_all_spec l empty_path wf_path_empty ltac:(cbn; lia) Hall)
    as (p & Hrun & Hwf & Hnum & _ & Hnew).
  cbn [empty_path num_nibbles_] in Hnum, Hnew. rewrite Z.add_0_l in Hnum.
  exists p. split; [exact Hrun|]. split; [exact Hnum|]. split.
  - intros i n Hi. specialize (Hnew i n Hi). rewrite Z.add_0_l in Hnew. exact Hnew.
  - intros i Hi. unfold get_nibble. rewrite Hnum.
    destruct (Z.leb_spec (Z.of_nat (length l)) i); [reflexivity|lia].
Qed.

Lemma from_bytes_restores (p : NibblePath) (extra : Bytes) :
  wf_path p -> num_nibbles_ p + 1 < 2 ^ 64 ->
  from_bytes (bytes_ p ++ extra) (nibble_size p) = p.
Proof.
  intros Hwf Hmax. pose proof Hwf as (Hrange & Hlen & Hpad).
  destruct p as [bs num]. cbn [num_nibbles_ bytes_ nibble_size] in *.
  unfold from_bytes, size_t. rewrite (Z.mod_small (num + 1)) by lia.
  rewrite <- Hlen, Nat2Z.id.
  assert (Hbs : (if (length bs <? length (bs ++ extra))%nat
                 then take (length bs) (bs ++ extra) else bs ++ extra) = bs).
  { destruct (Nat.ltb_spec (length bs) (length (bs ++ extra))) as [|Hge].
    - apply take_app_length.
    - rewrite length_app in Hge. destruct extra; [apply app_nil_r|].
      cbn [length] in Hge. lia. }
  rewrite Hbs.
  destruct (mod2_cases num) as [Heven|Hodd].
  - rewrite Heven. reflexivity.
  - rewrite Hodd. cbn [Z.eqb negb andb].
    destruct (wf_path_odd _ Hwf Hodd) as (l & b & Hb & Hlow & _).
    cbn [bytes_] in Hb. subst bs.
    rewrite bool_decide_eq_false_2 by (intros H; apply app_eq_nil in H as [_ [=]]).
    cbn [negb]. rewrite clear_low_nibble_clean by exact Hlow. reflexivity.
Qed.

(** X5. [from_bytes] restores a path from its own packed bytes and size,
    also when further bytes follow them: for a path that satisfies the
    invariant, [from_bytes (bytes p ++ extra) (size p) = p]. *)
Theorem from_bytes_roundtrip (p : NibblePath) (extra : Bytes) :
  wf_path p -> num_nibbles_ p + 1 < 2 ^ 64 ->
  from_bytes (bytes_ p ++ extra) (nibble_size p) = p.
Proof. exact (from_bytes_restores p extra). Qed.

(** ** Ordering of paths and node keys *)

Lemma bytes_compare_eq (a b : Bytes) : bytes_compare a b = Eq <-> a = b.
Proof.
  revert b. induction a as [|x a IH]; intros [|y b]; cbn [bytes_compare];
    try (split; [discriminate|discriminate]); [split; reflexivity|].
  destruct (Z.compare_spec (byte.unsigned x) (byte.unsigned y)) as [Heq|Hlt|Hgt].
  - apply byte.unsigned_inj in Heq. subst y. rewrite IH.
    split; [intros ->; reflexivity|intros [= ->]; reflexivity].
  - split; [discriminate|intros [= -> _]; lia].
  - split; [discriminate|intros [= -> _]; lia].
Qed.

Lemma bytes_compare_antisym (a b : Bytes) :
  bytes_compare b a = CompOpp (bytes_compare a b).
Proof.
  revert b. induction a as [|x a IH]; intros [|y b]; cbn [bytes_compare];
    try reflexivity.
  rewrite (Z.compare_antisym (byte.unsigned x) (byte.unsigned y)).
  destruct (byte.unsigned x ?= byte.unsigned y); cbn [CompOpp]; auto.
Qed.

Lemma bytes_compare_trans (a b c : Bytes) :
  bytes_compare a b = Lt -> bytes_compare b c = Lt -> bytes_compare a c = Lt.
Proof.
  revert b c. induction a as [|x a IH]; intros [|y b] [|z c];
    cbn [bytes_compare]; try discriminate; try reflexivity.
  destruct (Z.compare_spec (byte.unsigned x) (byte.unsigned y)) as [Hxy|Hxy|Hxy];
    destruct (Z.compare_spec (byte.unsigned y) (byte.unsigned z)) as [Hyz|Hyz|Hyz];
    try discriminate; intros H1 H2.
  - rewrite Hxy, Hyz, Z.compare_refl. eauto.
  - replace (byte.unsigned x ?= byte.unsigned z) with Lt
      by (symmetry; apply Z.compare_lt_iff; lia). reflexivity.
  - replace (byte.unsigned x ?= byte.unsigned z) with Lt
      by (symmetry; apply Z.compare_lt_iff; lia). reflexivity.
  - replace (byte.unsigned x ?= byte.unsigned z) with Lt
      by (symmetry; apply Z.compare_lt_iff; lia). reflexivity.
Qed.

Lemma NibblePath_compare_eq (p q : NibblePath) :
  NibblePath_compare p q = Eq <-> p = q.
Proof.
  unfold NibblePath_compare. destruct p as [bp np], q as [bq nq].
  cbn [num_nibbles_ bytes_].
  destruct (Z.compare_spec np nq) as [->|H|H].
  - rewrite bytes_compare_eq. split; [intros ->; reflexivity|intros [= ->]; reflexivity].
  - split; [discriminate|intros [= _ ->]; lia].
  - split; [discriminate|intros [= _ ->]; lia].
Qed.

Lemma NibblePath_compare_antisym (p q : NibblePath) :
  NibblePath_compare q p = CompOpp (NibblePath_compare p q).
Proof.
  unfold NibblePath_compare.
  rewrite (Z.compare_antisym (num_nibbles_ p) (num_nibbles_ q)).
  destruct (num_nibbles_ p ?= num_nibbles_ q); cbn [CompOpp];
    auto using bytes_compare_antisym.
Qed.

Lemma NibblePath_compare_trans (p q r : NibblePath) :
  NibblePath_compare p q = Lt -> NibblePath_compare q r = Lt ->
  NibblePath_compare p r = Lt.
Proof.
  unfold NibblePath_compare.
  destruct (Z.compare_spec (num_nibbles_ p) (num_nibbles_ q)) as [Hpq|Hpq|Hpq];
    destruct (Z.compare_spec (num_nibbles_ q) (num_nibbles_ r)) as [Hqr|Hqr|Hqr];
    try discriminate; intros H1 H2.
  - rewrite Hpq, Hqr, Z.compare_refl. eauto using bytes_compare_trans.
  - replace (num_nibbles_ p ?= num_nibbles_ r) with Lt
      by (symmetry; apply Z.compare_lt_iff; lia). reflexivity.
  - replace (num_nibbles_ p ?= num_nibbles_ r) with Lt
      by (symmetry; apply Z.compare_lt_iff; lia). reflexivity.
  - replace (num_nibbles_ p ?= num_nibbles_ r) with Lt
      by (symmetry; apply Z.compare_lt_iff; lia). reflexivity.
Qed.

(** X6. [NibblePath::operator<=>] is a strict total order that agrees
    with [operator==]: two paths compare equal exactly when they have the
    same count and the same packed bytes, swapping the arguments reverses
    the result, "less" is transitive, and a path with fewer nibbles comes
    before a longer one whatever the bytes. *)
Theorem NibblePath_compare_total_order (p q r : NibblePath) :
  (NibblePath_compare p q = Eq <-> p = q)
  /\ NibblePath_compare q p = CompOpp (NibblePath_compare p q)
  /\ (NibblePath_compare p q = Lt -> NibblePath_compare q r = Lt ->
      NibblePath_compare p r = Lt)
  /\ (num_nibbles_ p < num_nibbles_ q -> NibblePath_compare p q = Lt).
Proof.
  split; [apply NibblePath_compare_eq|].
  split; [apply NibblePath_compare_antisym|].
  split; [apply NibblePath_compare_trans|].
  intros Hlt. unfold NibblePath_compare.
  replace (num_nibbles_ p ?= num_nibbles_ q) with Lt
    by (symmetry; apply Z.compare_lt_iff; exact Hlt).
  reflexivity.
Qed.

(** X7. [NodeKey::operator<=>] is a strict total order by version first
    and path second: keys compare equal exactly when they are equal,
    swapping the arguments reverses the result, "less" is transitive, and
    a key of a smaller version comes first whatever the paths. *)
Theorem NodeKey_compare_total_order (k1 k2 k3 : NodeKey) :
  (NodeKey_compare k1 k2 = Eq <-> k1 = k2)
  /\ NodeKey_compare k2 k1 = CompOpp (NodeKey_compare k1 k2)
  /\ (NodeKey_compare k1 k2 = Lt -> NodeKey_compare k2 k3 = Lt ->
      NodeKey_compare k1 k3 = Lt)
  /\ (nk_version k1 < nk_version k2 -> NodeKey_compare k1 k2 = Lt)
  /\ (nk_version k1 = nk_version k2 ->
      NodeKey_compare k1 k2 = NibblePath_compare (nibble_path k1) (nibble_path k2)).
Proof.
  unfold NodeKey_compare. repeat split.
  - destruct k1 as [v1 p1], k2 as [v2 p2]. cbn [nk_version nibble_path].
    destruct (Z.compare_spec v1 v2) as [->|H|H]; try discriminate.
    intros Hp. apply NibblePath_compare_eq in Hp. subst. reflexivity.
  - intros ->. rewrite Z.compare_refl. apply NibblePath_compare_eq. reflexivity.
  - rewrite (Z.compare_antisym (nk_version k1) (nk_version k2)).
    destruct (nk_version k1 ?= nk_version k2); cbn [CompOpp];
      auto using NibblePath_compare_antisym.
  - destruct (Z.compare_spec (nk_version k1) (nk_version k2)) as [H12|H12|H12];
      destruct (Z.compare_spec (nk_version k2) (nk_version k3)) as [H23|H23|H23];
      try discriminate; intros H1 H2.
    + rewrite H12, H23, Z.compare_refl. eauto using NibblePath_compare_trans.
    + replace (nk_version k1 ?= nk_version k3) with Lt
        by (symmetry; apply Z.compare_lt_iff; lia). reflexivity.
    + replace (nk_version k1 ?= nk_version k3) with Lt
        by (symmetry; apply Z.compare_lt_iff; lia). reflexivity.
    + replace (nk_version k1 ?= nk_version k3) with Lt
        by (symmetry; apply Z.compare_lt_iff; lia). reflexivity.
  - intros Hlt.
    replace (nk_version k1 ?= nk_version k2) with Lt
      by (symmetry; apply Z.compare_lt_iff; exact Hlt).
    reflexivity.
  - intros ->. rewrite Z.compare_refl. reflexivity.
Qed.

(** ** NodeKey serialization *)

Lemma push_u32_le_split (v : Z) : push_u32_le v = le_split 4 v.
Proof. unfold push_u32_le. rewrite push_le_split. reflexivity. Qed.

Lemma length_push_u32_le (v : Z) : length (push_u32_le v) = 4%nat.
Proof. rewrite push_u32_le_split. apply length_le_split. Qed.

Lemma read_u32_le_combine (bytes : Bytes) (pos : nat) :
  (pos + 4 <= length bytes)%nat ->
  read_u32_le bytes pos = le_combine (take 4 (drop pos bytes)).
Proof. intros H. unfold read_u32_le. apply read_le_prefix; lia. Qed.

Lemma read_u32_range (bytes : Bytes) (pos : nat) :
  (pos + 4 <= length bytes)%nat -> 0 <= read_u32_le bytes pos < 2 ^ 32.
Proof.
  intros H. rewrite read_u32_le_combine by exact H.
  pose proof (le_combine_bound (take 4 (drop pos bytes))) as Hb.
  rewrite length_take, length_drop in Hb.
  replace (4 `min` (length bytes - pos))%nat with 4%nat in Hb by lia.
  exact Hb.
Qed.

Lemma read_u64_range (bytes : Bytes) (pos : nat) :
  (pos + 8 <= length bytes)%nat -> 0 <= read_u64_le bytes pos < 2 ^ 64.
Proof.
  intros H. rewrite read_u64_le_combine by exact H.
  pose proof (le_combine_bound (take 8 (drop pos bytes))) as Hb.
  rewrite length_take, length_drop in Hb.
  replace (8 `min` (length bytes - pos))%nat with 8%nat in Hb by lia.
  exact Hb.
Qed.

Lemma read_push_u32 (pre suf : Bytes) (v : Z) :
  0 <= v < 2 ^ 32 ->
  read_u32_le (pre ++ push_u32_le v ++ suf) (length pre) = v.
Proof.
  intros Hv. rewrite read_u32_le_combine.
  - rewrite drop_app_length.
    rewrite (take_app_length' (push_u32_le v) suf 4 (length_push_u32_le v)).
    rewrite push_u32_le_split, le_combine_split. apply Z.mod_small. exact Hv.
  - rewrite !length_app, length_push_u32_le. lia.
Qed.

Lemma wf_path_length (p : NibblePath) :
  wf_path p -> Z.of_nat (length (bytes_ p)) = (num_nibbles_ p + 1) / 2.
Proof. intros (_ & H & _). exact H. Qed.

Lemma NodeKey_deserialize_serialize (k : NodeKey) (extra : Bytes) :
  wf_key k -> NodeKey_deserialize (NodeKey_serialize k ++ extra) = Some k.
Proof.
  intros (Hv & Hwf & Hlen32). pose proof Hwf as (Hrange & Hlen & _).
  destruct k as [v p]. cbn [nk_version nibble_path] in *.
  unfold NodeKey_deserialize, NodeKey_serialize. cbn [nk_version nibble_path].
  set (bytes := (push_u64_le v ++ push_u32_le (nibble_size p) ++ bytes_ p) ++ extra).
  assert (Hbytes : bytes = push_u64_le v ++ push_u32_le (nibble_size p)
                            ++ bytes_ p ++ extra)
    by (unfold bytes; rewrite <- !app_assoc; reflexivity).
  assert (Hl : length bytes = (12 + length (bytes_ p) + length extra)%nat).
  { rewrite Hbytes, !length_app, length_push_u64_le, length_push_u32_le. lia. }
  destruct (Nat.ltb_spec (length bytes) 12) as [|_]; [lia|].
  assert (Hver : read_u64_le bytes 0 = v).
  { rewrite Hbytes. exact (read_push_u64 [] _ v Hv). }
  assert (Hlen' : read_u32_le bytes 8 = num_nibbles_ p).
  { rewrite Hbytes.
    apply (read_push_u32 (push_u64_le v) (bytes_ p ++ extra) (num_nibbles_ p)).
    lia. }
  rewrite Hver, Hlen'. unfold size_t at 2.
  rewrite (Z.mod_small (num_nibbles_ p + 1)) by lia.
  unfold size_t. rewrite Z.mod_small
    by (assert (0 <= (num_nibbles_ p + 1) / 2 < 2 ^ 32)
          by (Z.div_mod_to_equations; lia); lia).
  destruct (Z.ltb_spec (Z.of_nat (length bytes)) (12 + (num_nibbles_ p + 1) / 2));
    [lia|].
  f_equal. f_equal.
  assert (Hdrop : drop 12 bytes = bytes_ p ++ extra).
  { rewrite Hbytes, app_assoc. apply drop_app_length'.
    rewrite length_app, length_push_u64_le, length_push_u32_le. reflexivity. }
  rewrite Hdrop.
  apply (from_bytes_restores p extra Hwf). lia.
Qed.

Lemma NodeKey_serialize_length (k : NodeKey) :
  length (NodeKey_serialize k) = (12 + length (bytes_ (nibble_path k)))%nat.
Proof.
  unfold NodeKey_serialize.
  rewrite !length_app, length_push_u64_le, length_push_u32_le. lia.
Qed.

(** X8. Node keys round-trip through their byte form: for a key whose
    path satisfies the invariant and has fewer than 2^32 nibbles,
    [deserialize (serialize k)] is [k], also when further bytes follow
    the encoding (they are ignored); the encoding has 12 + ceil(size/2)
    bytes, and two such keys with the same bytes are the same key. *)
Theorem NodeKey_serialize_roundtrip (k : NodeKey) (extra : Bytes) :
  wf_key k ->
  NodeKey_deserialize (NodeKey_serialize k ++ extra) = Some k
  /\ Z.of_nat (length (NodeKey_serialize k))
     = 12 + (nibble_size (nibble_path k) + 1) / 2
  /\ (forall k', wf_key k' -> NodeKey_serialize k' = NodeKey_serialize k -> k' = k).
Proof.
  intros Hk. split; [exact (NodeKey_deserialize_serialize k extra Hk)|]. split.
  - rewrite NodeKey_serialize_length. destruct Hk as (_ & Hwf & _).
    pose proof (wf_path_length _ Hwf). unfold nibble_size. lia.
  - intros k' Hk' Heq.
    pose proof (NodeKey_deserialize_serialize k [] Hk) as H1.
    pose proof (NodeKey_deserialize_serialize k' [] Hk') as H2.
    rewrite Heq, H1 in H2. injection H2 as ->. reflexivity.
Qed.

Lemma NodeKey_deserialize_inv (bytes : Bytes) (k : NodeKey) :
  NodeKey_deserialize bytes = Some k ->
  (12 <= length bytes)%nat
  /\ 12 + (read_u32_le bytes 8 + 1) / 2 <= Z.of_nat (length bytes)
  /\ k = mkNodeKey (read_u64_le bytes 0) (from_bytes (drop 12 bytes) (read_u32_le bytes 8)).
Proof.
  unfold NodeKey_deserialize.
  destruct (Nat.ltb_spec (length bytes) 12) as [|Hlen]; [discriminate|].
  pose proof (read_u32_range bytes 8 ltac:(lia)) as Hr.
  unfold size_t at 2. rewrite (Z.mod_small (read_u32_le bytes 8 + 1)) by lia.
  unfold size_t. rewrite Z.mod_small
    by (assert (0 <= (read_u32_le bytes 8 + 1) / 2 < 2 ^ 32)
          by (Z.div_mod_to_equations; lia); lia).
  destruct (Z.ltb_spec (Z.of_nat (length bytes))
              (12 + (read_u32_le bytes 8 + 1) / 2)); [discriminate|].
  intros [= <-]. auto.
Qed.

(** X9. [NodeKey::deserialize] refuses a buffer shorter than the 12-byte
    header, and one with fewer path bytes than the length field asks for;
    whatever it accepts is a key whose version and length are the
    little-endian header fields, whose path satisfies the invariant, and
    in which every nibble below the size reads a value 0..15 from inside
    the stored bytes. *)
Theorem NodeKey_deserialize_sound (bytes : Bytes) :
  ((length bytes < 12)%nat -> NodeKey_deserialize bytes = None)
  /\ ((12 <= length bytes)%nat ->
      Z.of_nat (length bytes) < 12 + (le_combine (take 4 (drop 8 bytes)) + 1) / 2 ->
      NodeKey_deserialize bytes = None)
  /\ (forall k, NodeKey_deserialize bytes = Some k ->
        wf_key k
        /\ nk_version k = le_combine (take 8 bytes)
        /\ nibble_size (nibble_path k) = le_combine (take 4 (drop 8 bytes))
        /\ forall i, 0 <= i < nibble_size (nibble_path k) ->
             exists v, get_nibble (nibble_path k) i = Value v /\ 0 <= v < 16).
Proof.
  split; [|split].
  - intros Hlen. unfold NodeKey_deserialize.
    destruct (Nat.ltb_spec (length bytes) 12); [reflexivity|lia].
  - intros Hlen Hshort.
    destruct (NodeKey_deserialize bytes) as [k|] eqn:Hd; [|reflexivity].
    apply NodeKey_deserialize_inv in Hd as (_ & Hok & _).
    rewrite read_u32_le_combine in Hok by lia. lia.
  - intros k Hd. apply NodeKey_deserialize_inv in Hd as (Hlen & Hok & ->).
    pose proof (read_u32_range bytes 8 ltac:(lia)) as Hr.
    pose proof (read_u64_range bytes 0 ltac:(lia)) as Hv.
    assert (Hpath : (read_u32_le bytes 8 + 1) / 2 <= Z.of_nat (length (drop 12 bytes)))
      by (rewrite length_drop; lia).
    cbn [nk_version nibble_path]. split; [|split; [|split]].
    + split; [exact Hv|]. cbn [nk_version nibble_path].
      split; [apply from_bytes_wf; [lia|exact Hpath]|].
      cbn [from_bytes num_nibbles_]. lia.
    + rewrite read_u64_le_combine by lia. reflexivity.
    + unfold nibble_size. cbn [from_bytes num_nibbles_].
      apply read_u32_le_combine. lia.
    + unfold nibble_size. cbn [from_bytes num_nibbles_]. intros i Hi.
      destruct (from_bytes_reads_in_bounds (drop 12 bytes) (read_u32_le bytes 8) i
                  ltac:(lia) Hpath Hi) as [v Hget].
      exists v. split; [exact Hget|]. exact (get_nibble_range _ _ _ Hget).
Qed.

(** ** The presence mask as a set of nibbles *)

Lemma wf_mask_ext (a b : Z) :
  wf_mask a -> wf_mask b ->
  (forall i, (i < 16)%nat -> Z.testbit a (Z.of_nat i) = Z.testbit b (Z.of_nat i)) ->
  a = b.
Proof.
  intros Ha Hb Hbits. rewrite <- (u16_small a Ha), <- (u16_small b Hb).
  apply Z.bits_inj'. intros n Hn.
  rewrite <- (Z2Nat.id n Hn), !testbit_u16.
  destruct (Nat.ltb_spec (Z.to_nat n) 16) as [Hlt|]; [|rewrite !andb_false_r; reflexivity].
  rewrite (Hbits _ Hlt). reflexivity.
Qed.

Lemma bitmap_set_present (b : SparseBitmap) (n : nat) :
  wf_mask (mask_ b) -> (n < 16)%nat -> bitmap_exists b n = true ->
  bitmap_set b n = b.
Proof.
  intros Hwf Hn Hbit.
  assert (Hm : mask_ (bitmap_set b n) = mask_ b).
  { apply wf_mask_ext; [apply bitmap_set_wf|exact Hwf|].
    intros i Hi. rewrite (bitmap_set_testbit b n i Hi).
    rewrite bitmap_exists_testbit in Hbit.
    destruct (Nat.eqb_spec i n) as [->|]; [rewrite Hbit|rewrite orb_false_r]; reflexivity. }
  destruct b as [m]. unfold bitmap_set in *. cbn [mask_] in *. rewrite Hm. reflexivity.
Qed.

Lemma count_bits_zero (x : Z) (n : nat) :
  count_bits x n = 0%nat <->
  forall i, (i < n)%nat -> Z.testbit x (Z.of_nat i) = false.
Proof.
  induction n as [|n IH]; cbn [count_bits].
  - split; [intros _ i Hi; lia|reflexivity].
  - split.
    + intros H i Hi. destruct (Z.testbit x (Z.of_nat n)) eqn:Hb; [lia|].
      destruct (decide (i = n)) as [->|]; [exact Hb|].
      apply IH; lia.
    + intros H. rewrite (H n) by lia.
      rewrite (proj2 IH) by (intros; apply H; lia). reflexivity.
Qed.

(** X10. The presence mask behaves as a set of nibbles 0..15: after
    [set n] exactly the old nibbles and [n] exist, the child count grows
    by one for a new nibble and not at all for one already present
    (setting it again changes nothing), and the mask is empty exactly
    when no nibble exists, which is when the count is zero. *)
Theorem sparse_bitmap_set_laws (b : SparseBitmap) (n : nat) :
  wf_mask (mask_ b) -> (n < 16)%nat ->
  (forall m, (m < 16)%nat ->
     bitmap_exists (bitmap_set b n) m = bitmap_exists b m || (m =? n)%nat)
  /\ total_children (bitmap_set b n)
     = (total_children b + if bitmap_exists b n then 0 else 1)%nat
  /\ (bitmap_exists b n = true -> bitmap_set b n = b)
  /\ wf_mask (mask_ (bitmap_set b n))
  /\ (bitmap_empty b = true <-> total_children b = 0%nat)
  /\ (bitmap_empty b = true <->
      forall m, (m < 16)%nat -> bitmap_exists b m = false)
  /\ bitmap_empty (bitmap_set b n) = false.
Proof.
  intros Hwf Hn.
  assert (Hempty : bitmap_empty b = true <->
                   forall m, (m < 16)%nat -> bitmap_exists b m = false).
  { unfold bitmap_empty. rewrite Z.eqb_eq. split.
    - intros H0 m Hm. rewrite bitmap_exists_testbit, H0. apply Z.testbit_0_l.
    - intros H. apply wf_mask_ext; [exact Hwf|unfold wf_mask; lia|].
      intros i Hi. rewrite Z.testbit_0_l, <- bitmap_exists_testbit. apply H. exact Hi. }
  split; [|split; [|split; [|split; [|split; [|split]]]]].
  - intros m Hm. rewrite !bitmap_exists_testbit. apply bitmap_set_testbit. exact Hm.
  - destruct (bitmap_exists b n) eqn:Hbit.
    + rewrite (bitmap_set_present b n Hwf Hn Hbit). lia.
    + unfold total_children, popcount.
      rewrite bitmap_exists_testbit in Hbit.
      rewrite (count_bits_set b n 16 Hn ltac:(lia) Hbit).
      destruct (Nat.ltb_spec n 16); lia.
  - apply bitmap_set_present; assumption.
  - apply bitmap_set_wf.
  - rewrite Hempty. unfold total_children, popcount. rewrite count_bits_zero.
    split; intros H m Hm; [rewrite <- bitmap_exists_testbit|rewrite bitmap_exists_testbit];
      apply H; exact Hm.
  - exact Hempty.
  - destruct (bitmap_empty (bitmap_set b n)) eqn:He; [|reflexivity].
    unfold bitmap_empty in He. apply Z.eqb_eq in He.
    pose proof (bitmap_set_testbit b n n Hn) as Hb.
    rewrite He, Z.testbit_0_l, Nat.eqb_refl, orb_true_r in Hb. discriminate Hb.
Qed.

Lemma count_bits_onto (x : Z) (N k : nat) :
  (k < count_bits x N)%nat ->
  exists n, (n < N)%nat /\ Z.testbit x (Z.of_nat n) = true /\ count_bits x n = k.
Proof.
  induction N as [|N IH]; cbn [count_bits]; intros Hk; [lia|].
  destruct (decide (k < count_bits x N)%nat) as [Hlt|Hge].
  - destruct (IH Hlt) as (n & Hn & Hbit & Hc). exists n. split; [lia|auto].
  - destruct (Z.testbit x (Z.of_nat N)) eqn:Hbit; [|lia].
    exists N. split; [lia|]. split; [exact Hbit|lia].
Qed.

(** X11. [get_index] maps the present nibbles, in ascending order, onto
    the dense indices 0 .. total_children-1: it is strictly increasing
    over present nibbles, stays below [total_children], and every dense
    index is the index of some present nibble. *)
Theorem get_index_dense (b : SparseBitmap) :
  (forall n m, (n < m)%nat -> (m < 16)%nat ->
     bitmap_exists b n = true -> (get_index b n < get_index b m)%nat)
  /\ (forall n, (n < 16)%nat -> bitmap_exists b n = true ->
        (get_index b n < total_children b)%nat)
  /\ (forall k, (k < total_children b)%nat ->
        exists n, (n < 16)%nat /\ bitmap_exists b n = true /\ get_index b n = k).
Proof.
  split; [|split].
  - intros n m Hnm Hm Hbit. rewrite !get_index_count by lia.
    rewrite bitmap_exists_testbit in Hbit.
    apply count_bits_present; assumption.
  - apply get_index_lt.
  - intros k Hk. destruct (count_bits_onto (mask_ b) 16 k Hk) as (n & Hn & Hbit & Hc).
    exists n. split; [exact Hn|]. rewrite bitmap_exists_testbit, get_index_count by lia.
    auto.
Qed.

(** ** set_child on an arbitrary well-formed node *)

Lemma represents_self (node : InternalNode) :
  wf_mask (mask_ (bitmap node)) ->
  length (children node) = popcount (mask_ (bitmap node)) ->
  represents node (get_child node).
Proof.
  intros Hwf Hlen. split; [exact Hwf|]. split; [|exact (children_ascending node Hlen)].
  intros i Hi. rewrite <- bitmap_exists_testbit. split.
  - intros Hbit. exact (get_child_in_range node i Hlen Hi Hbit).
  - intros [c Hc]. unfold get_child in Hc.
    destruct (bitmap_exists (bitmap node) i); [reflexivity|discriminate Hc].
Qed.

Lemma set_child_exists (node : InternalNode) (n : nat) (h : Hash) (v : Z) :
  wf_mask (mask_ (bitmap node)) -> (n < 16)%nat ->
  bitmap (set_child node n h v) = bitmap_set (bitmap node) n.
Proof.
  intros Hwf Hn. unfold set_child.
  destruct (bitmap_exists (bitmap node) n) eqn:Hbit; cbn [negb bitmap]; [|reflexivity].
  symmetry. apply bitmap_set_present; assumption.
Qed.

Lemma set_child_wf_children (node : InternalNode) (n : nat) (h : Hash) (v : Z) :
  Forall wf_child (children node) -> wf_hash h -> 0 <= v < 2 ^ 64 ->
  Forall wf_child (children (set_child node n h v)).
Proof.
  intros Hcs Hh Hv. unfold set_child.
  assert (Hinfo : wf_child (mkChildInfo h v)) by (split; assumption).
  destruct (negb (bitmap_exists (bitmap node) n)); cbn [children].
  - apply Forall_app. split; [apply Forall_take; exact Hcs|].
    constructor; [exact Hinfo|apply Forall_drop; exact Hcs].
  - apply Forall_insert; assumption.
Qed.

(** X12. [set_child] and [get_child] on any internal node with one
    descriptor per set bit (for instance a deserialized one): after
    [set_child n h v], [get_child n] is the new descriptor, every other
    nibble reads as before, the node is never empty, the child count
    grows by one exactly when [n] was absent, and the node still has one
    well-formed descriptor per set bit. *)
Theorem set_child_get_child (node : InternalNode) (n : nat) (h : Hash) (v : Z) :
  wf_internal node -> (n < 16)%nat -> wf_hash h -> 0 <= v < 2 ^ 64 ->
  let node' := set_child node n h v in
  get_child node' n = Some (mkChildInfo h v)
  /\ (forall m, (m < 16)%nat -> m <> n -> get_child node' m = get_child node m)
  /\ wf_internal node'
  /\ is_empty node' = false
  /\ child_count node'
     = (child_count node + if bitmap_exists (bitmap node) n then 0 else 1)%nat.
Proof.
  intros (Hwf & Hlen & Hcs) Hn Hh Hv node'.
  pose proof (represents_set_child node _ n h v (represents_self node Hwf Hlen) Hn)
    as Hrep.
  fold node' in Hrep.
  assert (Hbm : bitmap node' = bitmap_set (bitmap node) n)
    by (apply set_child_exists; assumption).
  split; [|split; [|split; [|split]]].
  - rewrite (represents_get_child _ _ n Hrep Hn), Nat.eqb_refl. reflexivity.
  - intros m Hm Hne. rewrite (represents_get_child _ _ m Hrep Hm).
    destruct (Nat.eqb_spec m n); [contradiction|reflexivity].
  - split; [exact (proj1 Hrep)|]. split; [exact (represents_length _ _ Hrep)|].
    apply set_child_wf_children; assumption.
  - unfold is_empty. rewrite Hbm.
    destruct (bitmap_empty (bitmap_set (bitmap node) n)) eqn:He; [|reflexivity].
    unfold bitmap_empty in He. apply Z.eqb_eq in He.
    pose proof (bitmap_set_testbit (bitmap node) n n Hn) as Hb.
    rewrite He, Z.testbit_0_l, Nat.eqb_refl, orb_true_r in Hb. discriminate Hb.
  - unfold child_count. rewrite Hbm.
    destruct (bitmap_exists (bitmap node) n) eqn:Hbit.
    + rewrite (bitmap_set_present _ n Hwf Hn Hbit). lia.
    + unfold total_children, popcount. rewrite bitmap_exists_testbit in Hbit.
      rewrite (count_bits_set _ n 16 Hn ltac:(lia) Hbit).
      destruct (Nat.ltb_spec n 16); lia.
Qed.

Lemma represents_unique (n1 n2 : InternalNode) f1 f2 :
  represents n1 f1 -> represents n2 f2 ->
  (forall i, (i < 16)%nat -> f1 i = f2 i) ->
  n1 = n2.
Proof.
  intros (Hwf1 & Hb1 & Hc1) (Hwf2 & Hb2 & Hc2) Hf.
  destruct n1 as [[m1] cs1], n2 as [[m2] cs2]. cbn [bitmap children mask_] in *.
  assert (m1 = m2).
  { apply wf_mask_ext; [assumption..|]. intros i Hi.
    destruct (Z.testbit m1 (Z.of_nat i)) eqn:H1, (Z.testbit m2 (Z.of_nat i)) eqn:H2;
      try reflexivity.
    - apply Hb1 in H1; [|exact Hi]. rewrite (Hf i Hi) in H1.
      apply Hb2 in H1; [|exact Hi]. congruence.
    - apply Hb2 in H2; [|exact Hi]. rewrite <- (Hf i Hi) in H2.
      apply Hb1 in H2; [|exact Hi]. congruence. }
  subst m2. f_equal. rewrite Hc1, Hc2. apply omap_ext_in.
  intros i Hi%list_elem_of_In%in_seq. apply Hf. lia.
Qed.

(** X13. The stored form of an internal node does not depend on the
    order in which its children were set: two sequences of [set_child]
    calls on the empty node that leave the same last descriptor for every
    nibble build the same node, with the same mask and the same child
    list, hence the same canonical bytes. *)
Theorem set_children_order_independent (ops1 ops2 : list (nat * Hash * Z)) :
  Forall (fun op => (op.1.1 < 16)%nat) ops1 ->
  Forall (fun op => (op.1.1 < 16)%nat) ops2 ->
  (forall n, (n < 16)%nat -> last_set ops1 n = last_set ops2 n) ->
  set_children ops1 empty_internal = set_children ops2 empty_internal
  /\ internal_serialize_canonical (set_children ops1 empty_internal)
     = internal_serialize_canonical (set_children ops2 empty_internal).
Proof.
  intros H1 H2 Hsame.
  assert (Heq : set_children ops1 empty_internal = set_children ops2 empty_internal).
  { apply (represents_unique _ _ (last_set ops1) (last_set ops2)).
    - apply set_children_represents. exact H1.
    - apply set_children_represents. exact H2.
    - exact Hsame. }
  split; [exact Heq|]. rewrite Heq. reflexivity.
Qed.

(** ** Canonical bytes identify the node *)

Lemma decode_framed (N : Node) :
  wf_node N ->
  deserialize_node_from_bytes (serialize_node_with_prefix N) = Some N.
Proof.
  destruct N as [[[m] cs]|[k v]]; cbn [wf_node serialize_node_with_prefix].
  - intros (Hm & Hlen & Hwf). cbn [bitmap children mask_] in *.
    unfold internal_serialize_canonical, raw_mask. cbn [bitmap children mask_].
    rewrite deserialize_internal_eq by reflexivity.
    assert (Hmask : mask_of (u8 (Z.land m 255)) (u8 (Z.land (Z.shiftr m 8) 255)) = m)
      by (apply mask_bytes_decode; exact Hm).
    rewrite Hmask, <- Hlen.
    set (pre := [u8 1; u8 (Z.land m 255); u8 (Z.land (Z.shiftr m 8) 255)]).
    change (u8 1 :: _ :: _ :: flat_map serialize_child cs)
      with (pre ++ flat_map serialize_child cs).
    rewrite <- (app_nil_r (flat_map serialize_child cs)).
    change 3%nat with (length pre) at 1.
    rewrite read_children_serialized by exact Hwf.
    rewrite app_nil_r, length_app, length_flat_serialize
      by (eapply Forall_impl; [exact Hwf|intros ? []; assumption]).
    rewrite Nat.eqb_refl. reflexivity.
  - intros [Hk Hv]. unfold wf_hash, HASH_SIZE in *. cbn [account_key value_hash] in *.
    rewrite deserialize_leaf_eq by reflexivity.
    unfold leaf_serialize_canonical. cbn [account_key value_hash length].
    rewrite length_app, Hk, Hv. cbn [Nat.add Nat.eqb negb].
    rewrite (take_app_length' k v 64 (eq_sym Hk)).
    rewrite (drop_app_length' k v 64 (eq_sym Hk)).
    rewrite (take_ge v 64) by lia. reflexivity.
Qed.

Lemma framed_injective (N1 N2 : Node) :
  wf_node N1 -> wf_node N2 ->
  serialize_node_with_prefix N1 = serialize_node_with_prefix N2 -> N1 = N2.
Proof.
  intros H1 H2 Heq. pose proof (decode_framed N1 H1) as D1.
  rewrite Heq, (decode_framed N2 H2) in D1. injection D1 as ->. reflexivity.
Qed.

(** X14. Well-formed nodes are identified by their bytes: two nodes with
    the same framed encoding are equal, two nodes of the same kind with
    the same canonical bytes are equal, and two nodes with the same hash
    are equal as soon as the hash function does not collide on their two
    hash inputs. *)
Theorem node_encoding_injective (blake3 : Bytes -> Hash) (N1 N2 : Node) :
  wf_node N1 -> wf_node N2 ->
  (serialize_node_with_prefix N1 = serialize_node_with_prefix N2 -> N1 = N2)
  /\ (hash_input N1 = hash_input N2 -> N1 = N2)
  /\ hash_node blake3 N1 = blake3 (hash_input N1)
  /\ (collision_free_on blake3 (hash_input N1) (hash_input N2) ->
      hash_node blake3 N1 = hash_node blake3 N2 -> N1 = N2).
Proof.
  intros H1 H2.
  assert (Hin : hash_input N1 = hash_input N2 -> N1 = N2).
  { destruct N1 as [i1|l1], N2 as [i2|l2]; cbn [hash_input]; intros Heq.
    - apply app_inv_head in Heq. apply framed_injective; [assumption..|].
      cbn [serialize_node_with_prefix]. rewrite Heq. reflexivity.
    - exfalso. exact (hash_inputs_differ _ _ Heq).
    - exfalso. symmetry in Heq. exact (hash_inputs_differ _ _ Heq).
    - apply app_inv_head in Heq. apply framed_injective; [assumption..|].
      cbn [serialize_node_with_prefix]. rewrite Heq. reflexivity. }
  assert (Hh : forall N, hash_node blake3 N = blake3 (hash_input N))
    by (intros [|]; reflexivity).
  split; [apply framed_injective; assumption|]. split; [exact Hin|].
  split; [apply Hh|].
  intros Hfree Heq. rewrite !Hh in Heq. exact (Hin (Hfree Heq)).
Qed.

(** ** The LRU cache keeps its invariant *)

Lemma elem_of_unlink (key x : NodeKey) (l : list NodeKey) :
  NoDup l -> (x ∈ unlink key l <-> x ∈ l /\ x <> key).
Proof.
  induction l as [|k l IH]; intros Hnd; cbn [unlink].
  - split; [intros H; inversion H|intros [H _]; inversion H].
  - apply NoDup_cons in Hnd as [Hk Hnd].
    destruct (decide (k = key)) as [->|Hne].
    + split.
      * intros Hx. split; [right; exact Hx|]. intros ->. contradiction.
      * intros [Hx Hne]. apply elem_of_cons in Hx as [->|Hx]; [contradiction|exact Hx].
    + rewrite !elem_of_cons, IH by exact Hnd. split.
      * intros [->|[Hx Hxk]]; [split; [left; reflexivity|exact Hne]|].
        split; [right; exact Hx|exact Hxk].
      * intros [[->|Hx] Hxk]; [left; reflexivity|right; split; assumption].
Qed.

Lemma NoDup_unlink (key : NodeKey) (l : list NodeKey) :
  NoDup l -> NoDup (unlink key l).
Proof.
  induction l as [|k l IH]; intros Hnd; cbn [unlink]; [constructor|].
  apply NoDup_cons in Hnd as [Hk Hnd].
  destruct (decide (k = key)); [exact Hnd|].
  apply NoDup_cons. split; [|apply IH; exact Hnd].
  rewrite elem_of_unlink by exact Hnd. intros [Hin _]. contradiction.
Qed.

Lemma length_unlink (key : NodeKey) (l : list NodeKey) :
  key ∈ l -> S (length (unlink key l)) = length l.
Proof.
  induction l as [|k l IH]; intros Hin; [inversion Hin|].
  cbn [unlink]. destruct (decide (k = key)) as [->|Hne]; [reflexivity|].
  apply elem_of_cons in Hin as [->|Hin]; [contradiction|].
  cbn [length]. rewrite IH by exact Hin. reflexivity.
Qed.

Lemma cache_inv_new (capacity : nat) : cache_inv (TreeCache_new capacity).
Proof.
  unfold cache_inv, TreeCache_new. cbn [lru_list_ cache_map_ capacity_].
  split; [constructor|]. split; [|split; [rewrite map_size_empty; reflexivity|]].
  - intros k. rewrite lookup_empty. split; [intros H; inversion H|intros [? [=]]].
  - rewrite map_size_empty. lia.
Qed.

Lemma cache_inv_splice (c : TreeCache) (key : NodeKey) (node : Node) :
  cache_inv c -> cache_map_ c !! key = Some node ->
  NoDup (splice_front key (lru_list_ c))
  /\ (forall k, k ∈ splice_front key (lru_list_ c) <-> k ∈ lru_list_ c)
  /\ length (splice_front key (lru_list_ c)) = length (lru_list_ c).
Proof.
  intros (Hnd & Hdom & Hlen & Hcap) Hkey.
  assert (Hin : key ∈ lru_list_ c) by (apply Hdom; eauto).
  unfold splice_front. split; [|split].
  - apply NoDup_cons. split; [|apply NoDup_unlink; exact Hnd].
    rewrite elem_of_unlink by exact Hnd. intros [_ Hne]. congruence.
  - intros k. rewrite elem_of_cons, elem_of_unlink by exact Hnd.
    destruct (decide (k = key)) as [->|Hne]; [tauto|]. tauto.
  - cbn [length]. apply length_unlink. exact Hin.
Qed.

Lemma cache_inv_get (c : TreeCache) (key : NodeKey) :
  cache_inv c -> cache_inv (TreeCache_get c key).2.
Proof.
  intros Hinv. unfold TreeCache_get.
  destruct (cache_map_ c !! key) as [node|] eqn:Hkey; [|exact Hinv].
  destruct (cache_inv_splice c key node Hinv Hkey) as (Hnd' & Hin' & Hlen').
  destruct Hinv as (Hnd & Hdom & Hlen & Hcap).
  cbn [snd]. unfold cache_inv. cbn [lru_list_ cache_map_ capacity_].
  split; [exact Hnd'|]. split; [|split; [congruence|exact Hcap]].
  intros k. rewrite Hin'. apply Hdom.
Qed.

(** Under the invariant a full cache of capacity >= 1 has an oldest
    element to evict: [back()] is never taken on an empty list. *)
Lemma evict_if_full_spec (c : TreeCache) :
  cache_inv c -> (1 <= capacity_ c)%nat ->
  ((size (cache_map_ c) < capacity_ c)%nat /\ evict_if_full c = c)
  \/ (size (cache_map_ c) = capacity_ c
      /\ exists l oldest,
           lru_list_ c = l ++ [oldest]
           /\ evict_if_full c
              = mkTreeCache (capacity_ c) l (delete oldest (cache_map_ c))).
Proof.
  intros (Hnd & Hdom & Hlen & Hcap) Hpos. unfold evict_if_full.
  destruct (Nat.leb_spec (capacity_ c) (size (cache_map_ c))) as [Hfull|Hroom];
    [right|left; split; [exact Hroom|reflexivity]].
  split; [lia|].
  destruct (lru_list_ c) as [|oldest l _] eqn:Hl using rev_ind.
  - cbn [length] in Hlen. lia.
  - exists l, oldest. split; [reflexivity|].
    rewrite last_snoc, removelast_last. reflexivity.
Qed.

Lemma cache_inv_evict (c : TreeCache) :
  cache_inv c -> (1 <= capacity_ c)%nat ->
  cache_inv (evict_if_full c)
  /\ (size (cache_map_ (evict_if_full c)) < capacity_ c)%nat
  /\ capacity_ (evict_if_full c) = capacity_ c.
Proof.
  intros Hinv Hpos.
  destruct (evict_if_full_spec c Hinv Hpos)
    as [[Hroom ->]|(Hfull & l & oldest & Hl & ->)]; [auto|].
  destruct Hinv as (Hnd & Hdom & Hlen & Hcap).
  rewrite Hl in Hnd, Hdom, Hlen.
  apply NoDup_app in Hnd as (Hndl & Hfresh & _).
  assert (Hold : is_Some (cache_map_ c !! oldest))
    by (apply Hdom, elem_of_app; right; left).
  destruct Hold as [n Hn].
  rewrite length_app in Hlen. cbn [length] in Hlen.
  unfold cache_inv. cbn [lru_list_ cache_map_ capacity_].
  rewrite (map_size_delete_Some oldest (cache_map_ c)) by eauto.
  split; [|split; [lia|reflexivity]].
  split; [exact Hndl|]. split; [|split; lia].
  intros k. destruct (decide (k = oldest)) as [->|Hne].
  - rewrite lookup_delete_eq. split.
    + intros Hin. exfalso. apply (Hfresh oldest Hin). left.
    + intros [? [=]].
  - rewrite lookup_delete_ne by congruence. rewrite <- Hdom, elem_of_app.
    split; [auto|]. intros [H|H]; [exact H|].
    apply list_elem_of_singleton in H. contradiction.
Qed.

Lemma cache_inv_put (c : TreeCache) (key : NodeKey) (node : Node) :
  cache_inv c -> (1 <= capacity_ c)%nat ->
  cache_inv (TreeCache_put c key node)
  /\ capacity_ (TreeCache_put c key node) = capacity_ c.
Proof.
  intros Hinv Hpos. unfold TreeCache_put.
  destruct (cache_map_ c !! key) as [old|] eqn:Hkey.
  - destruct (cache_inv_splice c key old Hinv Hkey) as (Hnd' & Hin' & Hlen').
    destruct Hinv as (Hnd & Hdom & Hlen & Hcap).
    split; [|reflexivity]. unfold cache_inv. cbn [lru_list_ cache_map_ capacity_].
    rewrite (map_size_insert_Some key node (cache_map_ c)) by eauto.
    split; [exact Hnd'|]. split; [|split; [congruence|exact Hcap]].
    intros k. rewrite Hin', Hdom.
    destruct (decide (k = key)) as [->|Hne].
    + rewrite lookup_insert_eq, Hkey. split; eauto.
    + rewrite lookup_insert_ne by congruence. reflexivity.
  - destruct (cache_inv_evict c Hinv Hpos) as ((Hnd & Hdom & Hlen & Hcap) & Hroom & Hc).
    assert (Hfresh : cache_map_ (evict_if_full c) !! key = None).
    { destruct (evict_if_full_spec c Hinv Hpos)
        as [[_ ->]|(_ & l & oldest & _ & ->)]; [exact Hkey|].
      cbn [cache_map_]. destruct (decide (key = oldest)) as [->|];
        [apply lookup_delete_eq|rewrite lookup_delete_ne by congruence; exact Hkey]. }
    split; [|exact Hc]. unfold cache_inv. cbn [lru_list_ cache_map_ capacity_].
    rewrite (map_size_insert_None key node _ Hfresh).
    split; [|split; [|split; [cbn [length]; lia|lia]]].
    + apply NoDup_cons. split; [|exact Hnd].
      rewrite Hdom, Hfresh. intros [? [=]].
    + intros k. rewrite elem_of_cons, Hdom.
      destruct (decide (k = key)) as [->|Hne].
      * rewrite lookup_insert_eq. split; eauto.
      * rewrite lookup_insert_ne by congruence. tauto.
Qed.

Lemma cache_inv_clear (c : TreeCache) : cache_inv (TreeCache_clear c).
Proof. exact (cache_inv_new (capacity_ c)). Qed.

Lemma cache_step_inv (c : TreeCache) (op : CacheOp) :
  cache_inv c -> (1 <= capacity_ c)%nat ->
  cache_inv (cache_step c op) /\ capacity_ (cache_step c op) = capacity_ c.
Proof.
  intros Hinv Hpos. destruct op as [k|k n|]; cbn [cache_step].
  - split; [apply cache_inv_get; exact Hinv|].
    unfold TreeCache_get. destruct (cache_map_ c !! k); reflexivity.
  - apply cache_inv_put; assumption.
  - split; [apply cache_inv_clear|reflexivity].
Qed.

Lemma cache_run_inv (ops : list CacheOp) :
  forall c, cache_inv c -> (1 <= capacity_ c)%nat ->
            cache_inv (cache_run ops c) /\ capacity_ (cache_run ops c) = capacity_ c.
Proof.
  induction ops as [|op ops IH]; intros c Hinv Hpos; [auto|].
  cbn [cache_run fold_left]. fold (cache_run ops (cache_step c op)).
  destruct (cache_step_inv c op Hinv Hpos) as [Hinv' Hc'].
  destruct (IH _ Hinv' ltac:(lia)) as [Hinv'' Hc'']. split; [exact Hinv''|congruence].
Qed.

(** X15. Whatever sequence of [get], [put] and [clear] runs on a cache
    created with capacity c >= 1, the cache never holds more than c
    entries, its recency list holds exactly the cached keys, each once,
    and its capacity stays c. *)
Theorem tree_cache_invariant (capacity : nat) (ops : list CacheOp) :
  (1 <= capacity)%nat ->
  let c := cache_run ops (TreeCache_new capacity) in
  (TreeCache_size c <= capacity)%nat
  /\ NoDup (lru_list_ c)
  /\ (forall k, k ∈ lru_list_ c <-> is_Some (cache_map_ c !! k))
  /\ length (lru_list_ c) = TreeCache_size c
  /\ capacity_ c = capacity.
Proof.
  intros Hpos c.
  destruct (cache_run_inv ops (TreeCache_new capacity) (cache_inv_new capacity) Hpos)
    as ((Hnd & Hdom & Hlen & Hcap) & Hc).
  fold c in Hnd, Hdom, Hlen, Hcap, Hc. cbn [TreeCache_new capacity_] in Hc.
  unfold TreeCache_size. rewrite Hc in Hcap. auto.
Qed.

Lemma unlink_middle (key : NodeKey) (l1 l2 : list NodeKey) :
  key ∉ l1 -> unlink key (l1 ++ key :: l2) = l1 ++ l2.
Proof.
  induction l1 as [|k l1 IH]; intros Hnot; cbn [unlink app].
  - destruct (decide (key = key)); [reflexivity|congruence].
  - apply not_elem_of_cons in Hnot as [Hne Hnot].
    destruct (decide (k = key)); [congruence|]. rewrite IH by exact Hnot. reflexivity.
Qed.

(** X16. [put] on a cache that satisfies its invariant (capacity >= 1):
    the key is then cached with the new node and is the most recent one.
    Updating a cached key evicts nothing; inserting a new key into a cache
    with room keeps every entry; inserting a new key into a full cache
    evicts exactly the key at the back of the recency list and keeps all
    others. *)
Theorem tree_cache_put_laws (c : TreeCache) (key : NodeKey) (node : Node) :
  cache_inv c -> (1 <= capacity_ c)%nat ->
  let c' := TreeCache_put c key node in
  (TreeCache_get c' key).1 = Some node
  /\ head (lru_list_ c') = Some key
  /\ (is_Some (cache_map_ c !! key) ->
      TreeCache_size c' = TreeCache_size c
      /\ forall k, k <> key -> cache_map_ c' !! k = cache_map_ c !! k)
  /\ (cache_map_ c !! key = None -> (TreeCache_size c < capacity_ c)%nat ->
      TreeCache_size c' = S (TreeCache_size c)
      /\ forall k, k <> key -> cache_map_ c' !! k = cache_map_ c !! k)
  /\ (cache_map_ c !! key = None -> TreeCache_size c = capacity_ c ->
      exists oldest,
        last (lru_list_ c) = Some oldest
        /\ is_Some (cache_map_ c !! oldest)
        /\ cache_map_ c' !! oldest = None
        /\ TreeCache_size c' = TreeCache_size c
        /\ forall k, k <> key -> k <> oldest ->
             cache_map_ c' !! k = cache_map_ c !! k).
Proof.
  intros Hinv Hpos c'. unfold TreeCache_size.
  split; [|split; [|split; [|split]]].
  - rewrite TreeCache_get_result. unfold c', TreeCache_put.
    destruct (cache_map_ c !! key); cbn [cache_map_]; apply lookup_insert_eq.
  - unfold c', TreeCache_put.
    destruct (cache_map_ c !! key); reflexivity.
  - intros [old Hkey]. unfold c', TreeCache_put. rewrite Hkey. cbn [cache_map_].
    split; [apply map_size_insert_Some; eauto|].
    intros k Hne. apply lookup_insert_ne. congruence.
  - intros Hkey Hroom. unfold c', TreeCache_put. rewrite Hkey.
    destruct (evict_if_full_spec c Hinv Hpos) as [[_ ->]|(Hfull & _)]; [|lia].
    cbn [cache_map_]. split; [apply map_size_insert_None; exact Hkey|].
    intros k Hne. apply lookup_insert_ne. congruence.
  - intros Hkey Hfull. unfold c', TreeCache_put. rewrite Hkey.
    destruct (evict_if_full_spec c Hinv Hpos)
      as [[Hroom _]|(_ & l & oldest & Hl & ->)]; [lia|].
    destruct Hinv as (Hnd & Hdom & Hlen & Hcap).
    assert (Hold : is_Some (cache_map_ c !! oldest))
      by (apply Hdom; rewrite Hl; apply elem_of_app; right; left).
    assert (Hne : key <> oldest)
      by (intros ->; rewrite Hkey in Hold; destruct Hold as [? [=]]).
    exists oldest. cbn [cache_map_].
    split; [rewrite Hl; apply last_snoc|]. split; [exact Hold|]. split; [|split].
    + rewrite lookup_insert_ne, lookup_delete_eq by exact Hne. reflexivity.
    + rewrite map_size_insert_None
        by (rewrite lookup_delete_ne by congruence; exact Hkey).
      rewrite map_size_delete_Some by exact Hold.
      destruct Hold as [n Hn]. pose proof (map_size_non_empty_iff (cache_map_ c)) as Hs.
      assert (size (cache_map_ c) <> 0%nat)
        by (apply Hs; intros He; rewrite He, lookup_empty in Hn; discriminate Hn).
      lia.
    + intros k Hk Hko. rewrite lookup_insert_ne, lookup_delete_ne by congruence.
      reflexivity.
Qed.

(** X17. [get] on a cache that satisfies its invariant: a miss returns
    nothing and leaves the cache exactly as it was; a hit returns the
    cached node, leaves the entries alone and moves the key to the front
    of the recency list while the other keys keep their order; reading
    the same key again changes nothing more. *)
Theorem tree_cache_get_laws (c : TreeCache) (key : NodeKey) :
  cache_inv c ->
  (cache_map_ c !! key = None -> TreeCache_get c key = (None, c))
  /\ (forall node, cache_map_ c !! key = Some node ->
        exists l1 l2,
          lru_list_ c = l1 ++ key :: l2
          /\ TreeCache_get c key
             = (Some node,
                mkTreeCache (capacity_ c) (key :: l1 ++ l2) (cache_map_ c))
          /\ TreeCache_get (TreeCache_get c key).2 key = TreeCache_get c key).
Proof.
  intros (Hnd & Hdom & Hlen & Hcap). split.
  - intros Hmiss. unfold TreeCache_get. rewrite Hmiss. reflexivity.
  - intros node Hkey.
    assert (Hin : key ∈ lru_list_ c) by (apply Hdom; eauto).
    apply list_elem_of_split in Hin as (l1 & l2 & Hl).
    assert (Hnot : key ∉ l1).
    { rewrite Hl in Hnd. apply NoDup_app in Hnd as (_ & Hfresh & _).
      intros Hin. apply (Hfresh key Hin). left. }
    exists l1, l2. split; [exact Hl|].
    assert (Hget : TreeCache_get c key
                   = (Some node,
                      mkTreeCache (capacity_ c) (key :: l1 ++ l2) (cache_map_ c))).
    { unfold TreeCache_get, splice_front. rewrite Hkey, Hl.
      rewrite unlink_middle by exact Hnot. reflexivity. }
    split; [exact Hget|]. rewrite Hget. cbn [snd].
    unfold TreeCache_get, splice_front. cbn [cache_map_ lru_list_ capacity_ unlink].
    rewrite Hkey. rewrite decide_True by reflexivity. reflexivity.
Qed.

(** ** The speculative overlay in use *)

(** X18. Reads through the overlay: a node written with [put] is what
    [get] returns for that key, whatever the injected set and the base
    hold, and the read does not reach the base; an injected node is
    returned when the overlay has no entry for the key and is shadowed
    when it has one; after [clear] a key is answered by the base alone. *)
Theorem speculative_get_after_write (s : SpeculativeTreeCache) (key : NodeKey)
    (node : Node) :
  Speculative_get (Speculative_put s key node) key
  = (Some node, Speculative_put s key node)
  /\ (overlay_ s !! key = None ->
      Speculative_get (inject_node s key node) key
      = (Some node, inject_node s key node))
  /\ (forall written, overlay_ s !! key = Some written ->
        Speculative_get (inject_node s key node) key
        = (Some written, inject_node s key node))
  /\ (Speculative_get (Speculative_clear s) key).1
     = match base_cache_ s with
       | Some base => cache_map_ base !! key
       | None => None
       end
  /\ Speculative_size (Speculative_clear s) = 0%nat.
Proof.
  split; [|split; [|split; [|split]]].
  - unfold Speculative_get, Speculative_put. cbn [overlay_].
    rewrite lookup_insert_eq. reflexivity.
  - intros Hnone. unfold Speculative_get, inject_node. cbn [overlay_ injected_].
    rewrite Hnone, lookup_insert_eq. reflexivity.
  - intros written Hw. unfold Speculative_get, inject_node. cbn [overlay_].
    rewrite Hw. reflexivity.
  - unfold Speculative_get, Speculative_clear. cbn [overlay_ injected_ base_cache_].
    rewrite !lookup_empty. destruct (base_cache_ s) as [base|]; [|reflexivity].
    rewrite <- TreeCache_get_result. destruct (TreeCache_get base key). reflexivity.
  - unfold Speculative_size, Speculative_clear. cbn [overlay_ injected_].
    rewrite map_size_empty. reflexivity.
Qed.

Lemma speculative_get_base (s : SpeculativeTreeCache) (key : NodeKey) :
  cache_map_ <$> base_cache_ (Speculative_get s key).2 = cache_map_ <$> base_cache_ s
  /\ capacity_ <$> base_cache_ (Speculative_get s key).2 = capacity_ <$> base_cache_ s
  /\ (forall b, base_cache_ s = Some b -> cache_inv b ->
        exists b', base_cache_ (Speculative_get s key).2 = Some b' /\ cache_inv b').
Proof.
  unfold Speculative_get.
  destruct (overlay_ s !! key); [cbn [snd]; eauto|].
  destruct (injected_ s !! key); [cbn [snd]; eauto|].
  destruct (base_cache_ s) as [base|] eqn:Hb; [|cbn [snd]; rewrite Hb; split; [|split]; [reflexivity..|discriminate]].
  pose proof (TreeCache_get_entries base key) as [He _].
  pose proof (cache_inv_get base key) as Hinv.
  assert (Hc : capacity_ (TreeCache_get base key).2 = capacity_ base)
    by (unfold TreeCache_get; destruct (cache_map_ base !! key); reflexivity).
  destruct (TreeCache_get base key) as [r base']. cbn [snd fst] in *.
  cbn [base_cache_ fmap option_fmap option_map]. rewrite He, Hc.
  split; [reflexivity|]. split; [reflexivity|].
  intros b [= <-] Hb'. eauto.
Qed.

Lemma run_on_speculative_base {R} (prog : CacheClient R) :
  forall s,
    cache_map_ <$> base_cache_ (run_on_speculative prog s).2
    = cache_map_ <$> base_cache_ s
    /\ capacity_ <$> base_cache_ (run_on_speculative prog s).2
       = capacity_ <$> base_cache_ s
    /\ (forall b, base_cache_ s = Some b -> cache_inv b ->
          exists b', base_cache_ (run_on_speculative prog s).2 = Some b'
                     /\ cache_inv b').
Proof.
  induction prog as [r|key k IH|key node k IH|k IH|k IH|k IH]; intros s;
    cbn [run_on_speculative].
  - cbn [snd]. eauto.
  - destruct (speculative_get_base s key) as (He & Hc & Hinv).
    destruct (Speculative_get s key) as [r s']. cbn [snd] in *.
    destruct (IH r s') as (He' & Hc' & Hinv').
    split; [congruence|]. split; [congruence|].
    intros b Hb Hbinv. destruct (Hinv b Hb Hbinv) as (b1 & Hb1 & Hinv1).
    exact (Hinv' b1 Hb1 Hinv1).
  - apply (IH (Speculative_put s key node)).
  - apply (IH (Speculative_clear s)).
  - apply (IH _ s).
  - apply (IH _ s).
Qed.

Lemma inject_parents_base (ps : list (Bytes * Bytes)) :
  forall s, base_cache_ (inject_parents s ps) = base_cache_ s
            /\ overlay_ (inject_parents s ps) = overlay_ s.
Proof.
  induction ps as [|kv ps IH]; intros s; [auto|].
  cbn [inject_parents fold_left]. fold (inject_parents (inject_parent s kv) ps).
  destruct (IH (inject_parent s kv)) as [-> ->].
  unfold inject_parent.
  destruct (NodeKey_deserialize kv.1), (deserialize_node_from_bytes kv.2); auto.
Qed.

(** X19. Speculative isolation of [calculate_root_speculative]: whatever
    the tree engine does through the cache it is handed (any number of
    [get], [put], [clear], [size] calls), and whatever warm-up pairs are
    supplied, the adapter's own cache ends with the same entries, the
    same [size()] and the same capacity as before, and still satisfies
    its invariant. *)
Theorem calculate_root_speculative_isolation (blake3 : Bytes -> Hash)
    (put_value_set : list (Hash * option Bytes) -> Z -> Hash -> option Z ->
                     CacheClient (option TreeUpdateBatch))
    (cache_ : TreeCache) (updates : list (Bytes * Hash)) (base_root : Hash)
    (version : Z) (base_version : option Z)
    (parent_nodes : option (list (Bytes * Bytes))) :
  let after := (calculate_root_speculative blake3 put_value_set cache_ updates
                  base_root version base_version parent_nodes).2 in
  cache_map_ after = cache_map_ cache_
  /\ TreeCache_size after = TreeCache_size cache_
  /\ capacity_ after = capacity_ cache_
  /\ (cache_inv cache_ -> cache_inv after).
Proof.
  cbn zeta. unfold calculate_root_speculative.
  set (s0 := match parent_nodes with
             | Some ps => inject_parents (Speculative_new (Some cache_)) ps
             | None => Speculative_new (Some cache_)
             end).
  assert (Hs0 : base_cache_ s0 = Some cache_).
  { unfold s0. destruct parent_nodes as [ps|]; [|reflexivity].
    rewrite (proj1 (inject_parents_base ps _)). reflexivity. }
  set (prog := put_value_set _ version base_root base_version).
  destruct (run_on_speculative_base prog s0) as (He & Hc & Hinv).
  destruct (run_on_speculative prog s0) as [result s']. cbn [snd] in *.
  rewrite Hs0 in He, Hc. unfold TreeCache_size.
  destruct (base_cache_ s') as [c|] eqn:Hb; [|discriminate He].
  cbn in He, Hc. injection He as He. injection Hc as Hc.
  split; [exact He|]. split; [rewrite He; reflexivity|]. split; [exact Hc|].
  intros Hcinv. destruct (Hinv cache_ Hs0 Hcinv) as (b' & Hb' & Hinv').
  assert (b' = c) by congruence. subst b'. exact Hinv'.
Qed.

Lemma NodeKey_deserialize_wf (bytes : Bytes) (k : NodeKey) :
  NodeKey_deserialize bytes = Some k -> wf_key k.
Proof.
  intros Hd. apply NodeKey_deserialize_inv in Hd as (Hlen & Hok & ->).
  pose proof (read_u32_range bytes 8 ltac:(lia)) as Hr.
  pose proof (read_u64_range bytes 0 ltac:(lia)) as Hv.
  split; [exact Hv|]. cbn [nk_version nibble_path]. split.
  - apply from_bytes_wf; [lia|]. rewrite length_drop. lia.
  - cbn [from_bytes num_nibbles_]. lia.
Qed.

Lemma inject_parents_injected (ps : list (Bytes * Bytes)) :
  forall s k n,
    injected_ (inject_parents s ps) !! k = Some n ->
    injected_ s !! k = Some n
    \/ exists kb vb, (kb, vb) ∈ ps /\ NodeKey_deserialize kb = Some k
                     /\ deserialize_node_from_bytes vb = Some n.
Proof.
  induction ps as [|[kb vb] ps IH]; intros s k n Hin; [left; exact Hin|].
  cbn [inject_parents fold_left] in Hin.
  fold (inject_parents (inject_parent s (kb, vb)) ps) in Hin.
  destruct (IH _ k n Hin) as [Hs|(kb' & vb' & Hmem & Hk & Hn)].
  - unfold inject_parent in Hs. cbn [fst snd] in Hs.
    destruct (NodeKey_deserialize kb) as [k0|] eqn:Hk0; [|left; exact Hs].
    destruct (deserialize_node_from_bytes vb) as [n0|] eqn:Hn0; [|left; exact Hs].
    unfold inject_node in Hs. cbn [injected_] in Hs.
    destruct (decide (k0 = k)) as [->|Hne].
    + rewrite lookup_insert_eq in Hs. injection Hs as ->.
      right. exists kb, vb. split; [left|]. auto.
    + rewrite lookup_insert_ne in Hs by exact Hne. left. exact Hs.
  - right. exists kb', vb'. split; [right; exact Hmem|]. auto.
Qed.

Lemma inject_parents_complete (ps : list (Bytes * Bytes)) :
  forall s k, is_Some (injected_ s !! k) ->
              is_Some (injected_ (inject_parents s ps) !! k).
Proof.
  induction ps as [|[kb vb] ps IH]; intros s k Hs; [exact Hs|].
  cbn [inject_parents fold_left]. apply IH. unfold inject_parent. cbn [fst snd].
  destruct (NodeKey_deserialize kb) as [k0|]; [|exact Hs].
  destruct (deserialize_node_from_bytes vb) as [n0|]; [|exact Hs].
  unfold inject_node. cbn [injected_].
  destruct (decide (k0 = k)) as [->|Hne];
    [rewrite lookup_insert_eq; eauto|rewrite lookup_insert_ne by exact Hne; exact Hs].
Qed.

(** X20. The warm-up of a speculative cache injects decoded pairs only:
    every injected entry comes from a supplied pair whose key bytes and
    node bytes both decode, so it is a well-formed key with a well-formed
    node; pairs that do not decode are skipped; every pair that decodes
    leaves its key injected; the overlay stays empty and the base is not
    touched. *)
Theorem inject_parents_sound (base : option TreeCache) (ps : list (Bytes * Bytes)) :
  let s := inject_parents (Speculative_new base) ps in
  overlay_ s = ∅
  /\ base_cache_ s = base
  /\ (forall k n, injected_ s !! k = Some n ->
        wf_key k /\ wf_node n
        /\ exists kb vb, (kb, vb) ∈ ps /\ NodeKey_deserialize kb = Some k
                         /\ deserialize_node_from_bytes vb = Some n)
  /\ (forall kb vb k n, (kb, vb) ∈ ps -> NodeKey_deserialize kb = Some k ->
        deserialize_node_from_bytes vb = Some n ->
        is_Some (injected_ s !! k)).
Proof.
  cbn zeta. destruct (inject_parents_base ps (Speculative_new base)) as [Hb Ho].
  split; [rewrite Ho; reflexivity|]. split; [rewrite Hb; reflexivity|]. split.
  - intros k n Hin.
    destruct (inject_parents_injected ps _ k n Hin) as [H|(kb & vb & Hmem & Hk & Hn)].
    + cbn in H. rewrite lookup_empty in H. discriminate H.
    + split; [exact (NodeKey_deserialize_wf kb k Hk)|].
      split; [exact (proj2 (deserialize_serialize vb n Hn))|]. eauto.
  - intros kb vb k n Hmem Hk Hn.
    apply list_elem_of_split in Hmem as (l1 & l2 & ->).
    unfold inject_parents. rewrite fold_left_app. cbn [fold_left].
    apply (inject_parents_complete l2).
    unfold inject_parent. cbn [fst snd]. rewrite Hk, Hn.
    unfold inject_node. cbn [injected_]. rewrite lookup_insert_eq. eauto.
Qed.

(** ** The accumulator *)

Lemma elem_of_map_to_list_fst (m : gmap Hash Bytes) (h : Hash) :
  h ∈ (map_to_list m).*1 <-> is_Some (m !! h).
Proof.
  rewrite list_elem_of_fmap. split.
  - intros ([h' v] & -> & Hin). apply elem_of_map_to_list in Hin. eauto.
  - intros [v Hv]. exists (h, v). split; [reflexivity|].
    apply elem_of_map_to_list. exact Hv.
Qed.

(** X21. The batch that [calculate_root] hands to [put_value_set] is the
    explicit updates followed by the pending entries, without
    deduplication: its key hashes are pairwise distinct exactly when the
    explicit updates hash to distinct keys none of which is pending; with
    no explicit updates they always are. *)
Theorem merged_batch_keys (blake3 : Bytes -> Hash) (Tree : Type)
    (a : XookAdapter Tree) (updates : list (Bytes * Hash)) :
  let batch := merged_batch blake3 a updates in
  length batch = (length updates + size (pending_updates_ a))%nat
  /\ (NoDup batch.*1 <->
      NoDup (map (fun kv : Bytes * Hash => blake3 kv.1) updates)
      /\ forall kv, kv ∈ updates -> pending_updates_ a !! blake3 kv.1 = None)
  /\ (updates = [] -> NoDup batch.*1).
Proof.
  cbn zeta. unfold merged_batch.
  assert (Hfst : (map (fun kv : Bytes * Hash => (blake3 kv.1, kv.2)) updates).*1
                 = map (fun kv : Bytes * Hash => blake3 kv.1) updates).
  { induction updates as [|kv l IH]; [reflexivity|]. cbn. f_equal. exact IH. }
  split; [|split].
  - rewrite length_app, length_map, length_map_to_list. reflexivity.
  - rewrite fmap_app, Hfst, NoDup_app. split.
    + intros (Hnd & Hdisj & _). split; [exact Hnd|].
      intros kv Hkv. destruct (pending_updates_ a !! blake3 kv.1) eqn:Hp; [|reflexivity].
      exfalso. apply (Hdisj (blake3 kv.1)).
      * apply list_elem_of_In, in_map_iff. exists kv.
        split; [reflexivity|apply list_elem_of_In; exact Hkv].
      * apply elem_of_map_to_list_fst. eauto.
    + intros (Hnd & Hfree). split; [exact Hnd|].
      split; [|apply NoDup_fst_map_to_list].
      intros h Hh Hp. apply list_elem_of_In, in_map_iff in Hh as (kv & <- & Hkv).
      apply elem_of_map_to_list_fst in Hp as [v Hv].
      rewrite (Hfree kv) in Hv by (apply list_elem_of_In; exact Hkv). discriminate Hv.
  - intros ->. cbn [map app]. apply NoDup_fst_map_to_list.
Qed.

Lemma last_put_snoc (blake3 : Bytes -> Hash) (ps : list (Bytes * Hash * Z))
    (p : Bytes * Hash * Z) (h : Hash) :
  last_put blake3 (ps ++ [p]) h
  = if decide (blake3 p.1.1 = h) then Some p.1.2 else last_put blake3 ps h.
Proof. unfold last_put. rewrite fold_left_app. reflexivity. Qed.

(** X22. Accumulated puts are last-write-wins per key hash: after any run
    of [put] calls the pending map holds, under each key hash, the value
    of the last put whose raw key hashes to it, and what it held before
    for the other key hashes; the tree and the cached root are not
    touched, and the cached version is the version of the last put (so
    [get_root_hash] of that version answers the root cached before the
    puts). *)
Theorem XookAdapter_puts_last_write_wins (blake3 : Bytes -> Hash) (Tree : Type)
    (tree_get_root_hash : Tree -> Z -> Hash)
    (a : XookAdapter Tree) (ps : list (Bytes * Hash * Z)) :
  let a' := XookAdapter_puts blake3 ps a in
  (forall h, pending_updates_ a' !! h
             = match last_put blake3 ps h with
               | Some v => Some v
               | None => pending_updates_ a !! h
               end)
  /\ tree_ a' = tree_ a
  /\ last_root_ a' = last_root_ a
  /\ current_version_ a'
     = match last ps with Some p => p.2 | None => current_version_ a end
  /\ XookAdapter_get_root_hash tree_get_root_hash a' (current_version_ a')
     = last_root_ a.
Proof.
  cbn zeta.
  assert (H : (forall h, pending_updates_ (XookAdapter_puts blake3 ps a) !! h
                 = match last_put blake3 ps h with
                   | Some v => Some v
                   | None => pending_updates_ a !! h
                   end)
              /\ tree_ (XookAdapter_puts blake3 ps a) = tree_ a
              /\ last_root_ (XookAdapter_puts blake3 ps a) = last_root_ a
              /\ current_version_ (XookAdapter_puts blake3 ps a)
                 = match last ps with Some p => p.2 | None => current_version_ a end).
  { induction ps as [|p ps IH] using rev_ind; [repeat split|].
    destruct IH as (Hp & Ht & Hr & Hv).
    unfold XookAdapter_puts. rewrite fold_left_app. cbn [fold_left].
    fold (XookAdapter_puts blake3 ps a). unfold XookAdapter_put.
    cbn [pending_updates_ tree_ last_root_ current_version_].
    rewrite last_snoc. split; [|auto].
    intros h. rewrite last_put_snoc.
    destruct (decide (blake3 p.1.1 = h)) as [->|Hne].
    - apply lookup_insert_eq.
    - rewrite lookup_insert_ne by exact Hne. apply Hp. }
  destruct H as (Hp & Ht & Hr & Hv).
  split; [exact Hp|]. split; [exact Ht|]. split; [exact Hr|]. split; [exact Hv|].
  unfold XookAdapter_get_root_hash. rewrite Z.eqb_refl. exact Hr.
Qed.

Lemma length_bytes_to_hash (r : Bytes) : length (bytes_to_hash r) = 64%nat.
Proof.
  unfold bytes_to_hash. destruct (Nat.leb_spec 64 (length r)).
  - rewrite length_take. lia.
  - rewrite length_app, length_replicate. lia.
Qed.

(** X23. [XookAdapter::get] looks the key up under its full hash and
    always answers with exactly 64 bytes: nothing when the tree has
    nothing, the stored bytes themselves when they are 64 bytes (as every
    value written through [put] is), their first 64 bytes when they are
    longer, and the bytes followed by zeros when they are shorter. *)
Theorem XookAdapter_get_width (blake3 : Bytes -> Hash) (Tree : Type)
    (tree_get : Tree -> Hash -> Z -> option Bytes)
    (a : XookAdapter Tree) (key : Bytes) (version : Z) :
  let answer := XookAdapter_get blake3 tree_get a key version in
  let stored := tree_get (tree_ a) (blake3 key) version in
  (answer = None <-> stored = None)
  /\ (forall h, answer = Some h -> length h = HASH_SIZE)
  /\ (forall r, stored = Some r -> wf_hash r -> answer = Some r)
  /\ (forall r, stored = Some r -> (HASH_SIZE <= length r)%nat ->
        answer = Some (take HASH_SIZE r))
  /\ (forall r, stored = Some r -> (length r < HASH_SIZE)%nat ->
        exists h, answer = Some h /\ take (length r) h = r
                  /\ drop (length r) h = replicate (HASH_SIZE - length r) Byte.x00).
Proof.
  cbn zeta. unfold XookAdapter_get, HASH_SIZE, wf_hash.
  destruct (tree_get (tree_ a) (blake3 key) version) as [r|].
  - split; [split; discriminate|]. split; [|split; [|split]].
    + intros h [= <-]. apply length_bytes_to_hash.
    + intros r' [= <-] Hr. unfold bytes_to_hash, HASH_SIZE in *. rewrite Hr. cbn.
      rewrite take_ge by lia. reflexivity.
    + intros r' [= <-] Hr. unfold bytes_to_hash.
      destruct (Nat.leb_spec 64 (length r)); [reflexivity|lia].
    + intros r' [= <-] Hr. unfold bytes_to_hash.
      destruct (Nat.leb_spec 64 (length r)); [lia|].
      eexists. split; [reflexivity|].
      rewrite take_app_length, drop_app_length. split; reflexivity.
  - split; [split; reflexivity|]. repeat split; discriminate.
Qed.

(** X24. The key conversion of [XMTLegacyAdapter::put] always yields 32
    bytes, is the identity on 32-byte keys, ignores every byte after the
    32nd, and ignores a zero byte appended to a key shorter than 32
    bytes: raw keys that differ only there share one key hash. *)
Theorem legacy_key_to_hash256_laws (key extra : Bytes) :
  length (XMTLegacy.key_to_hash256 key) = 32%nat
  /\ (length key = 32%nat -> XMTLegacy.key_to_hash256 key = key)
  /\ ((32 <= length key)%nat ->
      XMTLegacy.key_to_hash256 (key ++ extra) = XMTLegacy.key_to_hash256 key)
  /\ ((length key < 32)%nat ->
      XMTLegacy.key_to_hash256 (key ++ [Byte.x00]) = XMTLegacy.key_to_hash256 key).
Proof.
  unfold XMTLegacy.key_to_hash256. split; [|split; [|split]].
  - destruct (Nat.leb_spec 32 (length key)).
    + rewrite length_take. lia.
    + rewrite length_app, length_replicate. lia.
  - intros Hlen. rewrite Hlen. cbn. rewrite take_ge by lia. reflexivity.
  - intros Hlen. rewrite length_app.
    destruct (Nat.leb_spec 32 (length key + length extra)); [|lia].
    destruct (Nat.leb_spec 32 (length key)); [|lia].
    rewrite take_app_le by lia. reflexivity.
  - intros Hlen. rewrite length_app. cbn [length].
    destruct (Nat.leb_spec 32 (length key)); [lia|].
    destruct (Nat.leb_spec 32 (length key + 1)).
    + assert (length key = 31%nat) by lia.
      rewrite take_ge by (rewrite length_app; cbn [length]; lia).
      replace (32 - length key)%nat with 1%nat by lia. reflexivity.
    + rewrite <- app_assoc. f_equal.
      replace (32 - length key)%nat with (S (32 - (length key + 1)))%nat by lia.
      reflexivity.
Qed.

(** X25. [update_batch_with_precomputed_hashes] and [calculate_root]
    compared.  With nothing pending and a non-empty update list the two
    do the same thing: same engine call, same result, same adapter
    afterwards.  They differ in that [update_batch...] never looks at the
    pending map (entries accumulated by [put] are neither sent nor
    cleared) and calls the engine even for an empty update list. *)
Theorem update_batch_versus_calculate_root (blake3 : Bytes -> Hash) (Tree : Type)
    (put_value_set : Tree -> list (Hash * option Bytes) -> Z -> option Hash ->
                     option Z -> option (TreeUpdateBatch * Tree))
    (a : XookAdapter Tree) (updates : list (Bytes * Hash)) (base_root : Hash)
    (version : Z) (base_version : option Z) :
  let engine := fun t u v (r : Hash) bv => put_value_set t u v (Some r) bv in
  let batch := XookAdapter_update_batch blake3 put_value_set a updates version
                 (Some base_root) base_version in
  let flush := XookAdapter_calculate_root blake3 engine a updates base_root
                 version base_version in
  (pending_updates_ a = ∅ -> updates <> [] -> batch = flush)
  /\ (forall result a', batch = Some (result, a') ->
        pending_updates_ a' = pending_updates_ a
        /\ current_version_ a' = version
        /\ last_root_ a' = new_root_hash result
        /\ put_value_set (tree_ a)
             (map (fun kv : Bytes * Hash => (blake3 kv.1, Some kv.2)) updates)
             version (Some base_root) base_version = Some (result, tree_ a'))
  /\ (updates = [] -> pending_updates_ a = ∅ ->
      flush = Some (mkTreeUpdateBatch base_root [], a)
      /\ batch = match put_value_set (tree_ a) [] version (Some base_root) base_version with
                 | None => None
                 | Some (result, tree') =>
                     Some (result, mkXookAdapter tree' ∅ version (new_root_hash result))
                 end).
Proof.
  cbn zeta. split; [|split].
  - intros Hp Hu. unfold XookAdapter_update_batch, XookAdapter_calculate_root, merged_batch.
    rewrite Hp, map_to_list_empty, app_nil_r.
    destruct updates as [|kv updates]; [congruence|].
    cbn [map]. rewrite map_map. cbn [fst snd].
    destruct (put_value_set _ _ _ _ _) as [[result tree']|]; reflexivity.
  - intros result a'. unfold XookAdapter_update_batch.
    destruct (put_value_set _ _ _ _ _) as [[r t]|]; [|discriminate].
    intros [= <- <-]. cbn [pending_updates_ current_version_ last_root_ tree_]. auto.
  - intros -> Hp. split.
    + unfold XookAdapter_calculate_root, merged_batch.
      rewrite Hp, map_to_list_empty. reflexivity.
    + unfold XookAdapter_update_batch. cbn [map]. rewrite Hp. reflexivity.
Qed.

(** ** Lookups on a decoded internal node *)

Lemma flat_map_chunk {A} (f : A -> Bytes) (w : nat) (l : list A) :
  Forall (fun x => length (f x) = w) l ->
  forall i x, l !! i = Some x ->
              take w (drop (w * i) (flat_map f l)) = f x.
Proof.
  induction 1 as [|y l Hy Hl IH]; intros i x Hx; [discriminate Hx|].
  cbn [flat_map]. destruct i as [|i].
  - cbn in Hx. injection Hx as ->. rewrite Nat.mul_0_r. cbn [drop].
    apply take_app_length'. symmetry. exact Hy.
  - cbn in Hx. replace (w * S i)%nat with (length (f y) + w * i)%nat by lia.
    rewrite drop_app_add. apply IH. exact Hx.
Qed.

(** X26. Lookups on a decoded internal node read the right record: when
    [deserialize_node_from_bytes b] gives an internal node, the mask is
    the two bytes after the tag, a nibble is present exactly when its
    mask bit is set, and [get_child n] of a present nibble is the
    descriptor encoded in the 72 bytes at offset 3 + 72 * get_index(n)
    of [b]. *)
Theorem decoded_internal_get_child (b : Bytes) (node : InternalNode) (n : nat) :
  deserialize_node_from_bytes b = Some (Internal node) ->
  (n < 16)%nat ->
  raw_mask (bitmap node) = le_combine (take 2 (drop 1 b))
  /\ (is_Some (get_child node n) <-> bitmap_exists (bitmap node) n = true)
  /\ (forall child, get_child node n = Some child ->
        serialize_child child
        = take 72 (drop (3 + 72 * get_index (bitmap node) n) b)).
Proof.
  intros Hd Hn. apply deserialize_serialize in Hd as (Hb & Hwf & Hlen & Hcs).
  cbn [serialize_node_with_prefix] in Hb. subst b. split; [|split].
  - unfold internal_serialize_canonical. cbn [drop take].
    rewrite <- le_split_pair, le_combine_split.
    unfold raw_mask. symmetry. apply Z.mod_small. exact Hwf.
  - split.
    + intros [c Hc]. unfold get_child in Hc.
      destruct (bitmap_exists (bitmap node) n); [reflexivity|discriminate Hc].
    + apply get_child_in_range; assumption.
  - intros child Hc. unfold get_child in Hc.
    destruct (bitmap_exists (bitmap node) n); [|discriminate Hc]. cbn [negb] in Hc.
    unfold internal_serialize_canonical.
    change (3 + 72 * get_index (bitmap node) n)%nat
      with (S (S (S (72 * get_index (bitmap node) n)))).
    cbn [drop]. symmetry.
    apply (flat_map_chunk serialize_child 72 (children node)); [|exact Hc].
    eapply Forall_impl; [exact Hcs|]. intros c [Hh _].
    apply length_serialize_child. exact Hh.
Qed.

(** ** size() of the speculative cache *)

(** X27. [SpeculativeTreeCache::size] adds the sizes of the overlay and
    of the injected set: it never counts the base cache, and it counts a
    key twice when the key is both written and injected, so it is the
    number of distinct keys held plus the number of keys held twice. *)
Theorem speculative_size_counts (s : SpeculativeTreeCache) :
  Speculative_size s
  = (size (dom (overlay_ s) ∪ dom (injected_ s))
     + size (dom (overlay_ s) ∩ dom (injected_ s)))%nat
  /\ (size (dom (overlay_ s) ∪ dom (injected_ s)) <= Speculative_size s)%nat
  /\ (dom (overlay_ s) ## dom (injected_ s) ->
      Speculative_size s = size (dom (overlay_ s) ∪ dom (injected_ s))).
Proof.
  unfold Speculative_size. rewrite <- !size_dom.
  set (X := dom (overlay_ s)). set (Y := dom (injected_ s)).
  assert (HY : size Y = (size (Y ∖ X) + size (X ∩ Y))%nat).
  { rewrite <- size_union.
    - f_equal. apply set_eq. intros k.
      rewrite elem_of_union, elem_of_difference, elem_of_intersection.
      destruct (decide (k ∈ X)); tauto.
    - apply elem_of_disjoint. intros k.
      rewrite elem_of_difference, elem_of_intersection. tauto. }
  assert (HU : size (X ∪ Y) = (size X + size (Y ∖ X))%nat)
    by apply size_union_alt.
  split; [lia|]. split; [lia|].
  intros Hdisj.
  assert (Hz : size (X ∩ Y) = 0%nat).
  { apply size_empty_iff. apply elem_of_equiv_empty. intros k.
    rewrite elem_of_intersection. intros [Hx Hy].
    exact (proj1 (elem_of_disjoint X Y) Hdisj k Hx Hy). }
  lia.
Qed.

(** ** The properties above at sample values *)

Lemma wf_path3 : wf_path path3.
Proof.
  split; [cbn; lia|]. split; [reflexivity|].
  intros _ b Hb. cbn in Hb. injection Hb as <-. reflexivity.
Defined.

Lemma wf_key3 : wf_key key3.
Proof. split; [cbn; lia|]. split; [exact wf_path3|cbn; lia]. Defined.

Lemma wf_tint : wf_internal tint.
Proof.
  split; [vm_compute; split; [discriminate | reflexivity]|].
  split; [vm_compute; reflexivity|].
  repeat constructor; vm_compute; congruence.
Defined.

Lemma pop_push_witness :
  wf_path path3 /\ exists p', push path3 4 = Some p' /\ pop p' = path3.
Proof.
  split; [exact wf_path3|].
  apply (pop_push path3 4 wf_path3); [cbn; lia|lia].
Defined.

Lemma nibble_path_invariant_witness :
  wf_path (from_bytes [Byte.x12; Byte.x3f; Byte.xff] 3).
Proof.
  apply (proj1 (proj2 (proj2 nibble_path_invariant))); [lia|].
  vm_compute. discriminate.
Defined.

Lemma get_nibble_push_witness :
  wf_path path3
  /\ exists p', push path3 4 = Some p'
       /\ nibble_size p' = nibble_size path3 + 1
       /\ get_nibble p' (nibble_size path3) = Value 4
       /\ forall i, 0 <= i < nibble_size path3 -> get_nibble p' i = get_nibble path3 i.
Proof.
  split; [exact wf_path3|].
  apply (proj2 (get_nibble_push path3 4 wf_path3 ltac:(cbn; lia))). lia.
Defined.

Lemma push_all_reads_witness :
  exists p,
    push_all empty_path [1; 2; 3] = Some p
    /\ nibble_size p = 3
    /\ (forall (i : nat) n, [1; 2; 3] !! i = Some n -> get_nibble p (Z.of_nat i) = Value n)
    /\ (forall i, 3 <= i -> get_nibble p i = ThrowsOutOfRange).
Proof.
  apply (push_all_reads [1; 2; 3]); [cbn; lia|].
  repeat constructor; lia.
Defined.

Lemma from_bytes_roundtrip_witness :
  wf_path path3 /\ from_bytes (bytes_ path3 ++ [Byte.xff]) (nibble_size path3) = path3.
Proof.
  split; [exact wf_path3|].
  apply (from_bytes_roundtrip path3 [Byte.xff] wf_path3). cbn. lia.
Defined.

Lemma NibblePath_compare_total_order_witness :
  NibblePath_compare empty_path path3 = Lt.
Proof.
  apply (proj2 (proj2 (proj2 (NibblePath_compare_total_order empty_path path3 path3)))).
  cbn. lia.
Defined.

Lemma NodeKey_compare_total_order_witness :
  NodeKey_compare key_a key3 = Lt.
Proof.
  apply (proj1 (proj2 (proj2 (proj2 (NodeKey_compare_total_order key_a key3 key3))))).
  cbn. lia.
Defined.

Lemma NodeKey_serialize_roundtrip_witness :
  wf_key key3
  /\ NodeKey_deserialize (NodeKey_serialize key3 ++ [Byte.xff]) = Some key3.
Proof.
  split; [exact wf_key3|].
  exact (proj1 (NodeKey_serialize_roundtrip key3 [Byte.xff] wf_key3)).
Defined.

Lemma NodeKey_deserialize_sound_witness :
  NodeKey_deserialize [Byte.x07] = None.
Proof.
  apply (proj1 (NodeKey_deserialize_sound [Byte.x07])). cbn. lia.
Defined.

Lemma sparse_bitmap_set_laws_witness :
  wf_mask (mask_ (mkSparseBitmap 136))
  /\ total_children (bitmap_set (mkSparseBitmap 136) 15)
     = (total_children (mkSparseBitmap 136)
        + if bitmap_exists (mkSparseBitmap 136) 15 then 0 else 1)%nat.
Proof.
  assert (H : wf_mask (mask_ (mkSparseBitmap 136))) by (cbn; unfold wf_mask; lia).
  split; [exact H|].
  exact (proj1 (proj2 (sparse_bitmap_set_laws (mkSparseBitmap 136) 15 H ltac:(lia)))).
Defined.

Lemma get_index_dense_witness :
  (get_index (mkSparseBitmap 32904) 7 < total_children (mkSparseBitmap 32904))%nat.
Proof.
  apply (proj1 (proj2 (get_index_dense (mkSparseBitmap 32904)))); [lia|].
  vm_compute. reflexivity.
Defined.

Lemma set_child_get_child_witness :
  wf_internal tint
  /\ get_child (set_child tint 3 (replicate 64 Byte.x44) 11) 3
     = Some (mkChildInfo (replicate 64 Byte.x44) 11).
Proof.
  split; [exact wf_tint|].
  exact (proj1 (set_child_get_child tint 3 (replicate 64 Byte.x44) 11 wf_tint
                  ltac:(lia) eq_refl ltac:(lia))).
Defined.

Lemma set_children_order_independent_witness :
  set_children ops_a empty_internal = set_children ops_b empty_internal.
Proof.
  apply (set_children_order_independent ops_a ops_b).
  - repeat constructor; cbn; lia.
  - repeat constructor; cbn; lia.
  - intros n Hn.
    do 16 (destruct n as [|n]; [vm_compute; reflexivity|]). lia.
Defined.

Lemma node_encoding_injective_witness :
  wf_node (Leaf tleaf) /\ wf_node (Internal tint)
  /\ (hash_input (Leaf tleaf) = hash_input (Internal tint) -> Leaf tleaf = Internal tint).
Proof.
  assert (Hl : wf_node (Leaf tleaf)) by (split; reflexivity).
  split; [exact Hl|]. split; [exact wf_tint|].
  exact (proj1 (proj2 (node_encoding_injective (fun bs => take 64 bs)
                         (Leaf tleaf) (Internal tint) Hl wf_tint))).
Defined.

Lemma tree_cache_invariant_witness :
  (TreeCache_size
     (cache_run [DoPut key_a (Leaf tleaf); DoPut key_b (Leaf tleaf); DoGet key_a;
                 DoPut key_c (Leaf tleaf)] (TreeCache_new 2)) <= 2)%nat.
Proof.
  apply (tree_cache_invariant 2
           [DoPut key_a (Leaf tleaf); DoPut key_b (Leaf tleaf); DoGet key_a;
            DoPut key_c (Leaf tleaf)]).
  lia.
Defined.

Lemma tree_cache_put_laws_witness :
  cache_inv (TreeCache_new 2)
  /\ (TreeCache_get (TreeCache_put (TreeCache_new 2) key_a (Leaf tleaf)) key_a).1
     = Some (Leaf tleaf).
Proof.
  split; [exact (cache_inv_new 2)|].
  exact (proj1 (tree_cache_put_laws (TreeCache_new 2) key_a (Leaf tleaf)
                  (cache_inv_new 2) ltac:(cbn; lia))).
Defined.

Lemma tree_cache_get_laws_witness :
  cache_inv (TreeCache_new 2)
  /\ TreeCache_get (TreeCache_new 2) key_a = (None, TreeCache_new 2).
Proof.
  split; [exact (cache_inv_new 2)|].
  apply (proj1 (tree_cache_get_laws (TreeCache_new 2) key_a (cache_inv_new 2))).
  apply lookup_empty.
Defined.

Lemma speculative_get_after_write_witness :
  Speculative_get (inject_node (Speculative_new None) key_a (Leaf tleaf)) key_a
  = (Some (Leaf tleaf), inject_node (Speculative_new None) key_a (Leaf tleaf)).
Proof.
  apply (proj1 (proj2 (speculative_get_after_write (Speculative_new None) key_a
                         (Leaf tleaf)))).
  apply lookup_empty.
Defined.

Lemma calculate_root_speculative_isolation_witness :
  let engine := fun (u : list (Hash * option Bytes)) (v : Z) (r : Hash) (bv : option Z) =>
    CallPut key_a (Leaf tleaf)
      (CallGet key_b (fun _ => CallClear (Finish (Some (mkTreeUpdateBatch r []))))) in
  cache_inv (calculate_root_speculative (fun bs => take 64 bs) engine (TreeCache_new 2)
               [] (replicate 64 Byte.x00) 2 None None).2.
Proof.
  intros engine.
  apply (proj2 (proj2 (proj2 (calculate_root_speculative_isolation
           (fun bs => take 64 bs) engine (TreeCache_new 2) []
           (replicate 64 Byte.x00) 2 None None)))).
  exact (cache_inv_new 2).
Defined.

Lemma inject_parents_sound_witness :
  is_Some (injected_ (inject_parents (Speculative_new None)
                        [(NodeKey_serialize key3,
                          serialize_node_with_prefix (Leaf tleaf))]) !! key3).
Proof.
  apply (proj2 (proj2 (proj2 (inject_parents_sound None
           [(NodeKey_serialize key3, serialize_node_with_prefix (Leaf tleaf))])))
         (NodeKey_serialize key3) (serialize_node_with_prefix (Leaf tleaf))
         key3 (Leaf tleaf)).
  - left.
  - vm_compute. reflexivity.
  - vm_compute. reflexivity.
Defined.

Lemma merged_batch_keys_witness :
  NoDup (merged_batch (fun bs => take 64 bs) adapter0 []).*1.
Proof.
  apply (proj2 (proj2 (merged_batch_keys (fun bs => take 64 bs) _ adapter0 []))).
  reflexivity.
Defined.

Lemma XookAdapter_get_width_witness :
  let tree_get := fun (t : list (list (Hash * option Bytes))) (h : Hash) (v : Z) =>
                    Some [Byte.x01; Byte.x02] in
  length (bytes_to_hash [Byte.x01; Byte.x02]) = HASH_SIZE.
Proof.
  intros tree_get.
  apply (proj1 (proj2 (XookAdapter_get_width (fun bs => take 64 bs) _ tree_get
                         adapter0 [Byte.x61] 1))).
  reflexivity.
Defined.

Lemma legacy_key_to_hash256_laws_witness :
  XMTLegacy.key_to_hash256 ([Byte.x61] ++ [Byte.x00]) = XMTLegacy.key_to_hash256 [Byte.x61].
Proof.
  apply (proj2 (proj2 (proj2 (legacy_key_to_hash256_laws [Byte.x61] [])))).
  cbn. lia.
Defined.

Lemma decoded_internal_get_child_witness :
  deserialize_node_from_bytes (serialize_node_with_prefix (Internal tint))
  = Some (Internal tint)
  /\ raw_mask (bitmap tint)
     = le_combine (take 2 (drop 1 (serialize_node_with_prefix (Internal tint)))).
Proof.
  assert (H : deserialize_node_from_bytes (serialize_node_with_prefix (Internal tint))
              = Some (Internal tint)) by (vm_compute; reflexivity).
  split; [exact H|].
  exact (proj1 (decoded_internal_get_child _ tint 15 H ltac:(lia))).
Defined.

Lemma speculative_size_counts_witness :
  Speculative_size (Speculative_new None)
  = size (dom (overlay_ (Speculative_new None)) ∪ dom (injected_ (Speculative_new None))).
Proof.
  apply (proj2 (proj2 (speculative_size_counts (Speculative_new None)))).
  apply elem_of_disjoint. intros k Hk _. cbn in Hk. rewrite dom_empty in Hk.
  exact (not_elem_of_empty k Hk).
Defined.

Lemma update_batch_versus_calculate_root_witness :
  let engine := fun (t : list (list (Hash * option Bytes)))
                    (u : list (Hash * option Bytes)) (v : Z) (r : option Hash)
                    (bv : option Z) =>
                  Some (mkTreeUpdateBatch (replicate 64 Byte.x01) [], u :: t) in
  let updates := [([Byte.x61], replicate 64 Byte.xaa)] in
  XookAdapter_update_batch (fun bs => take 64 bs) engine adapter0 updates 5
    (Some (replicate 64 Byte.x00)) None
  = XookAdapter_calculate_root (fun bs => take 64 bs)
      (fun t u v (r : Hash) bv => engine t u v (Some r) bv) adapter0 updates
      (replicate 64 Byte.x00) 5 None.
Proof.
  intros engine updates.
  apply (proj1 (update_batch_versus_calculate_root (fun bs => take 64 bs) _ engine
                  adapter0 updates (replicate 64 Byte.x00) 5 None)).
  - reflexivity.
  - discriminate.
Defined.
